(** * AI Recruiter: skill matching, profile extraction, ranking and the
      lexical scorer

    A shallow embedding of [src/src/utils.py] (the skill matcher, the three
    profile extractors and [rank_candidates]), of the profile dictionary
    built in [src/app.py], and of [calculate_score] in [src/main.py].

    Modelling conventions.
    - A Python [str] is a [string]; every [ascii] stands for the code point
      of the same number, so the strings of the model are the Python strings
      over U+0000..U+00FF.  The character classes below are those of
      CPython on that range.
    - A Python [set] of strings is a [gset string].
    - A Python [float] is a rational of [Q].  The two percentages of the
      code are modelled twice.  [score_candidate], [rank_candidates] and
      [calculate_score] keep the quotient exact: this is the reading in
      which the order, the bounds and the extremes of the percentages are
      stated.  [Runtime.score_candidate], [Runtime.rank_candidates] and
      [Runtime.calculate_score] compute them as CPython does, in binary64
      ([Binary64]: round to nearest, ties to even, 53 bits, the subnormal
      numbers included; no value computed here exceeds 100, so overflow is
      left out).  The last part relates the two readings: below [2^50]
      job skills, or words, rounding keeps the order and the extremes.
    - spaCy's tokenizer, its entity recognizer and [str.title] are library
      code outside the repository: the functions that call them take them as
      parameters.  [PhraseMatcher], [re] and [list.sort] are modelled by
      what their documentation says of the calls made here.  The extractors
      of the first part take the tokenizer and the recognizer as functions:
      they describe the calls of [nlp] that return.  [Runtime] has the calls
      as they are: [nlp(text)] may raise, and its exception ends the
      extractor, the analysis and the run of the script that called it.
    - [rank_candidates] updates the dictionaries of the candidates and
      sorts the list it was given, in place.  What it writes into a
      candidate depends on that candidate's ['skills'] alone, which it does
      not change, so the model maps the candidates to their updated values
      and returns the sorted list. *)

From Stdlib Require Import QArith Qround Qpower Lqa String Ascii NArith List Permutation Sorted.
From stdpp Require Import gmap strings list.

(** ** Python string primitives *)

Module PyStr.

Definition LF : ascii := ascii_of_nat 10.

Definition code (c : ascii) : N := N_of_ascii c.

Definition between (lo hi : N) (c : ascii) : bool :=
  ((lo <=? code c) && (code c <=? hi))%N.

Definition is_ascii_upper (c : ascii) : bool := between 65 90 c.
Definition is_ascii_lower (c : ascii) : bool := between 97 122 c.
Definition is_ascii_digit (c : ascii) : bool := between 48 57 c.
Definition is_underscore (c : ascii) : bool := (code c =? 95)%N.

(** The class [[A-Za-z0-9_]]. *)
Definition is_ascii_word (c : ascii) : bool :=
  is_ascii_upper c || is_ascii_lower c || is_ascii_digit c || is_underscore c.

(** [str.isalnum] on one character: the ASCII letters and digits, and
    U+00AA, U+00B2, U+00B3, U+00B5, U+00B9, U+00BA, U+00BC..U+00BE,
    U+00C0..U+00D6, U+00D8..U+00F6, U+00F8..U+00FF. *)
Definition isalnum (c : ascii) : bool :=
  is_ascii_upper c || is_ascii_lower c || is_ascii_digit c
  || (code c =? 170)%N || between 178 179 c || (code c =? 181)%N
  || between 185 186 c || between 188 190 c
  || between 192 214 c || between 216 246 c || between 248 255 c.

(** The class [\w] of [re] on a [str] pattern: alphanumeric or underscore. *)
Definition is_word (c : ascii) : bool := isalnum c || is_underscore c.

(** [str.isspace] on one character, which is also the class [\s] of [re]
    and what [str.strip] removes. *)
Definition isspace (c : ascii) : bool :=
  between 9 13 c || between 28 32 c || (code c =? 133)%N || (code c =? 160)%N.

Definition shift_down (c : ascii) : ascii := ascii_of_N (code c + 32).
Definition shift_up (c : ascii) : ascii := ascii_of_N (code c - 32).

(** [str.lower].  On U+0000..U+00FF it maps every character by itself, to
    a character of that range, and keeps the length of the text: the cases
    in which [str.lower] looks at the neighbours of a character (the final
    sigma) or lengthens the text lie above U+00FF, outside the strings of
    the model. *)
Definition lower_char (c : ascii) : ascii :=
  if is_ascii_upper c || between 192 214 c || between 216 222 c
  then shift_down c else c.

Fixpoint lower (s : string) : string :=
  match s with
  | EmptyString => EmptyString
  | String c s' => String (lower_char c) (lower s')
  end.

(** [str.strip()] *)
Fixpoint lstrip (s : string) : string :=
  match s with
  | EmptyString => EmptyString
  | String c s' => if isspace c then lstrip s' else s
  end.

Fixpoint rstrip (s : string) : string :=
  match s with
  | EmptyString => EmptyString
  | String c s' =>
      match rstrip s' with
      | EmptyString => if isspace c then EmptyString else String c EmptyString
      | r => String c r
      end
  end.

Definition strip (s : string) : string := rstrip (lstrip s).

(** [sub in s] *)
Fixpoint contains (sub s : string) : bool :=
  String.prefix sub s
  || match s with
     | EmptyString => false
     | String _ s' => contains sub s'
     end.

(** The maximal runs of characters of the class [cls], from left to right;
    [run] is the run being read. *)
Definition emit (run : string) : list string :=
  match run with
  | EmptyString => []
  | _ => [run]
  end.

Fixpoint runs_from (cls : ascii → bool) (run s : string) : list string :=
  match s with
  | EmptyString => emit run
  | String c s' =>
      if cls c then runs_from cls (run +:+ String c EmptyString) s'
      else emit run ++ runs_from cls EmptyString s'
  end.

Definition runs (cls : ascii → bool) (s : string) : list string :=
  runs_from cls EmptyString s.

(** [re.findall(r'\w+', s)] *)
Definition findall_word (s : string) : list string := runs is_word s.

(** Every character of [s] is in the class [cls]. *)
Fixpoint all_chars (cls : ascii → bool) (s : string) : bool :=
  match s with
  | EmptyString => true
  | String c s' => cls c && all_chars cls s'
  end.

Definition is_ascii (c : ascii) : bool := (code c <? 128)%N.

End PyStr.

(** ** [src/main.py] *)

Definition len_Q (X : gset string) : Q := inject_Z (Z.of_nat (size X)).

Definition calculate_score (resume jd : string) : Q :=
  let resume_words : gset string := list_to_set (PyStr.findall_word (PyStr.lower resume)) in
  let jd_words : gset string := list_to_set (PyStr.findall_word (PyStr.lower jd)) in
  if decide (jd_words = ∅) then 0
  else
    let matching_words := resume_words ∩ jd_words in
    let score := (len_Q matching_words / len_Q jd_words)%Q in
    (score * 100)%Q.

(** ** spaCy documents and the phrase matcher *)

Module Spacy.

(** A token: its verbatim text and the space that follows it. *)
Record Token := { orth : string; whitespace_ : string }.

Definition Doc := list Token.

Definition text_with_ws (t : Token) : string := orth t +:+ whitespace_ t.

(** The text of a run of tokens: the space after the last one is left out. *)
Fixpoint tokens_text (ts : list Token) : string :=
  match ts with
  | [] => EmptyString
  | [t] => orth t
  | t :: ts' => text_with_ws t +:+ tokens_text ts'
  end.

(** [l[start:end]] for indices that are not negative. *)
Definition slice {A} (start end_ : nat) (l : list A) : list A :=
  take (end_ - start) (drop start l).

(** [doc[start:end].text] *)
Definition span_text (doc : Doc) (start end_ : nat) : string :=
  tokens_text (slice start end_ doc).

Definition orths (ts : list Token) : list string := map orth ts.

(** [PhraseMatcher(nlp.vocab)] is built without [attr], so it compares the
    attribute ORTH, the verbatim text of each token.  A pattern matches at
    [start] when the tokens from [start] on carry the texts of the
    pattern's tokens; an empty pattern is skipped. *)
Definition pattern_at (doc : Doc) (start : nat) (pat : Doc) : bool :=
  bool_decide (pat ≠ [])
  && bool_decide (orths (take (length pat) (drop start doc)) = orths pat).

(** [matcher(doc)]: the [(start, end)] of every occurrence of a pattern. *)
Definition phrase_matcher (patterns : list Doc) (doc : Doc) : list (nat * nat) :=
  flat_map
    (fun start =>
       flat_map
         (fun pat =>
            if pattern_at doc start pat then [(start, start + length pat)]
            else [])
         patterns)
    (seq 0 (length doc)).

(** An entity of [doc.ents]: a span of tokens with a label. *)
Record Span := { start : nat; end_ : nat; label_ : string }.

Definition ent_text (doc : Doc) (ent : Span) : string :=
  span_text doc (start ent) (end_ ent).

End Spacy.

Import Spacy.

(** ** [src/src/utils.py]: skills, experience, education *)

Definition PREDEFINED_SKILLS : list string :=
  [ "Python"; "SQL"; "Pandas"; "NumPy"; "Scikit-Learn"; "PyTorch"; "TensorFlow";
    "Machine Learning"; "Data Visualization"; "Deep Learning"; "Tableau"; "Excel";
    "Git"; "GitHub"; "FastAPI"; "Streamlit"; "NLP"; "AI"; "Data Science" ].

Section Pipeline.

(** The tokenizer of the loaded model ([nlp.make_doc], also the first stage
    of [nlp]), its entity recognizer (what fills [doc.ents]) and
    [str.title]. *)
Variable make_doc : string → Doc.
Variable ner : Doc → list Span.
Variable title : string → string.

Definition skill_patterns : list Doc := map make_doc PREDEFINED_SKILLS.

(** The result is [list(set(...))]: a list without duplicates, in an order
    Python does not specify; the order of [elements] stands for it. *)
Definition refined_extract_skills (text : string) (skill_patterns : list Doc)
  : list string :=
  let doc := make_doc text in
  let matches := phrase_matcher skill_patterns doc in
  elements
    (list_to_set
       (map (fun m : nat * nat => title (span_text doc m.1 m.2)) matches)
     : gset string).

Definition ents (text : string) : list Span := ner (make_doc text).

Definition detailed_extract_experience (text : string) : list string :=
  let doc := make_doc text in
  let experience :=
    map (fun ent => "Worked at: " +:+ ent_text doc ent)
        (filter (fun ent => label_ ent = "ORG") (ents text)) in
  match experience with
  | [] => ["Could not automatically extract experience."]
  | _ => experience
  end.

Definition education_keywords : list string :=
  ["university"; "college"; "institute"].

Definition is_education (doc : Doc) (ent : Span) : bool :=
  bool_decide (label_ ent ∈ ["ORG"; "PRODUCT"])
  && existsb (fun keyword => PyStr.contains keyword (PyStr.lower (ent_text doc ent)))
             education_keywords.

Definition detailed_extract_education (text : string) : list string :=
  let doc := make_doc text in
  let education :=
    map (fun ent => "Studied at: " +:+ ent_text doc ent)
        (filter (fun ent => is_education doc ent = true) (ents text)) in
  match education with
  | [] => ["Could not automatically extract education."]
  | _ => education
  end.

End Pipeline.

(** ** A small tokenizer, recognizer and title-casing to run examples

    [words_doc] cuts a text at its spaces, as spaCy's English tokenizer does
    on a text made of plain words separated by single spaces. *)

Module SimpleNLP.

Definition SP : ascii := ascii_of_nat 32.

Definition close (run ws : string) : Doc :=
  match run with
  | EmptyString => []
  | _ => [{| orth := run; whitespace_ := ws |}]
  end.

Fixpoint words_from (run s : string) : Doc :=
  match s with
  | EmptyString => close run EmptyString
  | String c s' =>
      if Ascii.eqb c SP
      then (close run (String SP EmptyString) ++ words_from EmptyString s')%list
      else words_from (run +:+ String c EmptyString) s'
  end.

Definition words_doc (text : string) : Doc := words_from EmptyString text.

(** A recognizer that labels every capitalised token after "at" as an
    organisation. *)
Fixpoint after_at (i : nat) (prev : string) (doc : Doc) : list Span :=
  match doc with
  | [] => []
  | t :: doc' =>
      ((if bool_decide (prev = "at") then
          match orth t with
          | String c _ =>
              if PyStr.is_ascii_upper c
              then [{| start := i; end_ := S i; label_ := "ORG" |}] else []
          | EmptyString => []
          end
        else [])
       ++ after_at (S i) (orth t) doc')%list
  end.

Definition capitalised_after_at (doc : Doc) : list Span :=
  after_at 0 EmptyString doc.

(** [str.title]: a cased character is put in title case after an uncased
    one and in lower case after a cased one.  U+00B5 and U+00FF, whose
    title case is above U+00FF, are kept. *)
Definition is_cased (c : ascii) : bool :=
  PyStr.is_ascii_upper c || PyStr.is_ascii_lower c
  || (PyStr.code c =? 170)%N || (PyStr.code c =? 181)%N || (PyStr.code c =? 186)%N
  || PyStr.between 192 214 c || PyStr.between 216 246 c || PyStr.between 248 255 c.

Definition title_char (c : ascii) : string :=
  if PyStr.is_ascii_lower c || PyStr.between 224 246 c || PyStr.between 248 254 c
  then String (PyStr.shift_up c) EmptyString
  else if (PyStr.code c =? 223)%N then "Ss"
  else String c EmptyString.

Fixpoint title_from (previous_is_cased : bool) (s : string) : string :=
  match s with
  | EmptyString => EmptyString
  | String c s' =>
      (if previous_is_cased then String (PyStr.lower_char c) EmptyString
       else title_char c)
      +:+ title_from (is_cased c) s'
  end.

Definition title (s : string) : string := title_from false s.

End SimpleNLP.

(** ** [src/src/utils.py]: the projects section

    The pattern of [detailed_extract_projects],

      (?:projects|portfolio|personal projects)\s*\n(.*?)
      (?:\n\n\s*(?:skills|experience|education)|$)

    under [re.IGNORECASE | re.DOTALL], written with backtracking
    combinators: each takes the continuation [k] that matches what follows
    it in the pattern, and gives the first success in the order in which
    [re] tries the alternatives. *)

Module ProjectsRegex.

Section Combinators.
Context {R : Type}.

(** A literal under IGNORECASE.  On U+0000..U+00FF a character matches
    a letter exactly when both have the same lower case. *)
Fixpoint lit (l : string) (k : string → option R) (s : string) : option R :=
  match l with
  | EmptyString => k s
  | String a l' =>
      match s with
      | String c s' =>
          if Ascii.eqb (PyStr.lower_char c) (PyStr.lower_char a)
          then lit l' k s' else None
      | EmptyString => None
      end
  end.

(** [(?:l1|l2|...)]: the alternatives in order. *)
Fixpoint alt (ls : list string) (k : string → option R) (s : string) : option R :=
  match ls with
  | [] => None
  | l :: ls' =>
      match lit l k s with
      | Some r => Some r
      | None => alt ls' k s
      end
  end.

(** [\s*], greedy: one more space first, then none. *)
Fixpoint spaces (k : string → option R) (s : string) : option R :=
  match s with
  | String c s' =>
      if PyStr.isspace c then
        match spaces k s' with
        | Some r => Some r
        | None => k s
        end
      else k s
  | EmptyString => k s
  end.

(** [\n] *)
Definition newline (k : string → option R) (s : string) : option R :=
  match s with
  | String c s' => if Ascii.eqb c PyStr.LF then k s' else None
  | EmptyString => None
  end.

(** [(.*?)] under DOTALL, lazy: nothing first, then one more character;
    [cap] is what the group holds so far. *)
Fixpoint lazy_any (k : string → string → option R) (cap s : string) : option R :=
  match k cap s with
  | Some r => Some r
  | None =>
      match s with
      | String c s' => lazy_any k (cap +:+ String c EmptyString) s'
      | EmptyString => None
      end
  end.

(** [$] without MULTILINE: at the end, or before a last line break. *)
Definition at_end (s : string) : bool :=
  match s with
  | EmptyString => true
  | String c EmptyString => Ascii.eqb c PyStr.LF
  | _ => false
  end.

Definition dollar (k : string → option R) (s : string) : option R :=
  if at_end s then k s else None.

Definition or_else (p q : (string → option R) → string → option R)
    (k : string → option R) (s : string) : option R :=
  match p k s with
  | Some r => Some r
  | None => q k s
  end.

End Combinators.

Definition headers : list string := ["projects"; "portfolio"; "personal projects"].
Definition stops : list string := ["skills"; "experience"; "education"].

(** [(?:\n\n\s*(?:skills|experience|education)|$)] *)
Definition terminator {R} : (string → option R) → string → option R :=
  or_else (fun k => newline (newline (spaces (alt stops k)))) dollar.

(** A match of the whole pattern that starts at the head of [s]: the text
    of group 1 and what is left of [s] after the match. *)
Definition match_here (s : string) : option (string * string) :=
  alt headers
    (spaces
       (newline
          (lazy_any (fun cap => terminator (fun rest => Some (cap, rest)))
                    EmptyString)))
    s.

(** [re.findall]: the matches from left to right, each search starting
    where the last match ended.  [skip] counts the characters of the last
    match that are still to be passed. *)
Fixpoint findall_from (skip : nat) (s : string) : list string :=
  match s with
  | EmptyString => []
  | String _ s' =>
      match skip with
      | S n => findall_from n s'
      | O =>
          match match_here s with
          | Some (cap, rest) =>
              cap :: findall_from (String.length s - String.length rest - 1) s'
          | None => findall_from 0 s'
          end
      end
  end.

Definition findall (s : string) : list string := findall_from 0 s.

End ProjectsRegex.

Definition detailed_extract_projects (text : string) : list string :=
  let project_sections := ProjectsRegex.findall text in
  match project_sections with
  | [] => ["No projects section found."]
  | _ => map PyStr.strip project_sections
  end.

(** ** [src/app.py]: the candidate dictionary

    The dictionary built for each resume whose text is not empty has the
    five keys below; [rank_candidates] adds ['match_score'] and
    ['match_percentage'], which are absent before. *)

Record Candidate := {
  name : string;
  skills : list string;
  experience : list string;
  education : list string;
  projects : list string;
  match_score : option nat;
  match_percentage : option Q
}.

Section Analysis.

Variable make_doc : string → Doc.
Variable ner : Doc → list Span.
Variable title : string → string.

Definition candidate_details (file_name content : string) : Candidate :=
  {| name := file_name;
     skills := refined_extract_skills make_doc title content (skill_patterns make_doc);
     experience := detailed_extract_experience make_doc ner content;
     education := detailed_extract_education make_doc ner content;
     projects := detailed_extract_projects content;
     match_score := None;
     match_percentage := None |}.

End Analysis.

(** ** [src/src/utils.py]: ranking *)

(** [list.sort(key=..., reverse=True)].  The sort of Python is stable, and
    stays so under [reverse=True]: the keys come out in descending order and
    elements with equal keys keep the order they had.  [insert_desc] puts [x],
    which stood before every element of [l], behind the elements of greater
    key and before all others. *)
Definition Qlt_bool (x y : Q) : bool := negb (Qle_bool y x).

Section Sort.
Context {A : Type}.
Variable key : A → Q.

Fixpoint insert_desc (x : A) (l : list A) : list A :=
  match l with
  | [] => [x]
  | y :: l' =>
      if Qlt_bool (key x) (key y) then y :: insert_desc x l'
      else x :: y :: l'
  end.

Fixpoint sort_reverse (l : list A) : list A :=
  match l with
  | [] => []
  | x :: l' => insert_desc x (sort_reverse l')
  end.

(** The keys of [l] are in descending order. *)
Definition descending (l : list A) : Prop :=
  StronglySorted (fun a b => (key b <= key a)%Q) l.

(** The elements of [l] whose key is [q], in the order of [l]. *)
Definition with_key (q : Q) (l : list A) : list A :=
  List.filter (fun a => Qeq_bool (key a) q) l.

End Sort.

(** [x['match_percentage']] for a candidate that has been scored. *)
Definition percentage_key (c : Candidate) : Q :=
  match match_percentage c with
  | Some p => p
  | None => 0
  end.

(** The body of the loop: the two assignments to [candidate]. *)
Definition score_candidate (job_skills_set : gset string) (candidate : Candidate)
  : Candidate :=
  let score := size (job_skills_set ∩ list_to_set (skills candidate)) in
  {| name := name candidate;
     skills := skills candidate;
     experience := experience candidate;
     education := education candidate;
     projects := projects candidate;
     match_score := Some score;
     match_percentage :=
       Some (if decide (job_skills_set = ∅) then 0
             else (inject_Z (Z.of_nat score) / len_Q job_skills_set) * 100)%Q |}.

Definition rank_candidates (job_skills : list string) (candidate_data : list Candidate)
  : list Candidate :=
  let job_skills_set : gset string := list_to_set job_skills in
  sort_reverse percentage_key (map (score_candidate job_skills_set) candidate_data).

(** The skill matcher on a vocabulary of phrases, run with the small
    tokenizer: [refined_extract_skills(text, [make_doc(p) for p in vocabulary])]. *)
Definition match_skills (text : string) (vocabulary : list string) : list string :=
  refined_extract_skills SimpleNLP.words_doc SimpleNLP.title text
    (map SimpleNLP.words_doc vocabulary).

(** ** Vocabulary of the statements *)

(** Line breaks in the texts of the examples. *)
Definition nl : string := String PyStr.LF EmptyString.

Definition percentage (m n : nat) : Q :=
  (inject_Z (Z.of_nat m) / inject_Z (Z.of_nat n) * 100)%Q.

(** What [rank_candidates] leaves alone: the five keys of the profile. *)
Definition profile (c : Candidate)
  : string * list string * list string * list string * list string :=
  (name c, skills c, experience c, education c, projects c).


Definition example_job : list string := ["Python"; "Sql"; "Git"; "Excel"; "Nlp"].

Definition example_candidate (n : string) (sk : list string) : Candidate :=
  {| name := n; skills := sk;
     experience := ["Could not automatically extract experience."];
     education := ["Could not automatically extract education."];
     projects := ["No projects section found."];
     match_score := None; match_percentage := None |}.

Definition candidate_A := example_candidate "A" ["Python"; "Sql"; "Git"; "Tableau"].
Definition candidate_B := example_candidate "B" ["Excel"; "Nlp"; "Git"].
Definition candidate_C := example_candidate "C" ["Nlp"; "Python"; "Sql"; "Git"].

(** [s] does not start, or end, with a character of the class [cls]. *)
Definition starts_outside (cls : ascii → bool) (s : string) : Prop :=
  match s with
  | EmptyString => True
  | String c _ => cls c = false
  end.

Definition ends_outside (cls : ascii → bool) (s : string) : Prop :=
  s = EmptyString ∨ ∃ s' c, s = s' +:+ String c EmptyString ∧ cls c = false.

(** [w] is a maximal run of [s] in the class [cls]: a piece of [s] that is
    not empty, lies in the class, and has no character of the class next
    to it. *)
Definition maximal_run (cls : ascii → bool) (w s : string) : Prop :=
  ∃ pre post,
    s = pre +:+ w +:+ post ∧ w ≠ EmptyString ∧ PyStr.all_chars cls w = true
    ∧ ends_outside cls pre ∧ starts_outside cls post.

(** The scorer as the specification words it: the tokens are the runs of
    [[A-Za-z0-9_]], put in lower case. *)
Definition ascii_tokens (s : string) : gset string :=
  list_to_set (map PyStr.lower (PyStr.runs PyStr.is_ascii_word s)).

Definition word_tokens (s : string) : gset string :=
  list_to_set (PyStr.findall_word (PyStr.lower s)).

Definition overlap_percentage (resume_tokens jd_tokens : gset string) : Q :=
  if decide (jd_tokens = ∅) then 0%Q
  else (100 * len_Q (resume_tokens ∩ jd_tokens) / len_Q jd_tokens)%Q.

(** "caf" followed by U+00E9. *)
Definition cafe : string := "caf" +:+ String (ascii_of_nat 233) EmptyString.

(** The blocks of the projects pattern, in words.

    [blank w]: [w] is white space.  [spells l h]: [h] is the word [l] up to
    the case of its letters. *)
Definition blank (w : string) : Prop := PyStr.all_chars PyStr.isspace w = true.

Definition spells (l h : string) : Prop := PyStr.lower h = PyStr.lower l.

Definition one_of (ls : list string) (h : string) : Prop :=
  ∃ l, l ∈ ls ∧ spells l h.

(** [s] starts with a header word, white space and a line break, the last
    line break of the white space that follows the word; [body] is what
    comes after it. *)
Definition header_at (s body : string) : Prop :=
  ∃ h w, s = h +:+ w +:+ String PyStr.LF body
         ∧ one_of ProjectsRegex.headers h ∧ blank w
         ∧ ¬ (∃ w' body', body = w' +:+ String PyStr.LF body' ∧ blank w').

(** The first alternative of the end: an empty line, white space, a stop
    word. *)
Definition stop_word_at (t rest : string) : Prop :=
  ∃ w k, t = String PyStr.LF (String PyStr.LF (w +:+ k +:+ rest))
         ∧ blank w ∧ one_of ProjectsRegex.stops k.

(** [t] starts with what ends a block: an empty line, white space and a
    stop word, with [rest] after the word; or [t] is the end of the text,
    or its last line break, and [rest] is [t]. *)
Definition stop_at (t rest : string) : Prop :=
  stop_word_at t rest
  ∨ (t = rest ∧ (t = EmptyString ∨ t = String PyStr.LF EmptyString)).

(** [cap] is the block at the head of [body]: the text up to the first
    place where a block ends. *)
Definition block_of (body cap rest : string) : Prop :=
  ∃ t, body = cap +:+ t ∧ stop_at t rest
       ∧ ∀ cap' t', body = cap' +:+ t' →
                    (String.length cap' < String.length cap)%nat →
                    ¬ ∃ rest', stop_at t' rest'.

Definition match_at (s cap rest : string) : Prop :=
  ∃ body, header_at s body ∧ block_of body cap rest.

(** The blocks of a text: the block of the first place with a header, then
    the blocks of what is left after the end of that block. *)
Inductive blocks : string → list string → Prop :=
| blocks_none (s : string) :
    (∀ pre t cap rest, s = pre +:+ t → ¬ match_at t cap rest) →
    blocks s []
| blocks_cons (pre t cap rest : string) (caps : list string) :
    (∀ p1 p2 cap' rest', pre = p1 +:+ p2 → p2 ≠ EmptyString →
                         ¬ match_at (p2 +:+ t) cap' rest') →
    match_at t cap rest →
    blocks rest caps →
    blocks (pre +:+ t) (cap :: caps).

(** The projects as the specification words them: one block for every line
    that is a header word, holding the text after that line up to the place
    where a block ends, trimmed. *)
Definition ends_block (t : string) : bool :=
  match ProjectsRegex.terminator (fun _ => Some tt) t with
  | Some _ => true
  | None => false
  end.

Fixpoint until_stop (s : string) : string :=
  match s with
  | EmptyString => EmptyString
  | String c s' => if ends_block s then EmptyString else String c (until_stop s')
  end.

Definition header_line (s : string) : option string :=
  ProjectsRegex.alt ProjectsRegex.headers (ProjectsRegex.newline Some) s.

Fixpoint header_line_blocks (line_start : bool) (s : string) : list string :=
  match s with
  | EmptyString => []
  | String c s' =>
      (if line_start then
         match header_line s with
         | Some body => [PyStr.strip (until_stop body)]
         | None => []
         end
       else [])
      ++ header_line_blocks (Ascii.eqb c PyStr.LF) s'
  end.

Definition projects_of_header_lines (text : string) : list string :=
  match header_line_blocks true text with
  | [] => ["No projects section found."]
  | sections => sections
  end.

(** "Projects\nBuilt X\nBuilt Y\n\nSkills\nPython" *)
Definition projects_example : string :=
  "Projects" +:+ nl +:+ "Built X" +:+ nl +:+ "Built Y" +:+ nl +:+ nl
  +:+ "Skills" +:+ nl +:+ "Python".

(** "Projects\nA\nPortfolio\nB" *)
Definition two_headers : string :=
  "Projects" +:+ nl +:+ "A" +:+ nl +:+ "Portfolio" +:+ nl +:+ "B".

(** * Properties *)

(** ** The sort *)

Lemma Qlt_bool_true (x y : Q) : Qlt_bool x y = true ↔ (x < y)%Q.
Proof.
  unfold Qlt_bool. rewrite negb_true_iff.
  split; intros H.
  - apply Qnot_le_lt. intros Hle. apply Qle_bool_iff in Hle. congruence.
  - destruct (Qle_bool y x) eqn:E; [|done].
    apply Qle_bool_iff in E. exfalso. exact (Qlt_not_le _ _ H E).
Qed.

Lemma Qlt_bool_false (x y : Q) : Qlt_bool x y = false ↔ (y <= x)%Q.
Proof.
  unfold Qlt_bool. rewrite negb_false_iff. apply Qle_bool_iff.
Qed.

Section SortFacts.
Context {A : Type}.
Variable key : A → Q.

Lemma insert_desc_perm (x : A) (l : list A) : insert_desc key x l ≡ₚ x :: l.
Proof.
  induction l as [|y l IH]; simpl; [done|].
  destruct (Qlt_bool (key x) (key y)); [|done].
  rewrite IH. apply Permutation_swap.
Qed.

Lemma sort_reverse_perm (l : list A) : sort_reverse key l ≡ₚ l.
Proof.
  induction l as [|x l IH]; simpl; [done|].
  rewrite insert_desc_perm. by rewrite IH.
Qed.

Lemma insert_desc_descending (x : A) (l : list A) :
  descending key l → descending key (insert_desc key x l).
Proof.
  unfold descending. induction l as [|y l IH]; intros Hs; simpl.
  - constructor; [constructor|constructor].
  - inversion Hs as [|? ? Hl Hy]; subst.
    destruct (Qlt_bool (key x) (key y)) eqn:E.
    + apply Qlt_bool_true in E. constructor; [by apply IH|].
      rewrite insert_desc_perm. constructor; [by apply Qlt_le_weak|done].
    + apply Qlt_bool_false in E. constructor; [done|].
      constructor; [done|].
      eapply Forall_impl; [exact Hy|]. intros z Hz. simpl in Hz.
      by apply Qle_trans with (key y).
Qed.

Lemma sort_reverse_descending (l : list A) : descending key (sort_reverse key l).
Proof.
  induction l as [|x l IH]; simpl; [constructor|].
  by apply insert_desc_descending.
Qed.

Lemma insert_desc_with_key (q : Q) (x : A) (l : list A) :
  with_key key q (insert_desc key x l) = with_key key q (x :: l).
Proof.
  unfold with_key. induction l as [|y l IH]; [done|].
  simpl. destruct (Qlt_bool (key x) (key y)) eqn:E; [|done].
  simpl. rewrite IH. simpl.
  destruct (Qeq_bool (key x) q) eqn:Ex, (Qeq_bool (key y) q) eqn:Ey; try done.
  apply Qlt_bool_true in E. apply Qeq_bool_iff in Ex, Ey.
  rewrite Ex, Ey in E. by apply Qlt_irrefl in E.
Qed.

Lemma sort_reverse_with_key (q : Q) (l : list A) :
  with_key key q (sort_reverse key l) = with_key key q l.
Proof.
  induction l as [|x l IH]; [done|].
  simpl. rewrite insert_desc_with_key. unfold with_key in *. simpl.
  by rewrite IH.
Qed.

Lemma insert_desc_front (x : A) (l : list A) :
  Forall (fun y => (key y <= key x)%Q) l → insert_desc key x l = x :: l.
Proof.
  destruct l as [|y l]; [done|]. intros H. simpl.
  apply Forall_cons_1 in H as [H _].
  apply Qlt_bool_false in H. by rewrite H.
Qed.

Lemma sort_reverse_fixed (l : list A) : descending key l → sort_reverse key l = l.
Proof.
  unfold descending. induction 1 as [|x l Hs IH Hx]; [done|].
  simpl. rewrite IH. by apply insert_desc_front.
Qed.

Lemma sort_reverse_idem (l : list A) :
  sort_reverse key (sort_reverse key l) = sort_reverse key l.
Proof. apply sort_reverse_fixed, sort_reverse_descending. Qed.

Lemma sort_reverse_constant (q : Q) (l : list A) :
  Forall (fun a => key a = q) l → sort_reverse key l = l.
Proof.
  intros H. apply sort_reverse_fixed. unfold descending.
  induction H as [|x l Hx Hl IH]; constructor; [done|].
  eapply Forall_impl; [exact Hl|]. intros y Hy. simpl in Hy.
  rewrite Hx, Hy. apply Qle_refl.
Qed.

End SortFacts.

Section StableUnique.
Context {A : Type}.
Variable key : A → Q.

Lemma with_key_cons (q : Q) (x : A) (l : list A) :
  with_key key q (x :: l)
  = if Qeq_bool (key x) q then x :: with_key key q l else with_key key q l.
Proof. reflexivity. Qed.

Lemma elem_of_with_key (q : Q) (a : A) (l : list A) :
  In a (with_key key q l) ↔ In a l ∧ (key a == q)%Q.
Proof. unfold with_key. rewrite filter_In. by rewrite Qeq_bool_iff. Qed.

Lemma with_key_proper (q q' : Q) (l : list A) :
  (q == q')%Q → with_key key q l = with_key key q' l.
Proof.
  intros Hq. unfold with_key. apply filter_ext. intros a.
  destruct (Qeq_bool (key a) q) eqn:E, (Qeq_bool (key a) q') eqn:E'; try done.
  - apply Qeq_bool_iff in E. rewrite Hq in E. apply Qeq_bool_iff in E. congruence.
  - apply Qeq_bool_iff in E'. rewrite <- Hq in E'. apply Qeq_bool_iff in E'. congruence.
Qed.

Lemma descending_head (x : A) (l : list A) (a : A) :
  descending key (x :: l) → In a (x :: l) → (key a <= key x)%Q.
Proof.
  intros Hd [->|Ha]; [apply Qle_refl|].
  inversion Hd as [|? ? _ Hx]; subst.
  rewrite List.Forall_forall in Hx. by apply Hx.
Qed.

Lemma descending_heads (x y : A) (l1 l2 : list A) :
  descending key (x :: l1) → descending key (y :: l2) →
  (∀ q, with_key key q (x :: l1) = with_key key q (y :: l2)) →
  (key y <= key x)%Q.
Proof.
  intros H1 H2 Hq.
  assert (Hy : In y (with_key key (key y) (x :: l1))).
  { rewrite Hq. apply elem_of_with_key. split; [by left|reflexivity]. }
  apply elem_of_with_key in Hy as [Hy _].
  by apply (descending_head x l1).
Qed.

(** The stable descending arrangement is the only one. *)
Lemma descending_stable_unique (l1 l2 : list A) :
  descending key l1 → descending key l2 →
  (∀ q, with_key key q l1 = with_key key q l2) → l1 = l2.
Proof.
  revert l2. induction l1 as [|x l1 IH]; intros l2 H1 H2 Hq.
  - destruct l2 as [|y l2]; [done|]. exfalso.
    specialize (Hq (key y)). rewrite with_key_cons in Hq.
    rewrite (proj2 (Qeq_bool_iff _ _) (Qeq_refl _)) in Hq. done.
  - destruct l2 as [|y l2].
    + exfalso. specialize (Hq (key x)). rewrite with_key_cons in Hq.
      rewrite (proj2 (Qeq_bool_iff _ _) (Qeq_refl _)) in Hq. done.
    + assert (Hxy : (key x == key y)%Q).
      { apply Qle_antisym.
        - apply (descending_heads y x l2 l1); [done|done|]. intros q. by rewrite Hq.
        - by apply (descending_heads x y l1 l2). }
      pose proof (Hq (key x)) as Hx. rewrite !with_key_cons in Hx.
      rewrite (proj2 (Qeq_bool_iff _ _) (Qeq_refl _)) in Hx.
      rewrite (proj2 (Qeq_bool_iff (key y) (key x)) (Qeq_sym _ _ Hxy)) in Hx.
      injection Hx as <- Hx. f_equal.
      inversion H1 as [|? ? H1' _]; inversion H2 as [|? ? H2' _]; subst.
      apply IH; [done|done|]. intros q.
      destruct (Qeq_bool (key x) q) eqn:E.
      * apply Qeq_bool_iff in E.
        by rewrite <- !(with_key_proper _ _ _ E).
      * specialize (Hq q). rewrite !with_key_cons, E in Hq. done.
Qed.

End StableUnique.

(** ** Percentages *)

Lemma percentage_formula (m n : nat) :
  (0 < n)%nat →
  (percentage m n == 100 * inject_Z (Z.of_nat m) / inject_Z (Z.of_nat n))%Q.
Proof.
  intros Hn. unfold percentage. field.
  intros H. unfold Qeq in H. simpl in H. lia.
Qed.

Lemma percentage_as_fraction (m n : nat) :
  percentage m (S n) = (Z.of_nat m * 1 * 100 # Pos.of_succ_nat n * 1)%Q.
Proof. reflexivity. Qed.

Lemma percentage_bounds (m n : nat) :
  (0 < n)%nat → (m ≤ n)%nat → (0 <= percentage m n)%Q ∧ (percentage m n <= 100)%Q.
Proof.
  intros Hn Hm. destruct n as [|n]; [lia|].
  rewrite percentage_as_fraction. unfold Qle. simpl. split; [lia|].
  rewrite !Pos.mul_1_r, Zpos_P_of_succ_nat. lia.
Qed.

Lemma percentage_zero (m n : nat) :
  (0 < n)%nat → (percentage m n == 0)%Q ↔ m = 0%nat.
Proof.
  intros Hn. destruct n as [|n]; [lia|].
  rewrite percentage_as_fraction. unfold Qeq. simpl. lia.
Qed.

Lemma percentage_lt (m1 m2 n : nat) :
  (0 < n)%nat → (percentage m1 n < percentage m2 n)%Q ↔ (m1 < m2)%nat.
Proof.
  intros Hn. destruct n as [|n]; [lia|].
  rewrite !percentage_as_fraction. unfold Qlt. simpl. nia.
Qed.

(** ** Ranking *)


Lemma score_candidate_profile (J : gset string) (c : Candidate) :
  profile (score_candidate J c) = profile c.
Proof. reflexivity. Qed.

Lemma score_candidate_idem (J : gset string) (c : Candidate) :
  score_candidate J (score_candidate J c) = score_candidate J c.
Proof. reflexivity. Qed.

Lemma score_candidate_key (J : gset string) (c : Candidate) :
  percentage_key (score_candidate J c)
  = if decide (J = ∅) then 0%Q
    else percentage (size (J ∩ list_to_set (skills c))) (size J).
Proof. unfold percentage_key. simpl. by destruct (decide (J = ∅)). Qed.

Lemma rank_candidates_perm (job_skills : list string) (candidate_data : list Candidate) :
  rank_candidates job_skills candidate_data
  ≡ₚ map (score_candidate (list_to_set job_skills)) candidate_data.
Proof. apply sort_reverse_perm. Qed.

Lemma elem_of_rank_candidates (job_skills : list string)
    (candidate_data : list Candidate) (c : Candidate) :
  c ∈ rank_candidates job_skills candidate_data
  ↔ ∃ c0, c0 ∈ candidate_data ∧ c = score_candidate (list_to_set job_skills) c0.
Proof.
  rewrite rank_candidates_perm, !list_elem_of_In, in_map_iff.
  split; intros (c0 & H1 & H2); exists c0.
  - by rewrite list_elem_of_In.
  - by rewrite <- list_elem_of_In.
Qed.

Lemma map_fixed {A} (f : A → A) (l : list A) :
  Forall (fun a => f a = a) l → map f l = l.
Proof.
  induction 1 as [|x l Hx Hl IH]; simpl; [done|]. by rewrite Hx, IH.
Qed.

Lemma size_pos_nonempty (J : gset string) : J ≠ ∅ → (0 < size J)%nat.
Proof.
  intros H. destruct (size J) eqn:E; [|lia].
  apply size_empty_iff in E. by apply leibniz_equiv in E.
Qed.

(** In exact arithmetic [rank_candidates] keeps every candidate, and in its
    result each candidate's [match_score] is the number of job skills among
    the candidate's skills, and its [match_percentage] is
    [100 * match_score / |job skills|] when there is a job skill and [0]
    when there is none.  The percentage that is stored is that of
    [Runtime.rank_candidates]. *)
Lemma rank_candidates_score_and_percentage
    (job_skills : list string) (candidate_data : list Candidate) :
  let job_skills_set : gset string := list_to_set job_skills in
  (∀ c0, c0 ∈ candidate_data →
     ∃ c, c ∈ rank_candidates job_skills candidate_data ∧ profile c = profile c0)
  ∧ (∀ c, c ∈ rank_candidates job_skills candidate_data →
       let score := size (job_skills_set ∩ list_to_set (skills c)) in
       match_score c = Some score
       ∧ ∃ p, match_percentage c = Some p
           ∧ ((0 < size job_skills_set)%nat →
              (p == 100 * inject_Z (Z.of_nat score)
                    / inject_Z (Z.of_nat (size job_skills_set)))%Q)
           ∧ (size job_skills_set = 0%nat → p = 0%Q)).
Proof.
  intros J. split.
  - intros c0 Hc0. exists (score_candidate J c0). split; [|done].
    apply elem_of_rank_candidates. by exists c0.
  - intros c Hc. apply elem_of_rank_candidates in Hc as (c0 & _ & ->).
    simpl. split; [done|].
    fold J. destruct (decide (J = ∅)) as [HJ|HJ].
    + exists 0%Q. split; [done|]. split; [|done].
      rewrite HJ, size_empty. lia.
    + eexists. split; [reflexivity|]. split.
      * intros Hpos. by apply (percentage_formula _ (size J)).
      * intros H0. apply size_pos_nonempty in HJ. lia.
Qed.

(** C3.  The result of [rank_candidates] is in descending order of
    [match_percentage], and the candidates of any one percentage stand in
    it in the order in which they were given; it is the only list of which
    both hold.  Candidates A (60%), B (60%) and C (80%), given in this
    order, come out as C, A, B. *)
Theorem rank_candidates_descending_stable
    (job_skills : list string) (candidate_data : list Candidate) :
  descending percentage_key (rank_candidates job_skills candidate_data)
  ∧ (∀ q, with_key percentage_key q (rank_candidates job_skills candidate_data)
          = with_key percentage_key q
              (map (score_candidate (list_to_set job_skills)) candidate_data))
  ∧ (∀ ranked,
       descending percentage_key ranked →
       (∀ q, with_key percentage_key q ranked
             = with_key percentage_key q
                 (map (score_candidate (list_to_set job_skills)) candidate_data)) →
       ranked = rank_candidates job_skills candidate_data)
  ∧ map (fun c => (name c, Qred (percentage_key c)))
        (map (score_candidate (list_to_set example_job))
             [candidate_A; candidate_B; candidate_C])
    = [("A", 60%Q); ("B", 60%Q); ("C", 80%Q)]
  ∧ map (fun c => (name c, Qred (percentage_key c)))
        (rank_candidates example_job [candidate_A; candidate_B; candidate_C])
    = [("C", 80%Q); ("A", 60%Q); ("B", 60%Q)].
Proof.
  split; [apply sort_reverse_descending|].
  split; [intros q; apply sort_reverse_with_key|].
  split; [|split; vm_compute; reflexivity].
  intros ranked Hd Hq. apply (descending_stable_unique percentage_key); [done| |].
  - apply sort_reverse_descending.
  - intros q. rewrite Hq. symmetry. apply sort_reverse_with_key.
Qed.



(** C8.  Ranking no candidate gives the empty list, whatever the job
    skills; with no job skill every candidate gets [match_score] 0 and
    [match_percentage] 0, and the candidates come out in the order in which
    they were given. *)
Theorem rank_candidates_degenerate :
  (∀ job_skills, rank_candidates job_skills [] = [])
  ∧ (∀ candidate_data,
       rank_candidates [] candidate_data = map (score_candidate ∅) candidate_data
       ∧ map profile (rank_candidates [] candidate_data) = map profile candidate_data
       ∧ Forall (fun c => match_score c = Some 0%nat ∧ match_percentage c = Some 0%Q)
                (rank_candidates [] candidate_data)).
Proof.
  split; [done|]. intros cs.
  assert (E : rank_candidates [] cs = map (score_candidate ∅) cs).
  { unfold rank_candidates. rewrite list_to_set_nil.
    apply (sort_reverse_constant _ 0%Q).
    apply Forall_forall. intros c Hc. apply list_elem_of_In, in_map_iff in Hc as (c0 & <- & _).
    rewrite score_candidate_key. by destruct (decide (∅ = ∅)). }
  rewrite E. split; [done|]. split.
  - rewrite map_map. apply map_ext. intros c. apply score_candidate_profile.
  - apply Forall_forall. intros c Hc. apply list_elem_of_In, in_map_iff in Hc as (c0 & <- & _).
    simpl. split.
    + f_equal. rewrite intersection_empty_l_L. apply size_empty.
    + by destruct (decide (∅ = ∅)).
Qed.

(** C9.  Ranking the result of [rank_candidates] again, with the same job
    skills, gives that result back: the same order, the same [match_score]
    and [match_percentage]. *)
Theorem rank_candidates_idempotent
    (job_skills : list string) (candidate_data : list Candidate) :
  rank_candidates job_skills (rank_candidates job_skills candidate_data)
  = rank_candidates job_skills candidate_data.
Proof.
  unfold rank_candidates at 1.
  rewrite map_fixed.
  - apply sort_reverse_fixed. apply sort_reverse_descending.
  - apply Forall_forall. intros c Hc.
    apply elem_of_rank_candidates in Hc as (c0 & _ & ->).
    apply score_candidate_idem.
Qed.

(** C10.  The result of [rank_candidates] is the given candidates in
    another order, each with its name, skills, experience, education and
    projects as given: only [match_score] and [match_percentage] are set. *)
Theorem rank_candidates_frame
    (job_skills : list string) (candidate_data : list Candidate) :
  (∃ reordered, reordered ≡ₚ candidate_data
     ∧ rank_candidates job_skills candidate_data
       = map (score_candidate (list_to_set job_skills)) reordered)
  ∧ (∀ job_skills_set c,
       name (score_candidate job_skills_set c) = name c
       ∧ skills (score_candidate job_skills_set c) = skills c
       ∧ experience (score_candidate job_skills_set c) = experience c
       ∧ education (score_candidate job_skills_set c) = education c
       ∧ projects (score_candidate job_skills_set c) = projects c)
  ∧ map profile (rank_candidates job_skills candidate_data)
    ≡ₚ map profile candidate_data.
Proof.
  split; [|split; [done|]].
  - pose proof (rank_candidates_perm job_skills candidate_data) as H.
    apply Permutation_map_inv in H as (l & E & H).
    exists l. split; [by symmetry|done].
  - rewrite rank_candidates_perm, map_map.
    erewrite map_ext; [reflexivity|]. intros c. apply score_candidate_profile.
Qed.

(** ** Strings *)

Lemma string_app_nil_l (s : string) : EmptyString +:+ s = s.
Proof. reflexivity. Qed.

Lemma string_app_cons (c : ascii) (s t : string) :
  String c s +:+ t = String c (s +:+ t).
Proof. reflexivity. Qed.

Ltac string_simpl := rewrite ?string_app_cons, ?string_app_nil_l in *.

Lemma string_app_nil_r (s : string) : s +:+ EmptyString = s.
Proof. induction s as [|c s IH]; [done|]. string_simpl. by f_equal. Qed.

Lemma string_app_assoc (s t u : string) : (s +:+ t) +:+ u = s +:+ t +:+ u.
Proof. induction s as [|c s IH]; [done|]. string_simpl. by f_equal. Qed.

Lemma string_app_snoc (s : string) (c : ascii) (t : string) :
  (s +:+ String c EmptyString) +:+ t = s +:+ String c t.
Proof. by rewrite string_app_assoc. Qed.

Lemma all_chars_app (cls : ascii → bool) (s t : string) :
  PyStr.all_chars cls (s +:+ t) = PyStr.all_chars cls s && PyStr.all_chars cls t.
Proof.
  induction s as [|c s IH]; [done|]. string_simpl. simpl. rewrite IH. by rewrite andb_assoc.
Qed.

(** ** The runs of a class *)

Section Runs.
Variable cls : ascii → bool.

Lemma elem_of_emit (w run : string) :
  w ∈ PyStr.emit run ↔ w = run ∧ run ≠ EmptyString.
Proof.
  destruct run as [|c run]; simpl.
  - split; [by intros ?%elem_of_nil|by intros [_ ?]].
  - rewrite list_elem_of_singleton. split; [by intros ->|by intros [-> _]].
Qed.

(** The words of [runs_from run s]: the run being read, carried on to its
    end, or a later run, which follows a character outside the class. *)
Definition run_open (run w s : string) : Prop :=
  ∃ w1 post, s = w1 +:+ post ∧ w = run +:+ w1 ∧ w ≠ EmptyString
             ∧ PyStr.all_chars cls w1 = true ∧ starts_outside cls post.

Definition run_later (w s : string) : Prop :=
  ∃ pre c post, s = pre +:+ String c (w +:+ post) ∧ cls c = false
                ∧ w ≠ EmptyString ∧ PyStr.all_chars cls w = true
                ∧ starts_outside cls post.

Lemma run_open_nil (run w : string) :
  run_open run w EmptyString ↔ w = run ∧ run ≠ EmptyString.
Proof.
  split.
  - intros (w1 & post & Hs & -> & Hne & _ & _).
    destruct w1; [|by string_simpl].
    rewrite !string_app_nil_r in *. by split.
  - intros [-> Hne]. exists EmptyString, EmptyString.
    rewrite !string_app_nil_r. by repeat split.
Qed.

Lemma run_later_nil (w : string) : ¬ run_later w EmptyString.
Proof. intros (pre & c & post & Hs & _). destruct pre; by string_simpl. Qed.

Lemma run_open_inside (run w : string) (c : ascii) (s : string) :
  cls c = true →
  run_open run w (String c s) ↔ run_open (run +:+ String c EmptyString) w s.
Proof.
  intros Hc. split.
  - intros (w1 & post & Hs & -> & Hne & Hall & Hpost).
    destruct w1 as [|d w1]; string_simpl.
    + subst post. simpl in Hpost. congruence.
    + injection Hs as -> ->. simpl in Hall. apply andb_true_iff in Hall as [_ Hall].
      exists w1, post. by rewrite string_app_snoc.
  - intros (w1 & post & -> & -> & Hne & Hall & Hpost).
    exists (String c w1), post. rewrite string_app_snoc in *. simpl.
    by rewrite Hc, Hall.
Qed.

Lemma run_later_inside (w : string) (c : ascii) (s : string) :
  cls c = true → run_later w (String c s) ↔ run_later w s.
Proof.
  intros Hc. split.
  - intros (pre & d & post & Hs & Hd & Hne & Hall & Hpost).
    destruct pre as [|e pre]; string_simpl; injection Hs as -> ->; [congruence|].
    exists pre, d, post. by repeat split.
  - intros (pre & d & post & -> & Hd & Hne & Hall & Hpost).
    exists (String c pre), d, post. by repeat split.
Qed.

Lemma run_open_outside (run w : string) (c : ascii) (s : string) :
  cls c = false →
  run_open run w (String c s) ↔ w = run ∧ run ≠ EmptyString.
Proof.
  intros Hc. split.
  - intros (w1 & post & Hs & -> & Hne & Hall & Hpost).
    destruct w1 as [|d w1]; string_simpl.
    + rewrite !string_app_nil_r in *. by split.
    + injection Hs as -> ->. simpl in Hall.
      apply andb_true_iff in Hall as [? _]. congruence.
  - intros [-> Hne]. exists EmptyString, (String c s).
    rewrite !string_app_nil_r. by repeat split.
Qed.

Lemma run_later_outside (w : string) (c : ascii) (s : string) :
  cls c = false →
  run_later w (String c s) ↔ run_open EmptyString w s ∨ run_later w s.
Proof.
  intros Hc. split.
  - intros (pre & d & post & Hs & Hd & Hne & Hall & Hpost).
    destruct pre as [|e pre]; string_simpl; injection Hs as -> ->.
    + left. exists w, post. by repeat split.
    + right. exists pre, d, post. by repeat split.
  - intros [(w1 & post & -> & -> & Hne & Hall & Hpost)
           |(pre & d & post & -> & Hd & Hne & Hall & Hpost)].
    + exists EmptyString, c, post. by repeat split.
    + exists (String c pre), d, post. by repeat split.
Qed.

Lemma elem_of_runs_from (s run w : string) :
  w ∈ PyStr.runs_from cls run s ↔ run_open run w s ∨ run_later w s.
Proof.
  revert run. induction s as [|c s IH]; intros run; simpl.
  - rewrite elem_of_emit, run_open_nil. pose proof (run_later_nil w). tauto.
  - destruct (cls c) eqn:Hc.
    + by rewrite IH, run_open_inside, run_later_inside.
    + rewrite elem_of_app, elem_of_emit, IH.
      rewrite run_open_outside, run_later_outside by done. tauto.
Qed.

Lemma elem_of_runs (s w : string) : w ∈ PyStr.runs cls s ↔ maximal_run cls w s.
Proof.
  unfold PyStr.runs. rewrite elem_of_runs_from. split.
  - intros [(w1 & post & -> & -> & Hne & Hall & Hpost)
           |(pre & c & post & -> & Hc & Hne & Hall & Hpost)].
    + exists EmptyString, post. repeat split; try done. by left.
    + exists (pre +:+ String c EmptyString), post.
      rewrite string_app_snoc. repeat split; try done. right. exists pre, c. by repeat split.
  - intros (pre & post & -> & Hne & Hall & [->|(pre' & c & -> & Hc)] & Hpost).
    + left. exists w, post. by repeat split.
    + right. exists pre', c, post. by rewrite string_app_snoc.
Qed.

End Runs.

(** ** The character classes *)

Ltac by_cases_on_char c :=
  destruct c as [[] [] [] [] [] [] [] []]; vm_compute; (reflexivity || discriminate).

Lemma is_word_ascii (c : ascii) :
  PyStr.is_ascii c = true → PyStr.is_word c = PyStr.is_ascii_word c.
Proof. by_cases_on_char c. Qed.

Lemma is_word_lower (c : ascii) : PyStr.is_word (PyStr.lower_char c) = PyStr.is_word c.
Proof. by_cases_on_char c. Qed.

Lemma is_ascii_word_lower (c : ascii) :
  PyStr.is_ascii_word (PyStr.lower_char c) = PyStr.is_ascii_word c.
Proof. by_cases_on_char c. Qed.

Lemma is_ascii_lower_char (c : ascii) :
  PyStr.is_ascii (PyStr.lower_char c) = PyStr.is_ascii c.
Proof. by_cases_on_char c. Qed.

Lemma lower_app (s t : string) :
  PyStr.lower (s +:+ t) = PyStr.lower s +:+ PyStr.lower t.
Proof. induction s as [|c s IH]; [done|]. string_simpl. simpl. by rewrite IH. Qed.

Lemma all_ascii_lower (s : string) :
  PyStr.all_chars PyStr.is_ascii (PyStr.lower s) = PyStr.all_chars PyStr.is_ascii s.
Proof.
  induction s as [|c s IH]; [done|]. simpl. by rewrite is_ascii_lower_char, IH.
Qed.

Lemma runs_from_agree (cls1 cls2 : ascii → bool) (s run : string) :
  (∀ c, PyStr.is_ascii c = true → cls1 c = cls2 c) →
  PyStr.all_chars PyStr.is_ascii s = true →
  PyStr.runs_from cls1 run s = PyStr.runs_from cls2 run s.
Proof.
  intros Hcls. revert run. induction s as [|c s IH]; intros run Hs; [done|].
  simpl in *. apply andb_true_iff in Hs as [Hc Hs].
  rewrite (Hcls c Hc). destruct (cls2 c); by rewrite IH.
Qed.

Lemma lower_emit (run : string) :
  map PyStr.lower (PyStr.emit run) = PyStr.emit (PyStr.lower run).
Proof. by destruct run. Qed.

Lemma lower_runs_from (cls : ascii → bool) (s run : string) :
  (∀ c, cls (PyStr.lower_char c) = cls c) →
  map PyStr.lower (PyStr.runs_from cls run s)
  = PyStr.runs_from cls (PyStr.lower run) (PyStr.lower s).
Proof.
  intros Hcls. revert run. induction s as [|c s IH]; intros run; simpl.
  - apply lower_emit.
  - rewrite Hcls. destruct (cls c).
    + by rewrite IH, lower_app.
    + by rewrite map_app, lower_emit, IH.
Qed.

Lemma word_tokens_ascii (s : string) :
  PyStr.all_chars PyStr.is_ascii s = true → word_tokens s = ascii_tokens s.
Proof.
  intros Hs. unfold word_tokens, ascii_tokens, PyStr.findall_word, PyStr.runs.
  f_equal. rewrite (lower_runs_from _ _ _ is_ascii_word_lower). simpl.
  apply runs_from_agree; [apply is_word_ascii|by rewrite all_ascii_lower].
Qed.

(** ** The lexical scorer *)

Lemma calculate_score_eq (resume jd : string) :
  (calculate_score resume jd
   == overlap_percentage (word_tokens resume) (word_tokens jd))%Q.
Proof.
  unfold calculate_score, overlap_percentage. fold (word_tokens resume) (word_tokens jd).
  destruct (decide (word_tokens jd = ∅)) as [E|E]; [reflexivity|].
  simpl. unfold len_Q. field.
  intros H. unfold Qeq in H. simpl in H.
  apply size_pos_nonempty in E. lia.
Qed.

(** In exact arithmetic [calculate_score] puts both texts in lower case,
    takes as tokens the maximal runs of the word characters of [re] (the
    alphanumeric characters, among them letters and digits outside ASCII,
    and the underscore), returns 0 when the job description has no token
    and 100 * |resume tokens ∩ jd tokens| / |jd tokens| otherwise; on texts
    of ASCII characters the tokens are the runs of [[A-Za-z0-9_]].  The
    score that is returned is that of [Runtime.calculate_score]. *)
Lemma calculate_score_word_overlap (resume jd : string) :
  (∀ s w, w ∈ PyStr.findall_word s ↔ maximal_run PyStr.is_word w s)
  ∧ (calculate_score resume jd
     == overlap_percentage (word_tokens resume) (word_tokens jd))%Q
  ∧ (word_tokens jd = ∅ → calculate_score resume jd = 0%Q)
  ∧ (PyStr.all_chars PyStr.is_ascii resume = true →
     PyStr.all_chars PyStr.is_ascii jd = true →
     (calculate_score resume jd
      == overlap_percentage (ascii_tokens resume) (ascii_tokens jd))%Q).
Proof.
  split; [intros s w; apply elem_of_runs|].
  split; [apply calculate_score_eq|]. split.
  - intros E. unfold calculate_score. fold (word_tokens jd).
    by destruct (decide (word_tokens jd = ∅)).
  - intros Hr Hj. rewrite calculate_score_eq.
    by rewrite (word_tokens_ascii _ Hr), (word_tokens_ascii _ Hj).
Qed.

Example calculate_score_spec_example :
  Qred (calculate_score "Python and SQL experience"
                        "Looking for Python and Java skills") = (100 # 3)%Q.
Proof. vm_compute. reflexivity. Qed.

(** ** The phrase matcher *)

Lemma pattern_at_true (doc : Doc) (start : nat) (pat : Doc) :
  pattern_at doc start pat = true
  ↔ pat ≠ [] ∧ orths (take (length pat) (drop start doc)) = orths pat.
Proof.
  unfold pattern_at. rewrite andb_true_iff, !bool_decide_eq_true. done.
Qed.

Lemma elem_of_phrase_matcher (patterns : list Doc) (doc : Doc) (start end_ : nat) :
  (start, end_) ∈ phrase_matcher patterns doc
  ↔ ∃ pat, pat ∈ patterns ∧ (start < end_ ≤ length doc)%nat
           ∧ orths (slice start end_ doc) = orths pat.
Proof.
  unfold phrase_matcher, slice.
  rewrite list_elem_of_In, in_flat_map. split.
  - intros (st & Hst & H). apply in_seq in Hst.
    apply in_flat_map in H as (pat & Hpat & H).
    destruct (pattern_at doc st pat) eqn:E; [|by destruct H].
    destruct H as [[= -> <-]|[]].
    apply pattern_at_true in E as [Hne E].
    exists pat. rewrite list_elem_of_In. split; [done|].
    assert (Hlen : length (take (length pat) (drop start doc)) = length pat).
    { apply (f_equal length) in E. unfold orths in E. by rewrite !length_map in E. }
    rewrite length_take, length_drop in Hlen.
    replace (start + length pat - start)%nat with (length pat) by lia.
    split; [|done].
    assert (0 < length pat)%nat by (destruct pat; [done|simpl; lia]). lia.
  - intros (pat & Hpat & [Hlt Hle] & E).
    assert (Hlen : (end_ - start)%nat = length pat).
    { apply (f_equal length) in E. unfold orths in E.
      rewrite !length_map, length_take, length_drop in E. lia. }
    exists start. split; [apply in_seq; lia|].
    apply in_flat_map. exists pat. rewrite <- list_elem_of_In. split; [done|].
    rewrite Hlen in E.
    assert (Ht : pattern_at doc start pat = true).
    { apply pattern_at_true. split; [|done]. intros ->. simpl in Hlen. lia. }
    rewrite Ht. left. f_equal. lia.
Qed.

(** C1, as the code has it.  The matcher compares the verbatim text of the
    tokens: a string is reported exactly when it is the title-cased text of
    a run of consecutive tokens of the text that carries, token by token,
    the very text of the tokens of a vocabulary phrase; no string is
    reported twice.  With the vocabulary {"Python"}, "I use Python daily"
    gives {"Python"} and "I use PYTHON daily" gives nothing. *)
Theorem refined_extract_skills_verbatim_tokens
    (make_doc : string → Doc) (title : string → string)
    (text : string) (vocabulary : list string) :
  (∀ s, s ∈ refined_extract_skills make_doc title text (map make_doc vocabulary)
        ↔ ∃ phrase start end_,
            phrase ∈ vocabulary
            ∧ (start < end_ ≤ length (make_doc text))%nat
            ∧ orths (slice start end_ (make_doc text)) = orths (make_doc phrase)
            ∧ s = title (span_text (make_doc text) start end_))
  ∧ NoDup (refined_extract_skills make_doc title text (map make_doc vocabulary))
  ∧ match_skills "I use Python daily" ["Python"] = ["Python"]
  ∧ match_skills "I use PYTHON daily" ["Python"] = [].
Proof.
  split; [|split; [apply NoDup_elements|split; vm_compute; reflexivity]].
  intros s. unfold refined_extract_skills.
  rewrite elem_of_elements, elem_of_list_to_set, list_elem_of_In, in_map_iff.
  split.
  - intros ([st en] & <- & Hm). simpl.
    apply list_elem_of_In, elem_of_phrase_matcher in Hm as (pat & Hpat & Hr & E).
    apply list_elem_of_In, in_map_iff in Hpat as (phrase & <- & Hp).
    exists phrase, st, en. by rewrite list_elem_of_In.
  - intros (phrase & st & en & Hp & Hr & E & ->).
    exists (st, en). split; [done|].
    apply list_elem_of_In, elem_of_phrase_matcher.
    exists (make_doc phrase). split; [|done].
    apply list_elem_of_In, in_map. by apply list_elem_of_In.
Qed.

(** C1, as the specification words it, fails: matching "I use PYTHON daily"
    against the vocabulary {"Python"} does not give {"Python"}. *)
Lemma match_skills_is_case_sensitive :
  match_skills "I use PYTHON daily" ["Python"] ≠ ["Python"].
Proof. vm_compute. discriminate. Qed.

(** ** The sentinels *)

Lemma filter_none {A} (P : A → Prop) `{!∀ x, Decision (P x)} (l : list A) :
  (∀ x, x ∈ l → ¬ P x) → filter P l = [].
Proof.
  induction l as [|x l IH]; intros Hnone; [done|].
  rewrite filter_cons_False by (apply Hnone; left).
  apply IH. intros y Hy. apply Hnone. by right.
Qed.

(** The sentinels of the calls that return.  With a tokenizer that finds no
    token in the empty text and a recognizer that finds no entity among no
    tokens, the profile of the empty text has no skill, and its experience,
    education and projects are each the one sentinel; and for every text, a
    field for which nothing qualifies is its one sentinel.  The calls that
    raise are those of [Runtime]. *)
Lemma extraction_falls_back_to_sentinels
    (make_doc : string → Doc) (ner : Doc → list Span) (title : string → string) :
  make_doc "" = [] →
  ner [] = [] →
  (∀ file_name,
     candidate_details make_doc ner title file_name ""
     = {| name := file_name;
          skills := [];
          experience := ["Could not automatically extract experience."];
          education := ["Could not automatically extract education."];
          projects := ["No projects section found."];
          match_score := None;
          match_percentage := None |})
  ∧ (∀ text,
       (∀ ent, ent ∈ ents make_doc ner text → label_ ent ≠ "ORG") →
       detailed_extract_experience make_doc ner text
       = ["Could not automatically extract experience."])
  ∧ (∀ text,
       (∀ ent, ent ∈ ents make_doc ner text →
               is_education (make_doc text) ent = false) →
       detailed_extract_education make_doc ner text
       = ["Could not automatically extract education."])
  ∧ (∀ text,
       ProjectsRegex.findall text = [] →
       detailed_extract_projects text = ["No projects section found."]).
Proof.
  intros Hdoc Hner.
  assert (Hexp : ∀ text,
    (∀ ent, ent ∈ ents make_doc ner text → label_ ent ≠ "ORG") →
    detailed_extract_experience make_doc ner text
    = ["Could not automatically extract experience."]).
  { intros text H. unfold detailed_extract_experience.
    replace (filter _ (ents make_doc ner text)) with (@nil Span); [done|].
    symmetry. apply filter_none. intros ent Hent. by apply H. }
  assert (Hedu : ∀ text,
    (∀ ent, ent ∈ ents make_doc ner text →
            is_education (make_doc text) ent = false) →
    detailed_extract_education make_doc ner text
    = ["Could not automatically extract education."]).
  { intros text H. unfold detailed_extract_education.
    replace (filter _ (ents make_doc ner text)) with (@nil Span); [done|].
    symmetry. apply filter_none. intros ent Hent.
    by rewrite (H ent Hent). }
  assert (Hents : ents make_doc ner "" = []) by (unfold ents; by rewrite Hdoc).
  split; [|split; [done|split; [done|]]].
  - intros file_name. unfold candidate_details.
    rewrite Hexp, Hedu; try (intros ent; rewrite Hents; by intros ?%elem_of_nil).
    unfold refined_extract_skills, phrase_matcher. rewrite Hdoc. simpl.
    by rewrite elements_empty.
  - intros text H. unfold detailed_extract_projects. by rewrite H.
Qed.

Example extraction_example :
  detailed_extract_experience SimpleNLP.words_doc SimpleNLP.capitalised_after_at
    "I worked at Google and studied at Stanford University"
  = ["Worked at: Google"; "Worked at: Stanford"]
  ∧ detailed_extract_education SimpleNLP.words_doc SimpleNLP.capitalised_after_at
      "I worked at Google and studied at University"
    = ["Studied at: University"].
Proof. split; vm_compute; reflexivity. Qed.

(** ** The combinators of the projects pattern *)

Section CombinatorFacts.
Context {R : Type}.
Implicit Types (k : string → option R) (r : R) (s t w : string).

Lemma lower_nil_inv (h : string) : PyStr.lower h = EmptyString → h = EmptyString.
Proof. by destruct h. Qed.

Lemma lit_spec (l : string) k s r :
  ProjectsRegex.lit l k s = Some r
  ↔ ∃ h rest, s = h +:+ rest ∧ spells l h ∧ k rest = Some r.
Proof.
  unfold spells. revert s. induction l as [|a l IH]; intros s; simpl.
  - split.
    + intros H. by exists EmptyString, s.
    + intros (h & rest & -> & Hh & H). by apply lower_nil_inv in Hh as ->.
  - destruct s as [|c s].
    + split; [done|]. intros (h & rest & Hs & Hh & _).
      destruct h; [done|by string_simpl].
    + destruct (Ascii.eqb_spec (PyStr.lower_char c) (PyStr.lower_char a)) as [E|E].
      * rewrite IH. split.
        -- intros (h & rest & -> & Hh & H). exists (String c h), rest.
           simpl. by rewrite E, Hh.
        -- intros (h & rest & Hs & Hh & H).
           destruct h as [|d h]; [done|]. string_simpl.
           injection Hs as -> ->. simpl in Hh. injection Hh as _ Hh.
           by exists h, rest.
      * split; [done|]. intros (h & rest & Hs & Hh & _).
        destruct h as [|d h]; [done|]. string_simpl.
        injection Hs as -> ->. simpl in Hh. by injection Hh as ? _.
Qed.

(** The second letter tells the words of a list apart. *)
Definition second (s : string) : option ascii :=
  match s with
  | String _ (String b _) => Some (PyStr.lower_char b)
  | _ => None
  end.

Lemma lit_second (l : string) k s r :
  ProjectsRegex.lit l k s = Some r → is_Some (second l) → second s = second l.
Proof.
  intros H [b Hb]. destruct l as [|a1 [|a2 l]]; try done.
  simpl in H. destruct s as [|c1 [|c2 s]]; try done.
  - by destruct (Ascii.eqb _ _).
  - destruct (Ascii.eqb _ _); [|done].
    destruct (Ascii.eqb_spec (PyStr.lower_char c2) (PyStr.lower_char a2))
      as [E|E]; [|done].
    simpl. by rewrite E.
Qed.

Lemma alt_spec (ls : list string) k s r :
  Forall (fun l => is_Some (second l)) ls →
  NoDup (map second ls) →
  ProjectsRegex.alt ls k s = Some r ↔ ∃ l, l ∈ ls ∧ ProjectsRegex.lit l k s = Some r.
Proof.
  induction ls as [|l ls IH]; intros Hsome Hnd; simpl.
  - split; [done|]. by intros (l & ?%elem_of_nil & _).
  - apply Forall_cons_1 in Hsome as [Hl Hsome].
    apply NoDup_cons in Hnd as [Hnotin Hnd].
    destruct (ProjectsRegex.lit l k s) as [r'|] eqn:E.
    + split.
      * intros [= ->]. exists l. split; [left|done].
      * intros (l0 & Hin & H0). apply elem_of_cons in Hin as [->|Hin]; [congruence|].
        exfalso. apply Hnotin.
        rewrite <- (lit_second _ _ _ _ E Hl).
        rewrite Forall_forall in Hsome.
        rewrite (lit_second _ _ _ _ H0 (Hsome _ Hin)).
        apply list_elem_of_In, in_map. by apply list_elem_of_In.
    + rewrite (IH Hsome Hnd). split.
      * intros (l0 & Hin & H0). exists l0. split; [by right|done].
      * intros (l0 & Hin & H0). apply elem_of_cons in Hin as [->|Hin]; [congruence|].
        by exists l0.
Qed.

Lemma newline_spec k s r :
  ProjectsRegex.newline k s = Some r ↔ ∃ rest, s = String PyStr.LF rest ∧ k rest = Some r.
Proof.
  unfold ProjectsRegex.newline. destruct s as [|c s].
  - split; [done|]. by intros (rest & ? & _).
  - destruct (Ascii.eqb_spec c PyStr.LF) as [->|E].
    + split; [by exists s|]. by intros (rest & [= ->] & ?).
    + split; [done|]. intros (rest & [= -> ->] & _). done.
Qed.

Lemma spaces_none k s :
  ProjectsRegex.spaces k s = None
  ↔ ∀ w rest, s = w +:+ rest → blank w → k rest = None.
Proof.
  unfold blank. induction s as [|c s IH]; simpl.
  - split.
    + intros H w rest Hs _. destruct w; [|done]. by string_simpl; subst.
    + intros H. by apply (H EmptyString EmptyString).
  - destruct (PyStr.isspace c) eqn:Hc.
    + destruct (ProjectsRegex.spaces k s) as [r|] eqn:E.
      * split; [done|]. intros H. destruct IH as [_ IH].
        assert (Some r = None) as E'; [|done].
        apply IH. intros w rest -> Hw.
        apply (H (String c w) rest); [done|]. simpl. by rewrite Hc.
      * split.
        -- intros H w rest Hs Hw. destruct w as [|d w]; string_simpl.
           ++ by subst.
           ++ injection Hs as -> ->. simpl in Hw.
              apply andb_true_iff in Hw as [_ Hw].
              destruct IH as [IH _]. by apply (IH eq_refl w rest).
        -- intros H. by apply (H EmptyString (String c s)).
    + split.
      * intros H w rest Hs Hw. destruct w as [|d w]; string_simpl.
        -- by subst.
        -- injection Hs as -> ->. simpl in Hw. by rewrite Hc in Hw.
      * intros H. by apply (H EmptyString (String c s)).
Qed.

Lemma spaces_spec k s r :
  ProjectsRegex.spaces k s = Some r
  ↔ ∃ w rest, s = w +:+ rest ∧ blank w ∧ k rest = Some r
      ∧ ∀ w' rest', s = w' +:+ rest' → blank w' →
                    (String.length w < String.length w')%nat → k rest' = None.
Proof.
  unfold blank. revert r. induction s as [|c s IH]; intros r; simpl.
  - split.
    + intros H. exists EmptyString, EmptyString. repeat split; try done.
      intros w' rest' Hs _ Hlen. destruct w'; [simpl in Hlen; lia|done].
    + intros (w & rest & Hs & _ & H & _). destruct w; [|done].
      by string_simpl; subst.
  - destruct (PyStr.isspace c) eqn:Hc.
    + destruct (ProjectsRegex.spaces k s) as [r'|] eqn:E.
      * split.
        -- intros [= ->]. destruct (IH r) as [IH1 _].
           destruct (IH1 eq_refl) as (w & rest & -> & Hw & Hk & Hmax).
           exists (String c w), rest. simpl. rewrite Hc, Hw.
           repeat split; try done.
           intros w' rest' Hs Hw' Hlen.
           destruct w' as [|d w']; [simpl in Hlen; lia|]. string_simpl.
           injection Hs as -> Hs. simpl in Hw', Hlen.
           apply andb_true_iff in Hw' as [_ Hw'].
           apply (Hmax w' rest'); [done|done|lia].
        -- intros (w & rest & Hs & Hw & Hk & Hmax).
           destruct w as [|d w]; string_simpl.
           ++ subst rest. destruct (IH r') as [IH1 _].
              destruct (IH1 eq_refl) as (w1 & rest1 & -> & Hw1 & Hk1 & _).
              rewrite (Hmax (String c w1) rest1) in Hk1; [done|done| |simpl; lia].
              simpl. by rewrite Hc.
           ++ injection Hs as -> ->. simpl in Hw.
              apply andb_true_iff in Hw as [_ Hw].
              apply IH. exists w, rest.
              repeat split; try done.
              intros w' rest' Hs Hw' Hlen.
              apply (Hmax (String d w') rest'); [|simpl; by rewrite Hc|simpl; lia].
              string_simpl. by rewrite Hs.
      * split.
        -- intros H. exists EmptyString, (String c s). repeat split; try done.
           intros w' rest' Hs Hw' Hlen.
           destruct w' as [|d w']; [simpl in Hlen; lia|]. string_simpl.
           injection Hs as -> ->. simpl in Hw'.
           apply andb_true_iff in Hw' as [_ Hw'].
           destruct (spaces_none k (w' +:+ rest')) as [Hn _].
           by apply (Hn E w' rest').
        -- intros (w & rest & Hs & Hw & Hk & Hmax).
           destruct w as [|d w]; string_simpl; [by subst|].
           injection Hs as -> ->. simpl in Hw.
           apply andb_true_iff in Hw as [_ Hw].
           destruct (spaces_none k (w +:+ rest)) as [Hn _].
           rewrite (Hn E w rest) in Hk; done.
    + split.
      * intros H. exists EmptyString, (String c s). repeat split; try done.
        intros w' rest' Hs Hw' Hlen.
        destruct w' as [|d w']; [simpl in Hlen; lia|]. string_simpl.
        injection Hs as -> ->. simpl in Hw'. by rewrite Hc in Hw'.
      * intros (w & rest & Hs & Hw & Hk & Hmax).
        destruct w as [|d w]; string_simpl; [by subst|].
        injection Hs as -> ->. simpl in Hw. by rewrite Hc in Hw.
Qed.

End CombinatorFacts.

Section LazyFacts.
Context {R : Type}.
Implicit Types (r : R) (s t w : string).

Lemma lazy_any_spec (k : string → string → option R) (cap s : string) r :
  ProjectsRegex.lazy_any k cap s = Some r
  ↔ ∃ c1 rest, s = c1 +:+ rest ∧ k (cap +:+ c1) rest = Some r
      ∧ ∀ c0 rest0, s = c0 +:+ rest0 →
                    (String.length c0 < String.length c1)%nat →
                    k (cap +:+ c0) rest0 = None.
Proof.
  revert cap. induction s as [|c s IH]; intros cap; simpl.
  - split.
    + intros H. exists EmptyString, EmptyString. rewrite !string_app_nil_r.
      split; [done|]. split; [by destruct (k cap EmptyString)|].
      intros c0 rest0 _ Hlen. simpl in Hlen. lia.
    + intros (c1 & rest & Hs & Hk & _). destruct c1; [|done].
      string_simpl. subst rest. rewrite !string_app_nil_r in Hk. by rewrite Hk.
  - destruct (k cap (String c s)) as [r'|] eqn:E.
    + split.
      * intros [= ->]. exists EmptyString, (String c s). rewrite !string_app_nil_r.
        repeat split; try done. intros c0 rest0 _ Hlen. simpl in Hlen. lia.
      * intros (c1 & rest & Hs & Hk & Hmin). destruct c1 as [|d c1]; string_simpl.
        -- subst rest. rewrite !string_app_nil_r in Hk. congruence.
        -- specialize (Hmin EmptyString (String c s) eq_refl).
           rewrite !string_app_nil_r in Hmin. rewrite Hmin in E; [done|simpl; lia].
    + rewrite IH. split.
      * intros (c1 & rest & -> & Hk & Hmin). exists (String c c1), rest.
        rewrite string_app_snoc in Hk. repeat split; try done.
        intros c0 rest0 Hs Hlen. destruct c0 as [|d c0]; string_simpl.
        -- subst rest0. by rewrite !string_app_nil_r.
        -- injection Hs as -> Hs. rewrite <- string_app_snoc.
           apply Hmin; [done|simpl in Hlen; lia].
      * intros (c1 & rest & Hs & Hk & Hmin). destruct c1 as [|d c1]; string_simpl.
        -- subst rest. rewrite !string_app_nil_r in Hk. congruence.
        -- injection Hs as -> ->. exists c1, rest.
           rewrite string_app_snoc. repeat split; try done.
           intros c0 rest0 Hs Hlen. rewrite string_app_snoc.
           apply Hmin; [string_simpl; by rewrite Hs|simpl; lia].
Qed.

End LazyFacts.

(** ** White space and words *)

Lemma isspace_lower_char (c : ascii) :
  PyStr.isspace (PyStr.lower_char c) = PyStr.isspace c.
Proof. by_cases_on_char c. Qed.

Lemma blank_app (w1 w2 : string) : blank (w1 +:+ w2) ↔ blank w1 ∧ blank w2.
Proof. unfold blank. by rewrite all_chars_app, andb_true_iff. Qed.

Lemma string_length_app (s t : string) :
  String.length (s +:+ t) = (String.length s + String.length t)%nat.
Proof. induction s as [|c s IH]; [done|]. string_simpl. simpl. by rewrite IH. Qed.

(** Two ways to cut one string: the longer head holds the shorter one. *)
Lemma string_app_eq_longer (w x w' y : string) :
  w +:+ x = w' +:+ y → (String.length w < String.length w')%nat →
  ∃ m, m ≠ EmptyString ∧ w' = w +:+ m ∧ x = m +:+ y.
Proof.
  revert w'. induction w as [|c w IH]; intros w' Hs Hlen.
  - string_simpl. exists w'. split; [|done]. intros ->. simpl in Hlen. lia.
  - destruct w' as [|d w']; [simpl in Hlen; lia|]. string_simpl.
    injection Hs as -> Hs. simpl in Hlen.
    destruct (IH w' Hs) as (m & Hm & -> & ->); [lia|]. by exists m.
Qed.

Lemma blank_before_letter (w x w' y : string) (c : ascii) :
  w +:+ String c x = w' +:+ y → PyStr.isspace c = false → blank w' →
  (String.length w' ≤ String.length w)%nat.
Proof.
  intros Hs Hc Hw'.
  destruct (decide (String.length w < String.length w')%nat) as [Hlt|]; [|lia].
  destruct (string_app_eq_longer _ _ _ _ Hs Hlt) as (m & Hm & -> & Hx).
  apply blank_app in Hw' as [_ Hm'].
  destruct m as [|d m]; [done|]. string_simpl. injection Hx as -> _.
  unfold blank in Hm'. simpl in Hm'. by rewrite Hc in Hm'.
Qed.

Lemma headers_second :
  Forall (fun l => is_Some (second l)) ProjectsRegex.headers
  ∧ NoDup (map second ProjectsRegex.headers).
Proof.
  split; [repeat constructor; by eexists|].
  by apply (bool_decide_unpack _).
Qed.

Lemma stops_second :
  Forall (fun l => is_Some (second l)) ProjectsRegex.stops
  ∧ NoDup (map second ProjectsRegex.stops).
Proof.
  split; [repeat constructor; by eexists|].
  by apply (bool_decide_unpack _).
Qed.

Lemma stop_word_starts_with_letter (kw : string) :
  one_of ProjectsRegex.stops kw →
  ∃ c kw', kw = String c kw' ∧ PyStr.isspace c = false.
Proof.
  intros (l & Hl & Hs). unfold spells in Hs.
  destruct kw as [|c kw].
  - exfalso. unfold ProjectsRegex.stops in Hl.
    repeat (apply elem_of_cons in Hl as [->|Hl]; [done|]). by apply elem_of_nil in Hl.
  - exists c, kw. split; [done|].
    rewrite <- isspace_lower_char. simpl in Hs.
    unfold ProjectsRegex.stops in Hl.
    repeat (apply elem_of_cons in Hl as [->|Hl];
            [by injection Hs as -> _|]).
    by apply elem_of_nil in Hl.
Qed.

(** ** The end of a block *)

Section TerminatorFacts.
Context {R : Type}.
Variable k : string → option R.

Definition stop_alt : string → option R :=
  ProjectsRegex.newline
    (ProjectsRegex.newline
       (ProjectsRegex.spaces (ProjectsRegex.alt ProjectsRegex.stops k))).

Lemma stop_alt_spec (t : string) (r : R) :
  stop_alt t = Some r ↔ ∃ rest, stop_word_at t rest ∧ k rest = Some r.
Proof.
  unfold stop_alt, stop_word_at.
  destruct stops_second as [Hsome Hnd].
  rewrite newline_spec. setoid_rewrite newline_spec.
  setoid_rewrite spaces_spec. setoid_rewrite (alt_spec _ _ _ _ Hsome Hnd).
  setoid_rewrite lit_spec. split.
  - intros (t1 & -> & t2 & -> & w & t3 & -> & Hw & (l & Hl & kw & rest & -> & Hsp & Hk) & _).
    exists rest. split; [|done]. exists w, kw. split; [done|]. split; [done|].
    by exists l.
  - intros (rest & (w & kw & -> & Hw & l & Hl & Hsp) & Hk).
    eexists. split; [done|]. eexists. split; [done|].
    exists w, (kw +:+ rest). split; [done|]. split; [done|]. split.
    + exists l. split; [done|]. by exists kw, rest.
    + intros w' rest' Hs Hw' Hlen. exfalso.
      destruct (stop_word_starts_with_letter kw) as (c & kw' & -> & Hc);
        [by exists l|].
      string_simpl.
      pose proof (blank_before_letter _ _ _ _ _ Hs Hc Hw'). lia.
Qed.

Lemma stop_alt_short (t : string) :
  t = EmptyString ∨ t = String PyStr.LF EmptyString → stop_alt t = None.
Proof. by intros [->| ->]. Qed.

Lemma at_end_true (t : string) :
  ProjectsRegex.at_end t = true ↔ t = EmptyString ∨ t = String PyStr.LF EmptyString.
Proof.
  destruct t as [|c [|d t]]; simpl.
  - split; [by left|done].
  - destruct (Ascii.eqb_spec c PyStr.LF) as [->|E].
    + split; [by right|done].
    + split; [done|]. by intros [|[= ->]].
  - split; [done|]. by intros [|].
Qed.

Lemma terminator_spec (t : string) (r : R) :
  ProjectsRegex.terminator k t = Some r ↔ ∃ rest, stop_at t rest ∧ k rest = Some r.
Proof.
  unfold ProjectsRegex.terminator, ProjectsRegex.or_else, ProjectsRegex.dollar.
  fold stop_alt. unfold stop_at.
  destruct (stop_alt t) as [r'|] eqn:E.
  - apply stop_alt_spec in E as (rest' & Hstop & Hk). split.
    + intros [= ->]. exists rest'. split; [by left|done].
    + intros (rest & [Hw|[<- Hend]] & Hr).
      * f_equal. assert (E : stop_alt t = Some r)
          by (apply stop_alt_spec; by exists rest).
        assert (E' : stop_alt t = Some r')
          by (apply stop_alt_spec; by exists rest').
        congruence.
      * assert (E : stop_alt t = Some r')
          by (apply stop_alt_spec; by exists rest').
        by rewrite stop_alt_short in E.
  - split.
    + destruct (ProjectsRegex.at_end t) eqn:Hend; [|done].
      intros Hk. exists t. split; [|done]. right. split; [done|].
      by apply at_end_true.
    + intros (rest & [Hw|[<- Hend]] & Hr).
      * assert (E' : stop_alt t = Some r)
          by (apply stop_alt_spec; by exists rest).
        congruence.
      * apply at_end_true in Hend. by rewrite Hend.
Qed.

End TerminatorFacts.

(** ** One match of the pattern *)

(** What follows the header and its line break in the pattern: the lazy
    group and the end of the block. *)
Definition capture (cap s : string) : option (string * string) :=
  ProjectsRegex.lazy_any
    (fun cap => ProjectsRegex.terminator (fun rest => Some (cap, rest))) cap s.

(** The end of the text ends a block, so the lazy group always stops. *)
Lemma capture_total (s cap : string) : is_Some (capture cap s).
Proof.
  unfold capture. revert cap. induction s as [|c s IH]; intros cap; simpl.
  - by eexists.
  - destruct (ProjectsRegex.terminator _ _); [by eexists|]. apply IH.
Qed.

Lemma capture_spec (body cap rest : string) :
  capture EmptyString body = Some (cap, rest) ↔ block_of body cap rest.
Proof.
  unfold capture, block_of. rewrite lazy_any_spec. split.
  - intros (c1 & t & -> & Hk & Hmin). string_simpl.
    apply terminator_spec in Hk as (rest0 & Hstop & [= -> ->]).
    exists t. split; [done|]. split; [done|].
    intros cap' t' Hs Hlen (rest' & Hstop').
    specialize (Hmin cap' t' Hs Hlen). string_simpl.
    assert (ProjectsRegex.terminator (fun rest => Some (cap', rest)) t'
            = Some (cap', rest')) as E
      by (apply terminator_spec; by exists rest').
    congruence.
  - intros (t & -> & Hstop & Hmin). exists cap, t. string_simpl.
    split; [done|]. split; [apply terminator_spec; by exists rest|].
    intros c0 rest0 Hs Hlen. string_simpl.
    destruct (ProjectsRegex.terminator _ rest0) as [[c r]|] eqn:E; [|done].
    apply terminator_spec in E as (rest' & Hstop' & _).
    exfalso. apply (Hmin c0 rest0 Hs Hlen). by exists rest'.
Qed.

Lemma LF_blank : PyStr.isspace PyStr.LF = true.
Proof. reflexivity. Qed.

Lemma match_here_spec (s cap rest : string) :
  ProjectsRegex.match_here s = Some (cap, rest) ↔ match_at s cap rest.
Proof.
  unfold ProjectsRegex.match_here, match_at, header_at. fold (capture EmptyString).
  destruct headers_second as [Hsome Hnd].
  rewrite (alt_spec _ _ _ _ Hsome Hnd). setoid_rewrite lit_spec.
  setoid_rewrite spaces_spec. setoid_rewrite newline_spec. split.
  - intros (l & Hl & h & s1 & -> & Hsp & w & s2 & -> & Hw
              & (body & -> & Hcap) & Hmax).
    exists body. split; [|by apply capture_spec].
    exists h, w. split; [done|]. split; [by exists l|]. split; [done|].
    intros (w' & body' & -> & Hw').
    destruct (capture_total body' EmptyString) as [r Hr].
    specialize (Hmax (w +:+ String PyStr.LF w') (String PyStr.LF body')).
    rewrite string_app_assoc in Hmax. string_simpl.
    assert (ProjectsRegex.newline (capture EmptyString) (String PyStr.LF body') = None)
      as E.
    { apply Hmax; [done| |].
      - apply blank_app. split; [done|]. unfold blank in *. simpl. by rewrite Hw'.
      - rewrite string_length_app. simpl. lia. }
    simpl in E. congruence.
  - intros (body & (h & w & -> & (l & Hl & Hsp) & Hw & Hlast) & Hcap).
    exists l. split; [done|]. exists h, (w +:+ String PyStr.LF body).
    split; [done|]. split; [done|].
    exists w, (String PyStr.LF body). split; [done|]. split; [done|]. split.
    + exists body. split; [done|]. by apply capture_spec.
    + intros w' rest' Hs Hw' Hlen.
      destruct (ProjectsRegex.newline (capture EmptyString) rest') as [r|] eqn:E;
        [|done].
      exfalso. apply newline_spec in E as (body' & -> & _).
      destruct (string_app_eq_longer _ _ _ _ Hs Hlen) as (m & Hm & -> & Hx).
      apply blank_app in Hw' as [_ Hm'].
      destruct m as [|d m]; [done|]. string_simpl. injection Hx as <- ->.
      apply Hlast. exists m, body'. split; [done|].
      unfold blank in *. by simpl in Hm'.
Qed.

Lemma match_here_none (s : string) :
  ProjectsRegex.match_here s = None ↔ ∀ cap rest, ¬ match_at s cap rest.
Proof.
  split.
  - intros E cap rest H. apply match_here_spec in H. congruence.
  - intros H. destruct (ProjectsRegex.match_here s) as [[cap rest]|] eqn:E; [|done].
    apply match_here_spec in E. by apply H in E.
Qed.

Ltac string_norm :=
  repeat (rewrite string_app_assoc || rewrite string_app_cons
          || rewrite string_app_nil_l).

(** A match takes at least its header, and [rest] is the end of [s]. *)
Lemma match_at_suffix (s cap rest : string) :
  match_at s cap rest → ∃ m, m ≠ EmptyString ∧ s = m +:+ rest.
Proof.
  intros (body & (h & w & -> & (l & Hl & Hsp) & _ & _) & (t & -> & Hstop & _)).
  assert (Hh : h ≠ EmptyString).
  { intros ->. unfold spells in Hsp. simpl in Hsp.
    unfold ProjectsRegex.headers in Hl.
    repeat (apply elem_of_cons in Hl as [->|Hl]; [done|]). by apply elem_of_nil in Hl. }
  destruct Hstop as [(w2 & kw & -> & _ & _)|[<- _]].
  - exists (h +:+ w +:+ String PyStr.LF (cap +:+ String PyStr.LF (String PyStr.LF (w2 +:+ kw)))).
    split; [by destruct h|]. by string_norm.
  - exists (h +:+ w +:+ String PyStr.LF cap).
    split; [by destruct h|]. by string_norm.
Qed.

(** ** All the matches *)

Lemma findall_from_skip (pre t : string) :
  ProjectsRegex.findall_from (String.length pre) (pre +:+ t)
  = ProjectsRegex.findall_from 0 t.
Proof. induction pre as [|c pre IH]; [done|]. string_simpl. simpl. apply IH. Qed.

Lemma findall_match (s cap rest : string) :
  ProjectsRegex.match_here s = Some (cap, rest) →
  ProjectsRegex.findall s = cap :: ProjectsRegex.findall rest.
Proof.
  intros E. pose proof E as H. apply match_here_spec, match_at_suffix in H.
  destruct H as (m & Hm & ->). destruct m as [|c m]; [done|].
  unfold ProjectsRegex.findall. string_simpl.
  change (ProjectsRegex.findall_from 0 (String c (m +:+ rest)))
    with (match ProjectsRegex.match_here (String c (m +:+ rest)) with
          | Some (cap, rest') =>
              cap :: ProjectsRegex.findall_from
                       (String.length (String c (m +:+ rest))
                        - String.length rest' - 1) (m +:+ rest)
          | None => ProjectsRegex.findall_from 0 (m +:+ rest)
          end).
  string_simpl. rewrite E. f_equal.
  replace (String.length (String c (m +:+ rest)) - String.length rest - 1)%nat
    with (String.length m); [apply findall_from_skip|].
  simpl. rewrite string_length_app. lia.
Qed.

Lemma findall_no_match (c : ascii) (s : string) :
  ProjectsRegex.match_here (String c s) = None →
  ProjectsRegex.findall (String c s) = ProjectsRegex.findall s.
Proof.
  intros E. unfold ProjectsRegex.findall.
  change (ProjectsRegex.findall_from 0 (String c s))
    with (match ProjectsRegex.match_here (String c s) with
          | Some (cap, rest') =>
              cap :: ProjectsRegex.findall_from
                       (String.length (String c s) - String.length rest' - 1) s
          | None => ProjectsRegex.findall_from 0 s
          end).
  by rewrite E.
Qed.

Lemma blocks_step (c : ascii) (s : string) (l : list string) :
  (∀ cap rest, ¬ match_at (String c s) cap rest) →
  blocks s l → blocks (String c s) l.
Proof.
  intros Hno Hb. destruct Hb as [s Hnone|pre t cap rest caps Hpre Hm Hb].
  - apply blocks_none. intros pre t cap rest Hs.
    destruct pre as [|d pre]; string_simpl.
    + subst t. apply (Hno cap rest).
    + injection Hs as _ ->. by apply (Hnone pre t).
  - change (String c (pre +:+ t)) with (String c pre +:+ t).
    apply blocks_cons with rest; [|done|done].
    intros p1 p2 cap' rest' Hs Hp2.
    destruct p1 as [|d p1]; string_simpl.
    + subst p2. string_simpl. apply (Hno cap' rest').
    + injection Hs as _ ->. by apply (Hpre p1 p2).
Qed.

Lemma blocks_findall_length (n : nat) (s : string) :
  (String.length s ≤ n)%nat → blocks s (ProjectsRegex.findall s).
Proof.
  revert s. induction n as [|n IH]; intros s Hn.
  - destruct s; [|simpl in Hn; lia].
    apply blocks_none. intros pre t cap rest Hs Hm.
    destruct pre; [|done]. string_simpl. subst t.
    apply match_here_spec in Hm. done.
  - destruct s as [|c s].
    + apply blocks_none. intros pre t cap rest Hs Hm.
      destruct pre; [|done]. string_simpl. subst t.
      apply match_here_spec in Hm. done.
    + destruct (ProjectsRegex.match_here (String c s)) as [[cap rest]|] eqn:E.
      * rewrite (findall_match _ _ _ E).
        pose proof E as Hm. apply match_here_spec in Hm.
        change (String c s) with (EmptyString +:+ String c s).
        apply blocks_cons with rest; [|done|].
        -- intros p1 p2 cap' rest' Hs Hp2. destruct p1; [|done].
           string_simpl. by subst p2.
        -- apply IH. destruct (match_at_suffix _ _ _ Hm) as (m & Hne & Hs).
           apply (f_equal String.length) in Hs.
           rewrite string_length_app in Hs. simpl in Hs, Hn.
           destruct m; [done|]. simpl in Hs. lia.
      * rewrite (findall_no_match _ _ E). apply blocks_step.
        -- by apply match_here_none.
        -- apply IH. simpl in Hn. lia.
Qed.

Lemma blocks_findall (s : string) : blocks s (ProjectsRegex.findall s).
Proof. by apply (blocks_findall_length (String.length s)). Qed.

Lemma findall_prefix_no_match (pre t : string) :
  (∀ p1 p2 cap rest, pre = p1 +:+ p2 → p2 ≠ EmptyString →
                     ¬ match_at (p2 +:+ t) cap rest) →
  ProjectsRegex.findall (pre +:+ t) = ProjectsRegex.findall t.
Proof.
  induction pre as [|c pre IH]; intros H; [done|]. string_simpl.
  rewrite findall_no_match.
  - apply IH. intros p1 p2 cap rest -> Hp2.
    by apply (H (String c p1) p2).
  - apply match_here_none. intros cap rest.
    by apply (H EmptyString (String c pre)).
Qed.

Lemma blocks_unique (s : string) (l : list string) :
  blocks s l → l = ProjectsRegex.findall s.
Proof.
  induction 1 as [s Hnone|pre t cap rest caps Hpre Hm Hb IH].
  - induction s as [|c s IH]; [done|].
    rewrite findall_no_match.
    + apply IH. intros pre t cap rest ->.
      by apply (Hnone (String c pre) t).
    + apply match_here_none. intros cap rest.
      by apply (Hnone EmptyString (String c s)).
  - rewrite (findall_prefix_no_match _ _ Hpre).
    apply match_here_spec in Hm. rewrite (findall_match _ _ _ Hm). by f_equal.
Qed.

(** ** Trimming *)

Lemma lstrip_spec (s : string) :
  ∃ l, s = l +:+ PyStr.lstrip s ∧ blank l
       ∧ starts_outside PyStr.isspace (PyStr.lstrip s).
Proof.
  induction s as [|c s (l & Hs & Hl & Hout)]; simpl.
  - by exists EmptyString.
  - destruct (PyStr.isspace c) eqn:Hc.
    + exists (String c l). string_simpl. split; [by f_equal|].
      split; [|done]. unfold blank in *. simpl. by rewrite Hc.
    + by exists EmptyString.
Qed.

Lemma rstrip_spec (s : string) :
  ∃ r, s = PyStr.rstrip s +:+ r ∧ blank r
       ∧ ends_outside PyStr.isspace (PyStr.rstrip s)
       ∧ (starts_outside PyStr.isspace s →
          starts_outside PyStr.isspace (PyStr.rstrip s)).
Proof.
  induction s as [|c s (r & Hs & Hr & Hout & _)]; simpl.
  - exists EmptyString. split; [done|]. split; [done|]. split; [by left|done].
  - destruct (PyStr.rstrip s) as [|d s'] eqn:E.
    + string_simpl. subst r. destruct (PyStr.isspace c) eqn:Hc.
      * exists (String c s). split; [done|]. split; [|split; [by left|done]].
        unfold blank in *. simpl. by rewrite Hc.
      * exists s. split; [done|]. split; [done|]. split; [|done].
        right. by exists EmptyString, c.
    + exists r. string_simpl. split; [by f_equal|]. split; [done|].
      split; [|done].
      destruct Hout as [|(s'' & e & Hs'' & He)]; [done|].
      right. exists (String c s''), e. string_simpl. by rewrite Hs''.
Qed.

Lemma strip_spec (s : string) :
  ∃ l r, s = l +:+ PyStr.strip s +:+ r ∧ blank l ∧ blank r
         ∧ starts_outside PyStr.isspace (PyStr.strip s)
         ∧ ends_outside PyStr.isspace (PyStr.strip s).
Proof.
  unfold PyStr.strip.
  destruct (lstrip_spec s) as (l & Hs & Hl & Hstart).
  destruct (rstrip_spec (PyStr.lstrip s)) as (r & Hs' & Hr & Hend & Hkeep).
  exists l, r. split; [by rewrite <- Hs'|]. repeat split; try done. by apply Hkeep.
Qed.

(** ** The projects section *)

(** C7, as the code has it.  [detailed_extract_projects] reads the text
    from left to right.  At the first place where a header word (projects,
    portfolio, personal projects, in any case) is followed by white space
    and a line break, it takes as a block the text after the last line
    break of that white space, up to the first place where an empty line,
    white space and a stop word (skills, experience, education, in any
    case) begin, or up to the end of the text or its last line break; it
    goes on after the stop word, so that a header inside a block gives no
    block of its own.  The blocks are trimmed; without any the result is
    the sentinel.  The text "Projects\nBuilt X\nBuilt Y\n\nSkills\nPython"
    gives the one block "Built X\nBuilt Y". *)
Theorem detailed_extract_projects_blocks (text : string) :
  blocks text (ProjectsRegex.findall text)
  ∧ (∀ sections, blocks text sections → sections = ProjectsRegex.findall text)
  ∧ detailed_extract_projects text
    = match ProjectsRegex.findall text with
      | [] => ["No projects section found."]
      | sections => map PyStr.strip sections
      end
  ∧ (∀ section, ∃ l r,
       section = l +:+ PyStr.strip section +:+ r ∧ blank l ∧ blank r
       ∧ starts_outside PyStr.isspace (PyStr.strip section)
       ∧ ends_outside PyStr.isspace (PyStr.strip section))
  ∧ detailed_extract_projects projects_example
    = ["Built X" +:+ nl +:+ "Built Y"].
Proof.
  split; [apply blocks_findall|].
  split; [apply blocks_unique|].
  split; [unfold detailed_extract_projects; by destruct (ProjectsRegex.findall text)|].
  split; [apply strip_spec|].
  vm_compute. reflexivity.
Qed.

(** C7, as the specification words it, fails: in "Projects\nA\nPortfolio\nB"
    two lines are headers, and the code gives one block, which holds the
    second header, where a block for every header line gives two. *)
Lemma detailed_extract_projects_merges_headers :
  detailed_extract_projects two_headers
  = ["A" +:+ nl +:+ "Portfolio" +:+ nl +:+ "B"]
  ∧ projects_of_header_lines two_headers
    = ["A" +:+ nl +:+ "Portfolio" +:+ nl +:+ "B"; "B"]
  ∧ detailed_extract_projects two_headers ≠ projects_of_header_lines two_headers.
Proof.
  split; [vm_compute; reflexivity|]. split; [vm_compute; reflexivity|].
  vm_compute. discriminate.
Qed.

(** * The rest of the code: the file readers, the analysis, the chat *)

(** What a call into a library gives: a value, or an exception, of which
    [read_pdf] tells [PyPDF2.errors.PdfReadError] from the others. *)
Inductive exception := PdfReadError | OtherException.

Inductive outcome (A : Type) :=
| Returns (a : A)
| Raises (e : exception).
Arguments Returns {A} a.
Arguments Raises {A} e.

(** A message put on the page by [st.error] or [st.warning].  [about] is
    the part of its text that does not come from the exception: the name
    of the file, or the fixed text of the message. *)
Inductive notice :=
| st_error (about : string)
| st_warning (about : string).

(** A file of [st.file_uploader], with what the two libraries make of it:
    the texts of the paragraphs of [docx.Document(file)], and the pages of
    [PyPDF2.PdfReader(file)] with what [extract_text()] gives for each. *)
Module UploadedFile.
Record t := {
  name : string;
  type : string;
  paragraphs : outcome (list string);
  pages : outcome (list (outcome string))
}.
End UploadedFile.

(** [sep.join(l)] *)
Fixpoint join (sep : string) (l : list string) : string :=
  match l with
  | [] => EmptyString
  | [x] => x
  | x :: l' => x +:+ sep +:+ join sep l'
  end.

Definition read_docx (file : UploadedFile.t) : string * list notice :=
  match UploadedFile.paragraphs file with
  | Returns texts => (join nl texts, [])
  | Raises _ => (EmptyString, [st_error (UploadedFile.name file)])
  end.

(** [[page.extract_text() for page in pages if page.extract_text()]]: the
    texts that are not empty; the first page that raises ends it. *)
Fixpoint page_texts (pages : list (outcome string)) : outcome (list string) :=
  match pages with
  | [] => Returns []
  | Raises e :: _ => Raises e
  | Returns text :: pages' =>
      match page_texts pages' with
      | Returns texts =>
          Returns (if decide (text = EmptyString) then texts else text :: texts)
      | Raises e => Raises e
      end
  end.

Definition pdf_notice (e : exception) (file_name : string) : notice :=
  match e with
  | PdfReadError => st_warning file_name
  | OtherException => st_error file_name
  end.

Definition read_pdf (file : UploadedFile.t) : string * list notice :=
  match UploadedFile.pages file with
  | Returns pages =>
      match page_texts pages with
      | Returns texts => (join nl texts, [])
      | Raises e => (EmptyString, [pdf_notice e (UploadedFile.name file)])
      end
  | Raises e => (EmptyString, [pdf_notice e (UploadedFile.name file)])
  end.

(** [read_docx(f) if "wordprocessingml" in f.type else read_pdf(f)] *)
Definition read_upload (file : UploadedFile.t) : string * list notice :=
  if PyStr.contains "wordprocessingml" (UploadedFile.type file)
  then read_docx file else read_pdf file.

Section AnalyzeCandidates.

Variable make_doc : string → Doc.
Variable ner : Doc → list Span.
Variable title : string → string.

(** The loop over the resumes: a candidate for each file whose text is not
    empty. *)
Definition resume_candidates (resume_files : list UploadedFile.t) : list Candidate :=
  flat_map
    (fun resume_file =>
       let content := (read_upload resume_file).1 in
       if decide (content = EmptyString) then []
       else [candidate_details make_doc ner title
               (UploadedFile.name resume_file) content])
    resume_files.

Definition resume_context (full_qa_context : string) (resume_file : UploadedFile.t)
  : string :=
  let content := (read_upload resume_file).1 in
  if decide (content = EmptyString) then full_qa_context
  else full_qa_context +:+ nl +:+ nl +:+ "--- RESUME: "
       +:+ UploadedFile.name resume_file +:+ " ---" +:+ nl +:+ content.

(** What the button "Analyze Candidates" computes: the ranked candidates
    and the context of the chat. *)
Definition analyze (job_description_file : UploadedFile.t)
    (resume_files : list UploadedFile.t) : list Candidate * string :=
  let jd_content := (read_upload job_description_file).1 in
  let job_skills :=
    refined_extract_skills make_doc title jd_content (skill_patterns make_doc) in
  let candidate_data := resume_candidates resume_files in
  let full_qa_context :=
    fold_left resume_context resume_files
              ("**JOB DESCRIPTION:**" +:+ nl +:+ jd_content) in
  (rank_candidates job_skills candidate_data, full_qa_context).

End AnalyzeCandidates.

(** ** The chat *)

(** A model of [genai.list_models()], and the listing itself: a generator,
    which gives its models one at a time and may raise on the way. *)
Record ListedModel := {
  model_name : string;
  supported_generation_methods : list string
}.

Inductive listing :=
| Done
| Item (m : ListedModel) (rest : listing)
| Fails (e : exception).

(** The loop over the listing: the name of the first model with
    'generateContent' among its methods; the loop stops there. *)
Fixpoint first_supporting (models : listing) : outcome (option string) :=
  match models with
  | Done => Returns None
  | Fails e => Raises e
  | Item m rest =>
      if bool_decide ("generateContent" ∈ supported_generation_methods m)
      then Returns (Some (model_name m))
      else first_supporting rest
  end.

Definition indent : string := "        ".

Definition prompt (context question : string) : string :=
  nl +:+ indent
  +:+ "You are an expert AI recruiting assistant. Your task is to answer "
  +:+ "questions based ONLY on the context provided below. Do not make up "
  +:+ "information. If the answer is not in the context, say 'I could not "
  +:+ "find an answer in the provided documents.'"
  +:+ nl +:+ nl +:+ indent +:+ "**CONTEXT:**" +:+ nl +:+ indent +:+ context
  +:+ nl +:+ nl +:+ indent +:+ "**QUESTION:**" +:+ nl +:+ indent +:+ question
  +:+ nl +:+ nl +:+ indent +:+ "**ANSWER:**" +:+ nl +:+ indent.

Definition no_model_apology : string := "Sorry, I can't generate a response right now.".
Definition error_apology : string :=
  "Sorry, I encountered an error while trying to generate a response.".

Section Gemini.

(** The service behind [google.generativeai]: what [configure] and the
    listing of the models give under an API key, and the text of the
    response of a named model to a prompt, or the exception on the way
    to it. *)
Variable list_models : string → listing.
Variable generate_content : string → string → string → outcome string.

Definition get_chatbot_response (question context api_key : string)
  : string * list notice :=
  match first_supporting (list_models api_key) with
  | Returns (Some (String c name')) =>
      let model_name := String c name' in
      match generate_content api_key model_name (prompt context question) with
      | Returns text => (text, [])
      | Raises _ => (error_apology, [st_error "An error occurred with the Gemini API"])
      end
  | Returns _ =>
      (no_model_apology,
       [st_error "Could not find a suitable model that supports 'generateContent'."])
  | Raises _ => (error_apology, [st_error "An error occurred with the Gemini API"])
  end.

End Gemini.

(** ** The session of [src/app.py] *)

Record Message := { role : string; content : string }.

(** [st.session_state]: [qa_context] and [ranked_candidates] are absent
    until an analysis has run. *)
Record SessionState := {
  analysis_done : bool;
  chat_history : list Message;
  qa_context : option string;
  ranked_candidates : option (list Candidate)
}.

(** The state after the initialisation at the top of the script, in a new
    session. *)
Definition new_session : SessionState :=
  {| analysis_done := false; chat_history := [];
     qa_context := None; ranked_candidates := None |}.

(** What the widgets and the secrets give in one run of the script. *)
Record Widgets := {
  job_description_file : option UploadedFile.t;
  resume_files : list UploadedFile.t;
  analyze_button : bool;
  GEMINI_API_KEY : option string;
  user_question : option string
}.

(** The check of the key: the chat goes on with a key that is there, not
    empty and not the placeholder. *)
Definition configured_key (w : Widgets) : option string :=
  match GEMINI_API_KEY w with
  | Some key =>
      if bool_decide (key = EmptyString) || bool_decide (key = "YOUR_TOKEN_HERE")
      then None else Some key
  | None => None
  end.

Section Script.

Variable make_doc : string → Doc.
Variable ner : Doc → list Span.
Variable title : string → string.
Variable list_models : string → listing.
Variable generate_content : string → string → string → outcome string.
(** Whether the table and the profiles of the ranked candidates are drawn
    without an exception of pandas or Streamlit. *)
Variable displays : list Candidate → bool.

(** The block under [if analyze_button and job_description_file and
    resume_files], when the analysis completes.  [Runtime.analysis_step]
    has the block with the analyses that an exception ends. *)
Definition analysis_step (s : SessionState) (w : Widgets) : SessionState :=
  match analyze_button w, job_description_file w, resume_files w with
  | true, Some jd, _ :: _ =>
      let result := analyze make_doc ner title jd (resume_files w) in
      {| analysis_done := true; chat_history := [];
         qa_context := Some result.2; ranked_candidates := Some result.1 |}
  | _, _, _ => s
  end.

(** The block under [if user_question := st.chat_input(...)]: the question
    is recorded, then the answer; reading a context that is absent would
    end the run between the two. *)
Definition record (s : SessionState) (m : Message) : SessionState :=
  {| analysis_done := analysis_done s;
     chat_history := chat_history s ++ [m];
     qa_context := qa_context s;
     ranked_candidates := ranked_candidates s |}.

Definition chat_step (s : SessionState) (key : string) (w : Widgets) : SessionState :=
  match user_question w with
  | Some (String c q') =>
      let question := String c q' in
      let s := record s {| role := "user"; content := question |} in
      match qa_context s with
      | Some context =>
          let answer :=
            (get_chatbot_response list_models generate_content
               question context key).1 in
          record s {| role := "assistant"; content := answer |}
      | None => s
      end
  | _ => s
  end.

(** One run of the script: the state it leaves in [st.session_state].  An
    exception while the results are drawn, and [st.stop()] for a key that
    is not configured, end the run before the chat. *)
Definition run (s : SessionState) (w : Widgets) : SessionState :=
  let s := analysis_step s w in
  if analysis_done s then
    match ranked_candidates s with
    | Some ranked =>
        if displays ranked then
          match configured_key w with
          | Some key => chat_step s key w
          | None => s
          end
        else s
    | None => s
    end
  else s.

Definition session (runs : list Widgets) : SessionState :=
  fold_left run runs new_session.

End Script.

(** * The code as CPython runs it: doubles and exceptions *)

(** ** binary64

    A double is the rational it stands for.  [round] gives the double
    nearest to a rational, the one of even significand when two are as
    near: the significand has 53 bits, and the exponent of the last bit is
    at least -1074, where the subnormal numbers lie. *)

Module Binary64.

Definition pow2 (k : Z) : Q := (2 ^ k)%Q.

(** [floor (log2 q)] for a positive [q]. *)
Definition ilog2 (q : Q) : Z :=
  let d := (Z.log2 (Qnum q) - Z.log2 (Zpos (Qden q)))%Z in
  if Qle_bool (pow2 d) q then d else (d - 1)%Z.

(** The integer nearest to [m]; of two that are as near, the even one. *)
Definition nearest_even (m : Q) : Z :=
  let f := Qfloor m in
  match (m - inject_Z f ?= 1 # 2)%Q with
  | Lt => f
  | Gt => (f + 1)%Z
  | Eq => if Z.even f then f else (f + 1)%Z
  end.

Definition ulp_exponent (q : Q) : Z := Z.max (ilog2 q - 52) (-1074).

Definition round_positive (q : Q) : Q :=
  let k := ulp_exponent q in
  Qred (inject_Z (nearest_even (q / pow2 k)) * pow2 k).

Definition round (q : Q) : Q :=
  match (q ?= 0)%Q with
  | Eq => 0
  | Gt => round_positive q
  | Lt => - round_positive (- q)
  end.

Definition int_div (a b : nat) : Q :=
  round (inject_Z (Z.of_nat a) / inject_Z (Z.of_nat b)).

Definition mul (x y : Q) : Q := round (x * y).

(** [(m / n) * 100] for two [int]. *)
Definition percentage (m n : nat) : Q := mul (int_div m n) 100.

End Binary64.

(** The quotient of two lengths, exact. *)
Definition ratio (m n : nat) : Q := (inject_Z (Z.of_nat m) / inject_Z (Z.of_nat n))%Q.

(** The exception of a call ends the caller too, unless the caller
    handles it. *)
#[global] Instance outcome_ret : MRet outcome := @Returns.
#[global] Instance outcome_bind : MBind outcome :=
  fun A B k x => match x with Returns a => k a | Raises e => Raises e end.

(** The functions of the first part as they run, under their names: the
    percentages in doubles, and the calls of [nlp] with the exceptions they
    may raise. *)
Module Runtime.

(** ** The two percentages *)

Definition score_candidate (job_skills_set : gset string) (candidate : Candidate)
  : Candidate :=
  let score := size (job_skills_set ∩ list_to_set (skills candidate)) in
  {| name := name candidate;
     skills := skills candidate;
     experience := experience candidate;
     education := education candidate;
     projects := projects candidate;
     match_score := Some score;
     match_percentage :=
       Some (if decide (job_skills_set = ∅) then 0%Q
             else Binary64.mul (Binary64.int_div score (size job_skills_set)) 100) |}.

Definition rank_candidates (job_skills : list string) (candidate_data : list Candidate)
  : list Candidate :=
  let job_skills_set : gset string := list_to_set job_skills in
  sort_reverse percentage_key (map (score_candidate job_skills_set) candidate_data).

Definition calculate_score (resume jd : string) : Q :=
  let resume_words : gset string := list_to_set (PyStr.findall_word (PyStr.lower resume)) in
  let jd_words : gset string := list_to_set (PyStr.findall_word (PyStr.lower jd)) in
  if decide (jd_words = ∅) then 0%Q
  else
    let matching_words := resume_words ∩ jd_words in
    let score := Binary64.int_div (size matching_words) (size jd_words) in
    Binary64.mul score 100.

(** ** The calls of the pipeline *)

Section Calls.

Variable make_doc : string → Doc.
Variable ner : Doc → list Span.
Variable title : string → string.
(** The texts on which the call [nlp(text)] raises, and what it raises:
    spaCy refuses a text longer than [nlp.max_length] with a [ValueError],
    and an exception of a component of the pipeline is passed on. *)
Variable refuses : string → option exception.

(** [nlp(text)]: the document, or the exception.  The entities of the
    document, [doc.ents], are [ner doc]. *)
Definition nlp (text : string) : outcome Doc :=
  match refuses text with
  | Some e => Raises e
  | None => Returns (make_doc text)
  end.

Definition refined_extract_skills (text : string) (skill_patterns : list Doc)
  : outcome (list string) :=
  doc ← nlp text;
  let matches := phrase_matcher skill_patterns doc in
  mret (elements
          (list_to_set
             (map (fun m : nat * nat => title (span_text doc m.1 m.2)) matches)
           : gset string)).

Definition detailed_extract_experience (text : string) : outcome (list string) :=
  doc ← nlp text;
  let experience :=
    map (fun ent => "Worked at: " +:+ ent_text doc ent)
        (filter (fun ent => label_ ent = "ORG") (ner doc)) in
  mret (match experience with
        | [] => ["Could not automatically extract experience."]
        | _ => experience
        end).

Definition detailed_extract_education (text : string) : outcome (list string) :=
  doc ← nlp text;
  let education :=
    map (fun ent => "Studied at: " +:+ ent_text doc ent)
        (filter (fun ent => is_education doc ent = true) (ner doc)) in
  mret (match education with
        | [] => ["Could not automatically extract education."]
        | _ => education
        end).

(** ** [src/app.py] *)

(** The dictionary of a resume: its values are computed in the order in
    which they are written. *)
Definition candidate_details (file_name content : string) : outcome Candidate :=
  skills ← refined_extract_skills content (skill_patterns make_doc);
  experience ← detailed_extract_experience content;
  education ← detailed_extract_education content;
  mret {| name := file_name;
          skills := skills;
          experience := experience;
          education := education;
          projects := detailed_extract_projects content;
          match_score := None;
          match_percentage := None |}.

Fixpoint resume_candidates (resume_files : list UploadedFile.t)
  : outcome (list Candidate) :=
  match resume_files with
  | [] => mret []
  | resume_file :: resume_files' =>
      let content := (read_upload resume_file).1 in
      if decide (content = EmptyString) then resume_candidates resume_files'
      else
        candidate ← candidate_details (UploadedFile.name resume_file) content;
        candidate_data ← resume_candidates resume_files';
        mret (candidate :: candidate_data)
  end.

(** What the button "Analyze Candidates" computes, between the two pairs
    of assignments to [st.session_state]. *)
Definition analyze (job_description_file : UploadedFile.t)
    (resume_files : list UploadedFile.t) : outcome (list Candidate * string) :=
  let jd_content := (read_upload job_description_file).1 in
  job_skills ← refined_extract_skills jd_content (skill_patterns make_doc);
  candidate_data ← resume_candidates resume_files;
  let full_qa_context :=
    fold_left resume_context resume_files
              ("**JOB DESCRIPTION:**" +:+ nl +:+ jd_content) in
  mret (rank_candidates job_skills candidate_data, full_qa_context).

(** The service behind the chat, and whether the table and the profiles of
    the ranked candidates are drawn without an exception, as in the first
    part. *)
Variable list_models : string → listing.
Variable generate_content : string → string → string → outcome string.
Variable displays : list Candidate → bool.

(** The block under [if analyze_button and job_description_file and
    resume_files]: the state it leaves, and the exception that ended it, if
    one did.  [chat_history] and [analysis_done] are assigned before the
    analysis, [qa_context] and [ranked_candidates] after it. *)
Definition analysis_step (s : SessionState) (w : Widgets)
  : SessionState * option exception :=
  match analyze_button w, job_description_file w, resume_files w with
  | true, Some jd, _ :: _ =>
      let s :=
        {| analysis_done := true; chat_history := [];
           qa_context := qa_context s; ranked_candidates := ranked_candidates s |} in
      match analyze jd (resume_files w) with
      | Returns result =>
          ({| analysis_done := true; chat_history := [];
              qa_context := Some result.2; ranked_candidates := Some result.1 |},
           None)
      | Raises e => (s, Some e)
      end
  | _, _, _ => (s, None)
  end.

(** One run of the script.  An exception of the analysis ends the run; so
    does reading [ranked_candidates] when it is absent, an exception while
    the results are drawn, and [st.stop()] for a key that is not
    configured. *)
Definition run (s : SessionState) (w : Widgets) : SessionState :=
  match analysis_step s w with
  | (s, Some _) => s
  | (s, None) =>
      if analysis_done s then
        match ranked_candidates s with
        | Some ranked =>
            if displays ranked then
              match configured_key w with
              | Some key => chat_step list_models generate_content s key w
              | None => s
              end
            else s
        | None => s
        end
      else s
  end.

Definition session (runs : list Widgets) : SessionState :=
  fold_left run runs new_session.

End Calls.

End Runtime.

(** ** A pipeline that refuses long texts

    spaCy refuses, with a [ValueError], a text of more than
    [nlp.max_length] characters; the model is loaded with the default of
    1000000. *)
Definition max_length : N := 1000000.

Definition refuses_long (text : string) : option exception :=
  if (max_length <? N.of_nat (String.length text))%N then Some OtherException
  else None.

Fixpoint repeat_char (n : nat) (c : ascii) : string :=
  match n with
  | O => EmptyString
  | S n' => String c (repeat_char n' c)
  end.

(** A text of 1000001 characters. *)
Definition long_text : string := repeat_char (N.to_nat 1000001) "a".

(** * More properties *)

(** ** More of the ranking *)

(** [candidate['match_score']] for a candidate that has been scored. *)
Definition score_key (c : Candidate) : nat :=
  match match_score c with
  | Some m => m
  | None => 0%nat
  end.

Lemma percentage_le (m1 m2 n : nat) :
  (0 < n)%nat → (percentage m1 n <= percentage m2 n)%Q ↔ (m1 ≤ m2)%nat.
Proof.
  intros Hn. destruct n as [|n]; [lia|].
  rewrite !percentage_as_fraction. unfold Qle. simpl. nia.
Qed.

Lemma percentage_full (m n : nat) :
  (0 < n)%nat → (percentage m n == 100)%Q ↔ m = n.
Proof.
  intros Hn. destruct n as [|n]; [lia|].
  rewrite percentage_as_fraction. unfold Qeq. simpl.
  rewrite !Pos.mul_1_r, Zpos_P_of_succ_nat. lia.
Qed.


Lemma score_candidate_score_key (J : gset string) (c : Candidate) :
  score_key (score_candidate J c) = size (J ∩ list_to_set (skills c)).
Proof. reflexivity. Qed.



Lemma score_candidate_of_profile (J : gset string) (c c' : Candidate) :
  profile c = profile c' → score_candidate J c = score_candidate J c'.
Proof.
  unfold profile. intros [= Hn Hs He Hd Hp]. unfold score_candidate.
  by rewrite Hn, Hs, He, Hd, Hp.
Qed.

(** X3.  [rank_candidates] reads the five keys of the profile alone: what
    ['match_score'] and ['match_percentage'] held before, if anything, has
    no effect on the result. *)
Theorem rank_candidates_overwrites_scores
    (job_skills : list string) (candidate_data candidate_data' : list Candidate) :
  map profile candidate_data = map profile candidate_data' →
  rank_candidates job_skills candidate_data
  = rank_candidates job_skills candidate_data'.
Proof.
  intros H. unfold rank_candidates. f_equal.
  revert candidate_data' H.
  induction candidate_data as [|c cs IH]; intros [|c' cs'] H; try done.
  assert (Hc : profile c = profile c')
    by (apply (f_equal (hd (profile c))) in H; exact H).
  assert (Ht : map profile cs = map profile cs')
    by (apply (f_equal (@tl _)) in H; exact H).
  simpl. by rewrite (score_candidate_of_profile _ _ _ Hc), (IH _ Ht).
Qed.

Lemma rank_candidates_overwrites_scores_witness :
  rank_candidates example_job
    (rank_candidates ["Git"] [candidate_A; candidate_B; candidate_C])
  = rank_candidates example_job [candidate_A; candidate_B; candidate_C].
Proof.
  apply rank_candidates_overwrites_scores. vm_compute. reflexivity.
Defined.

(** X4.  [rank_candidates] reads the job skills as a set: two lists with
    the same elements, in whatever order and however often, give the same
    result. *)
Theorem rank_candidates_job_skills_as_set
    (job_skills job_skills' : list string) (candidate_data : list Candidate) :
  (∀ skill, skill ∈ job_skills ↔ skill ∈ job_skills') →
  rank_candidates job_skills candidate_data
  = rank_candidates job_skills' candidate_data.
Proof.
  intros H. unfold rank_candidates.
  assert ((list_to_set job_skills : gset string) = list_to_set job_skills') as ->;
    [|done].
  apply leibniz_equiv. intros x. by rewrite !elem_of_list_to_set.
Qed.

Lemma rank_candidates_job_skills_as_set_witness :
  rank_candidates ["Git"; "Python"; "Git"] [candidate_A; candidate_B; candidate_C]
  = rank_candidates ["Python"; "Git"] [candidate_A; candidate_B; candidate_C].
Proof.
  apply rank_candidates_job_skills_as_set.
  intros skill. rewrite !elem_of_cons. tauto.
Defined.

(** X5.  More skills never score lower: when every skill of one candidate
    is a skill of another, the other's match score and percentage are at
    least as high. *)
Theorem score_candidate_monotone
    (job_skills : list string) (c c' : Candidate) :
  (∀ skill, skill ∈ skills c → skill ∈ skills c') →
  let scored := score_candidate (list_to_set job_skills) c in
  let scored' := score_candidate (list_to_set job_skills) c' in
  (score_key scored ≤ score_key scored')%nat
  ∧ (percentage_key scored <= percentage_key scored')%Q.
Proof.
  intros H. simpl. rewrite !score_candidate_key, !score_candidate_score_key.
  set (J := list_to_set job_skills : gset string).
  assert (Hle : (size (J ∩ list_to_set (skills c))
                 ≤ size (J ∩ list_to_set (skills c')))%nat).
  { apply subseteq_size. intros x. rewrite !elem_of_intersection, !elem_of_list_to_set.
    intros [? ?]. split; [done|by apply H]. }
  split; [done|].
  destruct (decide (J = ∅)) as [E|E]; [apply Qle_refl|].
  by apply (percentage_le _ _ (size J) (size_pos_nonempty J E)).
Qed.

Lemma score_candidate_monotone_witness :
  let scored := score_candidate (list_to_set example_job) candidate_B in
  let scored' := score_candidate (list_to_set example_job)
                   (example_candidate "D" ["Git"; "Excel"; "Nlp"; "Python"]) in
  (score_key scored ≤ score_key scored')%nat
  ∧ (percentage_key scored <= percentage_key scored')%Q.
Proof.
  apply score_candidate_monotone.
  intros skill. simpl. rewrite !elem_of_cons. tauto.
Defined.

(** ** More of the lexical scorer *)

Lemma calculate_score_percentage (resume jd : string) :
  calculate_score resume jd
  = if decide (word_tokens jd = ∅) then 0%Q
    else percentage (size (word_tokens resume ∩ word_tokens jd))
                    (size (word_tokens jd)).
Proof. reflexivity. Qed.

(** X6.  The score of [calculate_score] lies between 0 and 100. *)
Theorem calculate_score_bounds (resume jd : string) :
  (0 <= calculate_score resume jd)%Q ∧ (calculate_score resume jd <= 100)%Q.
Proof.
  rewrite calculate_score_percentage.
  destruct (decide (word_tokens jd = ∅)) as [E|E]; [done|].
  apply percentage_bounds; [by apply size_pos_nonempty|].
  apply subseteq_size, intersection_subseteq_r.
Qed.


Lemma lower_char_idem (c : ascii) :
  PyStr.lower_char (PyStr.lower_char c) = PyStr.lower_char c.
Proof. by_cases_on_char c. Qed.

Lemma lower_idem (s : string) : PyStr.lower (PyStr.lower s) = PyStr.lower s.
Proof.
  induction s as [|c s IH]; [done|]. simpl. by rewrite lower_char_idem, IH.
Qed.

(** X8.  The score does not see the case of the letters: two resumes, or
    two job descriptions, with the same lower-case form score alike, and so
    does each text and its lower-case form. *)
Theorem calculate_score_ignores_case (resume resume' jd jd' : string) :
  PyStr.lower resume = PyStr.lower resume' →
  PyStr.lower jd = PyStr.lower jd' →
  calculate_score resume jd = calculate_score resume' jd'
  ∧ calculate_score (PyStr.lower resume) (PyStr.lower jd)
    = calculate_score resume jd.
Proof.
  intros Hr Hj. rewrite !calculate_score_percentage. unfold word_tokens.
  by rewrite !lower_idem, Hr, Hj.
Qed.

Lemma calculate_score_ignores_case_witness :
  calculate_score "PYTHON and Sql" "Looking for python"
  = calculate_score "python AND SQL" "LOOKING FOR PYTHON"
  ∧ calculate_score (PyStr.lower "PYTHON and Sql") (PyStr.lower "Looking for python")
    = calculate_score "PYTHON and Sql" "Looking for python".
Proof.
  apply calculate_score_ignores_case; vm_compute; reflexivity.
Defined.

Lemma runs_from_separated (cls : ascii → bool) (c : ascii) (a b run : string) :
  cls c = false →
  PyStr.runs_from cls run (a +:+ String c b)
  = PyStr.runs_from cls run a ++ PyStr.runs_from cls EmptyString b.
Proof.
  intros Hc. revert run. induction a as [|d a IH]; intros run; string_simpl; simpl.
  - by rewrite Hc.
  - destruct (cls d); [apply IH|]. by rewrite IH, app_assoc.
Qed.

Lemma word_tokens_separated (c : ascii) (a b : string) :
  PyStr.is_word c = false →
  word_tokens (a +:+ String c b) = word_tokens a ∪ word_tokens b.
Proof.
  intros Hc. unfold word_tokens, PyStr.findall_word, PyStr.runs.
  rewrite lower_app. simpl. rewrite runs_from_separated.
  - by rewrite list_to_set_app_L.
  - by rewrite is_word_lower.
Qed.

(** X9.  A resume of ASCII characters counts as a set of words.  For two
    texts of ASCII characters joined by a character that is no word
    character, the order of the two does not change the score, a text
    joined to itself scores as the text alone, and joining more text to a
    resume never lowers its score.  On ASCII characters [str.lower] maps
    each character by itself, whatever stands next to it. *)
Theorem calculate_score_resume_as_word_set (c : ascii) (a b jd : string) :
  PyStr.all_chars PyStr.is_ascii a = true →
  PyStr.all_chars PyStr.is_ascii b = true →
  PyStr.is_word c = false →
  calculate_score (a +:+ String c b) jd = calculate_score (b +:+ String c a) jd
  ∧ calculate_score (a +:+ String c a) jd = calculate_score a jd
  ∧ (calculate_score a jd <= calculate_score (a +:+ String c b) jd)%Q.
Proof.
  intros _ _ Hc. rewrite !calculate_score_percentage, !(word_tokens_separated _ _ _ Hc).
  split; [by rewrite (comm_L (∪) (word_tokens a))|].
  split; [by rewrite union_idemp_L|].
  destruct (decide (word_tokens jd = ∅)) as [E|E]; [apply Qle_refl|].
  apply percentage_le; [by apply size_pos_nonempty|].
  apply subseteq_size, intersection_mono; [apply union_subseteq_l|done].
Qed.

Lemma calculate_score_resume_as_word_set_witness :
  calculate_score ("Python" +:+ String SimpleNLP.SP "SQL") "python java"
  = calculate_score ("SQL" +:+ String SimpleNLP.SP "Python") "python java"
  ∧ calculate_score ("Python" +:+ String SimpleNLP.SP "Python") "python java"
    = calculate_score "Python" "python java"
  ∧ (calculate_score "Python" "python java"
     <= calculate_score ("Python" +:+ String SimpleNLP.SP "SQL") "python java")%Q.
Proof.
  apply calculate_score_resume_as_word_set; reflexivity.
Defined.

(** ** More of the skill matcher *)

Lemma elem_of_refined_extract_skills
    (make_doc : string → Doc) (title : string → string)
    (text : string) (patterns : list Doc) (s : string) :
  s ∈ refined_extract_skills make_doc title text patterns
  ↔ ∃ pat start end_,
      pat ∈ patterns
      ∧ (start < end_ ≤ length (make_doc text))%nat
      ∧ orths (slice start end_ (make_doc text)) = orths pat
      ∧ s = title (span_text (make_doc text) start end_).
Proof.
  unfold refined_extract_skills.
  rewrite elem_of_elements, elem_of_list_to_set, list_elem_of_In, in_map_iff.
  split.
  - intros ([st en] & <- & Hm). simpl.
    apply list_elem_of_In, elem_of_phrase_matcher in Hm as (pat & Hpat & Hr & E).
    by exists pat, st, en.
  - intros (pat & st & en & Hp & Hr & E & ->).
    exists (st, en). split; [done|].
    apply list_elem_of_In, elem_of_phrase_matcher. by exists pat.
Qed.

(** X10.  More patterns never report less: every skill reported for a list
    of patterns is reported for a longer list, on whichever side the list
    grows. *)
Theorem refined_extract_skills_monotone
    (make_doc : string → Doc) (title : string → string)
    (text : string) (patterns more : list Doc) :
  refined_extract_skills make_doc title text patterns
  ⊆ refined_extract_skills make_doc title text (patterns ++ more)
  ∧ refined_extract_skills make_doc title text patterns
    ⊆ refined_extract_skills make_doc title text (more ++ patterns).
Proof.
  split; intros s; rewrite !elem_of_refined_extract_skills;
    intros (pat & st & en & Hp & H); exists pat, st, en;
    (split; [rewrite elem_of_app; tauto|done]).
Qed.

(** X11.  Nothing is reported without a pattern, nor when every pattern is
    empty, nor for a text without tokens. *)
Theorem refined_extract_skills_nothing
    (make_doc : string → Doc) (title : string → string) (text : string) :
  refined_extract_skills make_doc title text [] = []
  ∧ (∀ n, refined_extract_skills make_doc title text (repeat [] n) = [])
  ∧ (∀ patterns, make_doc text = [] →
       refined_extract_skills make_doc title text patterns = []).
Proof.
  assert (Hnil : ∀ patterns,
    (∀ s, ¬ s ∈ refined_extract_skills make_doc title text patterns) →
    refined_extract_skills make_doc title text patterns = []).
  { intros patterns H.
    destruct (refined_extract_skills make_doc title text patterns) as [|s l]; [done|].
    exfalso. apply (H s). left. }
  split; [|split].
  - apply Hnil. intros s. rewrite elem_of_refined_extract_skills.
    by intros (pat & st & en & ?%elem_of_nil & _).
  - intros n. apply Hnil. intros s. rewrite elem_of_refined_extract_skills.
    intros (pat & st & en & Hp & Hr & E & _).
    apply list_elem_of_In, repeat_spec in Hp as ->.
    apply (f_equal length) in E. unfold orths, slice in E.
    rewrite !length_map, length_take, length_drop in E. simpl in E. lia.
  - intros patterns Hdoc. apply Hnil. intros s.
    rewrite elem_of_refined_extract_skills, Hdoc.
    intros (pat & st & en & _ & Hr & _). simpl in Hr. lia.
Qed.

(** ** More of the entity extractors *)

Lemma filter_nil_none {A} (P : A → Prop) `{!∀ x, Decision (P x)} (l : list A) :
  filter P l = [] → ∀ x, x ∈ l → ¬ P x.
Proof. intros Hnil x Hx HP. by apply (filter_nil_not_elem_of P l x). Qed.

Lemma worked_at_not_sentinel (s : string) :
  "Worked at: " +:+ s ≠ "Could not automatically extract experience.".
Proof. by string_simpl. Qed.

Lemma studied_at_not_sentinel (s : string) :
  "Studied at: " +:+ s ≠ "Could not automatically extract education.".
Proof. by string_simpl. Qed.

(** X12.  The experience is the one sentinel exactly when no entity is
    labelled ORG; otherwise it has one entry for each such entity, and it
    is never empty.  The same holds of the education and the entities that
    qualify for it. *)
Theorem entity_fields_sentinel_iff
    (make_doc : string → Doc) (ner : Doc → list Span) (text : string) :
  let orgs := filter (fun ent => label_ ent = "ORG") (ents make_doc ner text) in
  let schools :=
    filter (fun ent => is_education (make_doc text) ent = true)
           (ents make_doc ner text) in
  (detailed_extract_experience make_doc ner text
   = ["Could not automatically extract experience."] ↔ orgs = [])
  ∧ length (detailed_extract_experience make_doc ner text)
    = Nat.max 1 (length orgs)
  ∧ (detailed_extract_education make_doc ner text
     = ["Could not automatically extract education."] ↔ schools = [])
  ∧ length (detailed_extract_education make_doc ner text)
    = Nat.max 1 (length schools).
Proof.
  intros orgs schools.
  unfold detailed_extract_experience, detailed_extract_education.
  fold orgs schools.
  split; [|split; [|split]].
  - destruct orgs as [|o os]; [done|]. simpl. split; [|done].
    intros H. apply (f_equal (hd EmptyString)) in H. simpl in H.
    by apply worked_at_not_sentinel in H.
  - destruct orgs as [|o os]; [done|]. simpl. by rewrite length_map.
  - destruct schools as [|o os]; [done|]. simpl. split; [|done].
    intros H. apply (f_equal (hd EmptyString)) in H. simpl in H.
    by apply studied_at_not_sentinel in H.
  - destruct schools as [|o os]; [done|]. simpl. by rewrite length_map.
Qed.

(** X13.  An institution counts as an employer too: every entity labelled
    ORG that gives an entry of the education gives, with the same text, an
    entry of the experience. *)
Theorem education_org_is_experience
    (make_doc : string → Doc) (ner : Doc → list Span) (text : string) :
  Forall (fun ent =>
            is_education (make_doc text) ent = true → label_ ent = "ORG" →
            ("Studied at: " +:+ ent_text (make_doc text) ent)
              ∈ detailed_extract_education make_doc ner text
            ∧ ("Worked at: " +:+ ent_text (make_doc text) ent)
                ∈ detailed_extract_experience make_doc ner text)
         (ents make_doc ner text).
Proof.
  apply Forall_forall. intros ent Hent Hedu Horg.
  unfold detailed_extract_education, detailed_extract_experience.
  split.
  - assert (Hin : ent ∈ filter (fun ent => is_education (make_doc text) ent = true)
                            (ents make_doc ner text))
      by (by apply list_elem_of_filter).
    destruct (filter _ (ents make_doc ner text)) as [|o os] eqn:E;
      [by apply elem_of_nil in Hin|].
    rewrite <- E in *. clear E.
    set (f := fun ent => "Studied at: " +:+ ent_text (make_doc text) ent).
    destruct (map f _) as [|x xs] eqn:E.
    + apply (f_equal length) in E. rewrite length_map in E.
      destruct (filter _ _); [by apply elem_of_nil in Hin|done].
    + rewrite <- E. apply list_elem_of_In, (in_map f). by apply list_elem_of_In.
  - assert (Hin : ent ∈ filter (fun ent => label_ ent = "ORG")
                            (ents make_doc ner text))
      by (by apply list_elem_of_filter).
    set (f := fun ent => "Worked at: " +:+ ent_text (make_doc text) ent).
    destruct (map f _) as [|x xs] eqn:E.
    + apply (f_equal length) in E. rewrite length_map in E.
      destruct (filter _ _); [by apply elem_of_nil in Hin|done].
    + rewrite <- E. apply list_elem_of_In, (in_map f). by apply list_elem_of_In.
Qed.

(** ** More of the projects section *)

(** [s] has no line break. *)
Definition one_line (s : string) : Prop :=
  PyStr.all_chars (fun c => negb (Ascii.eqb c PyStr.LF)) s = true.

(** [b] is a piece of [s]. *)
Definition piece (b s : string) : Prop := ∃ pre post, s = pre +:+ b +:+ post.

Lemma piece_trans (a b c : string) : piece a b → piece b c → piece a c.
Proof.
  intros (p1 & q1 & ->) (p2 & q2 & ->).
  exists (p2 +:+ p1), (q1 +:+ q2). by string_norm.
Qed.

Lemma piece_suffix (b m rest : string) : piece b rest → piece b (m +:+ rest).
Proof.
  intros (p & q & ->). exists (m +:+ p), q. by string_norm.
Qed.

Lemma findall_nil_of_no_match (text : string) :
  (∀ pre t cap rest, text = pre +:+ t → ¬ match_at t cap rest) →
  ProjectsRegex.findall text = [].
Proof. intros H. symmetry. by apply blocks_unique, blocks_none. Qed.

(** X14.  A header opens a block only when a line break follows it: a text
    without any line break gives the sentinel, whatever it holds. *)
Theorem detailed_extract_projects_one_line (text : string) :
  one_line text →
  detailed_extract_projects text = ["No projects section found."].
Proof.
  intros Hline. unfold detailed_extract_projects.
  rewrite findall_nil_of_no_match; [done|].
  intros pre t cap rest -> (body & (h & w & -> & _) & _).
  unfold one_line in Hline. rewrite !all_chars_app in Hline.
  apply andb_true_iff in Hline as [_ Hline].
  apply andb_true_iff in Hline as [_ Hline].
  apply andb_true_iff in Hline as [_ Hline].
  by simpl in Hline.
Qed.

Lemma detailed_extract_projects_one_line_witness :
  detailed_extract_projects "Projects: built X and Y. Skills: Python"
  = ["No projects section found."].
Proof.
  apply detailed_extract_projects_one_line. reflexivity.
Defined.

Lemma blocks_pieces (s : string) (l : list string) :
  blocks s l → Forall (fun b => piece b s) l.
Proof.
  induction 1 as [s Hnone|pre t cap rest caps Hpre Hm Hb IH]; [constructor|].
  destruct (match_at_suffix _ _ _ Hm) as (m & _ & Ht).
  constructor.
  - destruct Hm as (body & (h & w & -> & _) & (t' & -> & _)).
    exists (pre +:+ h +:+ w +:+ String PyStr.LF EmptyString), t'. by string_norm.
  - eapply Forall_impl; [exact IH|]. intros b Hpiece. simpl in Hpiece.
    rewrite Ht. by apply piece_suffix, piece_suffix.
Qed.

(** X15.  The projects are the sentinel or pieces of the text: every entry
    stands in the text as it is, character for character. *)
Theorem detailed_extract_projects_pieces (text : string) :
  detailed_extract_projects text = ["No projects section found."]
  ∨ Forall (fun b => piece b text) (detailed_extract_projects text).
Proof.
  unfold detailed_extract_projects.
  pose proof (blocks_pieces _ _ (blocks_findall text)) as H.
  destruct (ProjectsRegex.findall text) as [|b l]; [by left|]. right.
  apply Forall_forall. intros x Hx.
  apply list_elem_of_In, in_map_iff in Hx as (y & <- & Hy).
  rewrite Forall_forall in H. apply list_elem_of_In in Hy.
  apply (piece_trans _ y); [|by apply H].
  destruct (strip_spec y) as (l' & r & Hy' & _). by exists l', r.
Qed.

(** X16.  A header with nothing after its line gives one empty entry, not
    the sentinel. *)
Theorem detailed_extract_projects_empty_section (h w : string) :
  one_of ProjectsRegex.headers h → blank w →
  detailed_extract_projects (h +:+ w +:+ nl) = [EmptyString].
Proof.
  intros Hh Hw. unfold detailed_extract_projects.
  assert (Hm : ProjectsRegex.match_here (h +:+ w +:+ nl)
               = Some (EmptyString, EmptyString)).
  { apply match_here_spec. exists EmptyString. split.
    - exists h, w. repeat split; try done.
      intros (w' & body' & Hs & _). by destruct w'.
    - exists EmptyString. repeat split; try done.
      + right. split; [done|by left].
      + intros cap' t' _ Hlen. simpl in Hlen. lia. }
  by rewrite (findall_match _ _ _ Hm).
Qed.

Lemma detailed_extract_projects_empty_section_witness :
  detailed_extract_projects ("PROJECTS" +:+ String SimpleNLP.SP EmptyString +:+ nl)
  = [EmptyString].
Proof.
  apply detailed_extract_projects_empty_section; [|reflexivity].
  exists "projects". split; [left|reflexivity].
Defined.

(** X17.  The projects are never an empty list, and no entry starts or
    ends with white space. *)
Theorem detailed_extract_projects_trimmed (text : string) :
  detailed_extract_projects text ≠ []
  ∧ Forall (fun b => starts_outside PyStr.isspace b ∧ ends_outside PyStr.isspace b)
           (detailed_extract_projects text).
Proof.
  unfold detailed_extract_projects.
  destruct (ProjectsRegex.findall text) as [|b l].
  - split; [done|]. constructor; [|constructor]. split; [done|].
    right. by exists "No projects section found", "."%char.
  - split; [done|]. apply Forall_forall. intros x Hx.
    apply list_elem_of_In, in_map_iff in Hx as (y & <- & _).
    by destruct (strip_spec y) as (l' & r & _ & _ & _ & ? & ?).
Qed.

(** ** The readers *)

Lemma string_app_nil_inv (s t : string) :
  s +:+ t = EmptyString → s = EmptyString ∧ t = EmptyString.
Proof. destruct s; [by string_simpl|by string_simpl]. Qed.

Lemma join_nl_empty (l : list string) :
  join nl l = EmptyString ↔ l = [] ∨ l = [EmptyString].
Proof.
  destruct l as [|x [|y l]]; simpl.
  - split; [by left|done].
  - split; [intros ->; by right|by intros [|[= ->]]].
  - split; [|by intros [|]]. intros H.
    apply string_app_nil_inv in H as [_ H]. by apply string_app_nil_inv in H as [? _].
Qed.




(** X19.  [read_docx] gives the paragraphs joined by line breaks, so its
    text is empty only for a file that cannot be read, a document without
    paragraphs, or one with a single empty paragraph: two paragraphs or
    more give text even when all are empty. *)
Theorem read_docx_text (file : UploadedFile.t) :
  ((read_docx file).1 = EmptyString
   ↔ (∃ e, UploadedFile.paragraphs file = Raises e)
     ∨ UploadedFile.paragraphs file = Returns []
     ∨ UploadedFile.paragraphs file = Returns [EmptyString])
  ∧ (∀ texts, UploadedFile.paragraphs file = Returns texts →
       (2 ≤ length texts)%nat → (read_docx file).1 ≠ EmptyString).
Proof.
  unfold read_docx. destruct (UploadedFile.paragraphs file) as [texts|e]; simpl.
  - split.
    + rewrite join_nl_empty. split.
      * intros [->| ->]; [right; by left|right; by right].
      * intros [[e [=]]|[[= ->]|[= ->]]]; [by left|by right].
    + intros ? [= <-] Hlen. rewrite join_nl_empty.
      intros [->| ->]; simpl in Hlen; lia.
  - split; [|done]. split; [|done]. intros _. left. by exists e.
Qed.

(** ** The analysis *)

(** Two uploads to run the analysis on: a job description and a resume
    with the same text, and a resume that cannot be read. *)
Definition pdf_upload (file_name text : string) : UploadedFile.t :=
  {| UploadedFile.name := file_name;
     UploadedFile.type := "application/pdf";
     UploadedFile.paragraphs := Raises OtherException;
     UploadedFile.pages := Returns [Returns text] |}.

Definition broken_upload (file_name : string) : UploadedFile.t :=
  {| UploadedFile.name := file_name;
     UploadedFile.type := "application/pdf";
     UploadedFile.paragraphs := Raises OtherException;
     UploadedFile.pages := Raises PdfReadError |}.

(** The resumes of which the analysis makes candidates. *)
Definition readable (resume_files : list UploadedFile.t) : list UploadedFile.t :=
  filter (fun resume_file => (read_upload resume_file).1 ≠ EmptyString) resume_files.

Section AnalyzeFacts.

Variable make_doc : string → Doc.
Variable ner : Doc → list Span.
Variable title : string → string.

Lemma resume_candidates_readable (resume_files : list UploadedFile.t) :
  resume_candidates make_doc ner title resume_files
  = map (fun resume_file =>
           candidate_details make_doc ner title
             (UploadedFile.name resume_file) (read_upload resume_file).1)
        (readable resume_files).
Proof.
  unfold resume_candidates, readable.
  induction resume_files as [|f fs IH]; [done|].
  simpl. rewrite filter_cons, IH.
  by destruct (decide ((read_upload f).1 = EmptyString)),
              (decide ((read_upload f).1 ≠ EmptyString)).
Qed.

(** X20.  The analysis ranks the resumes whose text is not empty, and no
    others: the names of the ranked candidates are, up to their order, the
    names of those files, so a file that could not be read, or has no
    text, is left out. *)
Theorem analyze_ranks_readable_resumes
    (job_description_file : UploadedFile.t) (resume_files : list UploadedFile.t) :
  map name (analyze make_doc ner title job_description_file resume_files).1
  ≡ₚ map UploadedFile.name (readable resume_files).
Proof.
  unfold analyze. simpl. rewrite rank_candidates_perm, map_map.
  rewrite resume_candidates_readable, map_map. done.
Qed.

(** X21.  A resume with the text of the job description has every job
    skill: its match score is the number of job skills, and its match
    percentage is 100 when there is a job skill. *)
Theorem analyze_same_text
    (job_description_file resume_file : UploadedFile.t)
    (resume_files : list UploadedFile.t) :
  resume_file ∈ resume_files →
  (read_upload resume_file).1 = (read_upload job_description_file).1 →
  (read_upload resume_file).1 ≠ EmptyString →
  let job_skills :=
    refined_extract_skills make_doc title (read_upload job_description_file).1
      (skill_patterns make_doc) in
  ∃ c, c ∈ (analyze make_doc ner title job_description_file resume_files).1
       ∧ name c = UploadedFile.name resume_file
       ∧ match_score c = Some (length job_skills)
       ∧ (job_skills ≠ [] → (percentage_key c == 100)%Q).
Proof.
  intros Hin Hsame Hne job_skills.
  set (J := list_to_set job_skills : gset string).
  exists (score_candidate J
            (candidate_details make_doc ner title (UploadedFile.name resume_file)
               (read_upload resume_file).1)).
  assert (Hsize : size (J ∩ J) = length job_skills).
  { rewrite intersection_idemp_L. apply size_list_to_set, NoDup_elements. }
  split; [|split; [done|split]].
  - unfold analyze. simpl. apply elem_of_rank_candidates.
    eexists. split; [|reflexivity].
    rewrite resume_candidates_readable.
    set (g := fun f => candidate_details make_doc ner title
                         (UploadedFile.name f) (read_upload f).1).
    change (g resume_file ∈ map g (readable resume_files)).
    apply list_elem_of_In, (in_map g).
    apply list_elem_of_In, list_elem_of_filter. done.
  - simpl. rewrite Hsame. fold job_skills. fold J. by rewrite Hsize.
  - intros Hskills. rewrite score_candidate_key. simpl.
    rewrite Hsame. fold job_skills. fold J.
    assert (HJ : J ≠ ∅).
    { intros E. destruct job_skills as [|s l] eqn:Es; [done|].
      assert (s ∈ J) as Hs by (apply elem_of_list_to_set; left).
      rewrite E in Hs. by apply elem_of_empty in Hs. }
    destruct (decide (J = ∅)); [done|].
    apply percentage_full; [by apply size_pos_nonempty|].
    rewrite intersection_idemp_L. done.
Qed.

Lemma piece_refl (s : string) : piece s s.
Proof. exists EmptyString, EmptyString. by rewrite string_app_nil_r. Qed.

Lemma piece_prefix (b s t : string) : piece b s → piece b (s +:+ t).
Proof. intros (p & q & ->). exists p, (q +:+ t). by string_norm. Qed.

Lemma resume_context_keeps (b ctx : string) (f : UploadedFile.t) :
  piece b ctx → piece b (resume_context ctx f).
Proof.
  intros H. unfold resume_context.
  destruct (decide _); [done|]. by apply piece_prefix.
Qed.

Lemma fold_resume_context_keeps (b ctx : string) (fs : list UploadedFile.t) :
  piece b ctx → piece b (fold_left resume_context fs ctx).
Proof.
  revert ctx. induction fs as [|f fs IH]; intros ctx H; [done|].
  simpl. by apply IH, resume_context_keeps.
Qed.

(** X22.  The context of the chat holds the text of the job description
    and the text of every resume, in whatever place the resume is ranked. *)
Theorem analyze_context_holds_texts
    (job_description_file : UploadedFile.t) (resume_files : list UploadedFile.t) :
  let full_qa_context :=
    (analyze make_doc ner title job_description_file resume_files).2 in
  piece (read_upload job_description_file).1 full_qa_context
  ∧ Forall (fun resume_file => piece (read_upload resume_file).1 full_qa_context)
           resume_files.
Proof.
  unfold analyze. simpl. split.
  - apply fold_resume_context_keeps.
    exists ("**JOB DESCRIPTION:**" +:+ nl), EmptyString.
    by rewrite string_app_nil_r, string_app_assoc.
  - generalize ("**JOB DESCRIPTION:**" +:+ nl +:+ (read_upload job_description_file).1).
    induction resume_files as [|f fs IH]; intros ctx; [constructor|].
    simpl. constructor; [|apply IH].
    apply fold_resume_context_keeps. unfold resume_context.
    destruct (decide ((read_upload f).1 = EmptyString)) as [->|Hne].
    + exists ctx, EmptyString. by rewrite string_app_nil_r.
    + exists (ctx +:+ nl +:+ nl +:+ "--- RESUME: " +:+ UploadedFile.name f
              +:+ " ---" +:+ nl), EmptyString.
      rewrite string_app_nil_r. by string_norm.
Qed.

End AnalyzeFacts.

Lemma analyze_same_text_witness :
  let job_description_file := pdf_upload "jd.pdf" "We need Python and SQL" in
  let resume_file := pdf_upload "ann.pdf" "We need Python and SQL" in
  let resume_files := [broken_upload "bob.pdf"; resume_file] in
  let job_skills :=
    refined_extract_skills SimpleNLP.words_doc SimpleNLP.title
      (read_upload job_description_file).1
      (skill_patterns SimpleNLP.words_doc) in
  ∃ c, c ∈ (analyze SimpleNLP.words_doc SimpleNLP.capitalised_after_at
              SimpleNLP.title job_description_file resume_files).1
       ∧ name c = UploadedFile.name resume_file
       ∧ match_score c = Some (length job_skills)
       ∧ (job_skills ≠ [] → (percentage_key c == 100)%Q).
Proof.
  apply (analyze_same_text SimpleNLP.words_doc SimpleNLP.capitalised_after_at
           SimpleNLP.title).
  - right. left.
  - reflexivity.
  - vm_compute. discriminate.
Defined.

(** ** The answer of the chat *)

(** The listing that gives the models [ms] and goes on as [rest]. *)
Definition items (ms : list ListedModel) (rest : listing) : listing :=
  fold_right Item rest ms.

Definition supports (m : ListedModel) : Prop :=
  "generateContent" ∈ supported_generation_methods m.

Lemma first_supporting_items (before : list ListedModel) (rest : listing) :
  Forall (fun m => ¬ supports m) before →
  first_supporting (items before rest) = first_supporting rest.
Proof.
  induction 1 as [|m ms Hm _ IH]; [done|]. simpl.
  by rewrite bool_decide_eq_false_2.
Qed.

Section GeminiFacts.

Variable list_models : string → listing.
Variable generate_content : string → string → string → outcome string.

(** X23.  The chat asks the first listed model that supports
    'generateContent' and looks no further: what the listing gives after
    that model, even an exception, has no effect on the answer. *)
Theorem get_chatbot_response_first_supporting
    (question context api_key : string)
    (before : list ListedModel) (m : ListedModel) (rest : listing) :
  list_models api_key = items before (Item m rest) →
  Forall (fun m' => ¬ supports m') before →
  supports m →
  model_name m ≠ EmptyString →
  get_chatbot_response list_models generate_content question context api_key
  = match generate_content api_key (model_name m) (prompt context question) with
    | Returns text => (text, [])
    | Raises _ => (error_apology, [st_error "An error occurred with the Gemini API"])
    end.
Proof.
  intros Hlist Hbefore Hm Hname. unfold get_chatbot_response.
  rewrite Hlist, (first_supporting_items _ _ Hbefore). simpl.
  rewrite bool_decide_eq_true_2 by done.
  by destruct (model_name m).
Qed.

(** X24.  [get_chatbot_response] always answers: with the text a model
    that supports 'generateContent' generated for the prompt, and then
    nothing is put on the page, or with one of its two apologies beside
    one error message. *)
Theorem get_chatbot_response_answers (question context api_key : string) :
  let response :=
    get_chatbot_response list_models generate_content question context api_key in
  (response.2 = []
   ∧ ∃ name, generate_content api_key name (prompt context question)
             = Returns response.1)
  ∨ ((response.1 = no_model_apology ∨ response.1 = error_apology)
     ∧ length response.2 = 1%nat).
Proof.
  unfold get_chatbot_response.
  destruct (first_supporting (list_models api_key)) as [[[|c name]|]|e]; simpl;
    try (right; split; [by left|done]); try (right; split; [by right|done]).
  destruct (generate_content _ _ _) as [text|e] eqn:E; simpl.
  - left. split; [done|]. by exists (String c name).
  - right. split; [by right|done].
Qed.

End GeminiFacts.

(** A listing that fails after its second model, and a service that
    answers every prompt. *)
Definition example_listing (api_key : string) : listing :=
  Item {| model_name := "models/embedding-001";
          supported_generation_methods := ["embedContent"] |}
    (Item {| model_name := "models/gemini-pro";
             supported_generation_methods := ["generateContent"; "countTokens"] |}
       (Fails OtherException)).

Definition example_generate (api_key model prompt : string) : outcome string :=
  Returns ("An answer of " +:+ model).

Lemma get_chatbot_response_first_supporting_witness :
  get_chatbot_response example_listing example_generate
    "Who knows Python?" "**JOB DESCRIPTION:**" "key"
  = match example_generate "key" "models/gemini-pro"
            (prompt "**JOB DESCRIPTION:**" "Who knows Python?") with
    | Returns text => (text, [])
    | Raises _ => (error_apology, [st_error "An error occurred with the Gemini API"])
    end.
Proof.
  apply (get_chatbot_response_first_supporting example_listing example_generate
           _ _ _
           [{| model_name := "models/embedding-001";
               supported_generation_methods := ["embedContent"] |}]
           {| model_name := "models/gemini-pro";
              supported_generation_methods := ["generateContent"; "countTokens"] |}
           (Fails OtherException)).
  - reflexivity.
  - constructor; [|constructor]. unfold supports. simpl.
    rewrite elem_of_cons. intros [|?%elem_of_nil]; done.
  - unfold supports. simpl. left.
  - discriminate.
Defined.

(** ** The session *)


(** The analysis starts in this run. *)
Definition analysis_starts (w : Widgets) : Prop :=
  analyze_button w = true ∧ is_Some (job_description_file w) ∧ resume_files w ≠ [].

(** A question is asked in this run. *)
Definition asks (w : Widgets) : Prop :=
  ∃ c q, user_question w = Some (String c q).

Section ScriptFacts.

Variable make_doc : string → Doc.
Variable ner : Doc → list Span.
Variable title : string → string.
Variable list_models : string → listing.
Variable generate_content : string → string → string → outcome string.
Variable displays : list Candidate → bool.

Local Abbreviation run_script :=
  (run make_doc ner title list_models generate_content displays).


(** X26.  No message is recorded before an analysis is done, without a
    configured key, or without a question: such a run leaves the session
    as the analysis block left it. *)
Theorem run_without_chat (s : SessionState) (w : Widgets) :
  analysis_done (analysis_step make_doc ner title s w) = false
  ∨ configured_key w = None
  ∨ ¬ asks w →
  run_script s w = analysis_step make_doc ner title s w.
Proof.
  unfold run. intros [H|[H|H]].
  - by rewrite H.
  - rewrite H. by repeat case_match.
  - destruct (analysis_done _); [|done].
    destruct (ranked_candidates _); [|done].
    destruct (displays _); [|done].
    destruct (configured_key w); [|done].
    unfold chat_step. destruct (user_question w) as [[|c q]|] eqn:E; try done.
    exfalso. apply H. by exists c, q.
Qed.

End ScriptFacts.

(** A run in which the analysis starts and a question is asked, with and
    without a key. *)
Definition example_widgets (key : option string) : Widgets :=
  {| job_description_file := Some (pdf_upload "jd.pdf" "We need Python and SQL");
     resume_files := [broken_upload "bob.pdf";
                      pdf_upload "ann.pdf" "I use Python daily"];
     analyze_button := true;
     GEMINI_API_KEY := key;
     user_question := Some "Who knows Python?" |}.

Definition example_run : SessionState → Widgets → SessionState :=
  run SimpleNLP.words_doc SimpleNLP.capitalised_after_at SimpleNLP.title
      example_listing example_generate (fun _ => true).

Lemma run_without_chat_witness :
  example_run new_session (example_widgets (Some "YOUR_TOKEN_HERE"))
  = analysis_step SimpleNLP.words_doc SimpleNLP.capitalised_after_at SimpleNLP.title
      new_session (example_widgets (Some "YOUR_TOKEN_HERE")).
Proof.
  apply run_without_chat. right. left. reflexivity.
Defined.

Example example_run_history :
  chat_history (example_run new_session (example_widgets (Some "key")))
  = [ {| role := "user"; content := "Who knows Python?" |};
      {| role := "assistant"; content := "An answer of models/gemini-pro" |} ]
  ∧ map name
        (default [] (ranked_candidates
                       (example_run new_session (example_widgets (Some "key")))))
    = ["ann.pdf"].
Proof. split; vm_compute; reflexivity. Qed.

(** * Properties of the code as it runs *)

(** ** Rounding to a double *)

Section Binary64Facts.
Import Binary64.
Local Open Scope Q_scope.

Lemma pow2_pos (k : Z) : 0 < pow2 k.
Proof. apply Qpower_0_lt. reflexivity. Qed.

Lemma pow2_add (j k : Z) : pow2 (j + k) == pow2 j * pow2 k.
Proof. apply Qpower_plus. discriminate. Qed.

Lemma pow2_le (j k : Z) : (j <= k)%Z → pow2 j <= pow2 k.
Proof. intros H. apply Qpower_le_compat_l; [done|discriminate]. Qed.

Lemma pow2_lt (j k : Z) : (j < k)%Z → pow2 j < pow2 k.
Proof. intros H. apply Qpower_lt_compat_l; [done|reflexivity]. Qed.

Lemma pow2_lt_inv (j k : Z) : pow2 j < pow2 k → (j < k)%Z.
Proof. intros H. apply (Qpower_lt_compat_l_inv 2); [done|reflexivity]. Qed.

Lemma pow2_succ (k : Z) : pow2 (k + 1) == 2 * pow2 k.
Proof. rewrite pow2_add. unfold pow2 at 2. simpl. ring. Qed.

Lemma pow2_inject (n : Z) : (0 <= n)%Z → inject_Z (2 ^ n) == pow2 n.
Proof. intros H. unfold pow2. by rewrite Zpower_Qpower. Qed.

Lemma ilog2_spec (q : Q) :
  0 < q → pow2 (ilog2 q) <= q ∧ q < pow2 (ilog2 q + 1).
Proof.
  intros Hq. unfold ilog2.
  set (a := Qnum q). set (b := Zpos (Qden q)).
  assert (Ha : (0 < a)%Z) by (unfold Qlt in Hq; simpl in Hq; unfold a; lia).
  assert (Hb : (0 < b)%Z) by (unfold b; lia).
  destruct (Z.log2_spec a Ha) as [Ha1 Ha2].
  destruct (Z.log2_spec b Hb) as [Hb1 Hb2].
  pose proof (Z.log2_nonneg a) as Hla. pose proof (Z.log2_nonneg b) as Hlb.
  set (la := Z.log2 a) in *. set (lb := Z.log2 b) in *.
  assert (Hqb : q * inject_Z b == inject_Z a).
  { unfold a, b. destruct q as [qn qd]. unfold Qeq. simpl. lia. }
  assert (HA1 : pow2 la <= inject_Z a) by (rewrite <- pow2_inject, <- Zle_Qle; done).
  assert (HA2 : inject_Z a < 2 * pow2 la).
  { rewrite <- pow2_succ, <- pow2_inject, <- Zlt_Qlt by lia. done. }
  assert (HB1 : pow2 lb <= inject_Z b) by (rewrite <- pow2_inject, <- Zle_Qle; done).
  assert (HB2 : inject_Z b < 2 * pow2 lb).
  { rewrite <- pow2_succ, <- pow2_inject, <- Zlt_Qlt by lia. done. }
  pose proof (pow2_pos la) as HPa. pose proof (pow2_pos lb) as HPb.
  pose proof (pow2_pos (la - lb)) as HPd.
  assert (Hd : pow2 la == pow2 (la - lb) * pow2 lb).
  { rewrite <- pow2_add. by replace (la - lb + lb)%Z with la by lia. }
  set (B := inject_Z b) in *. set (A := inject_Z a) in *.
  set (Pa := pow2 la) in *. set (Pb := pow2 lb) in *. set (Pd := pow2 (la - lb)) in *.
  assert (H1 : q * Pb <= q * B) by (apply Qmult_le_l; done).
  assert (H2 : q * B < q * (2 * Pb)) by (apply Qmult_lt_l; done).
  assert (Hup : q < 2 * Pd).
  { apply (Qmult_lt_r _ _ Pb); [done|]. lra. }
  assert (Hlow : Pd <= 2 * q).
  { apply (Qmult_le_r _ _ Pb); [done|]. lra. }
  destruct (Qle_bool Pd q) eqn:E.
  - apply Qle_bool_iff in E. split; [done|]. unfold Pd in *. by rewrite pow2_succ.
  - assert (Hlt : q < Pd).
    { apply Qnot_le_lt. intros H. apply Qle_bool_iff in H. congruence. }
    replace (la - lb - 1 + 1)%Z with (la - lb)%Z by lia. split; [|done].
    pose proof (pow2_succ (la - lb - 1)) as Hs.
    replace (la - lb - 1 + 1)%Z with (la - lb)%Z in Hs by lia.
    fold Pd in Hs. lra.
Qed.

Lemma ilog2_unique (q : Q) (e : Z) :
  pow2 e <= q → q < pow2 (e + 1) → ilog2 q = e.
Proof.
  intros H1 H2.
  assert (Hq : 0 < q) by (pose proof (pow2_pos e); lra).
  destruct (ilog2_spec q Hq) as [H3 H4].
  assert (ilog2 q < e + 1)%Z by (apply pow2_lt_inv; lra).
  assert (e < ilog2 q + 1)%Z by (apply pow2_lt_inv; lra).
  lia.
Qed.

Lemma ilog2_mono (x y : Q) : 0 < x → x <= y → (ilog2 x <= ilog2 y)%Z.
Proof.
  intros Hx Hxy.
  destruct (ilog2_spec x Hx) as [H1 _].
  destruct (ilog2_spec y) as [_ H2]; [lra|].
  assert (ilog2 x < ilog2 y + 1)%Z by (apply pow2_lt_inv; lra).
  lia.
Qed.

Lemma ilog2_proper (x y : Q) : 0 < x → x == y → ilog2 x = ilog2 y.
Proof.
  intros Hx Hxy. destruct (ilog2_spec x Hx) as [H1 H2].
  symmetry. apply ilog2_unique; lra.
Qed.

Lemma nearest_even_floor (m : Q) :
  nearest_even m = Qfloor m ∧ m - inject_Z (Qfloor m) <= 1 # 2
  ∨ nearest_even m = (Qfloor m + 1)%Z ∧ 1 # 2 <= m - inject_Z (Qfloor m).
Proof.
  unfold nearest_even.
  destruct (Qcompare_spec (m - inject_Z (Qfloor m)) (1 # 2)) as [H|H|H].
  - destruct (Z.even (Qfloor m)); [left|right]; split; try done; rewrite H; lra.
  - left. split; [done|]. by apply Qlt_le_weak.
  - right. split; [done|]. by apply Qlt_le_weak.
Qed.

Lemma nearest_even_bounds (m : Q) :
  m - (1 # 2) <= inject_Z (nearest_even m) ∧ inject_Z (nearest_even m) <= m + (1 # 2).
Proof.
  pose proof (Qfloor_le m) as H1. pose proof (Qlt_floor m) as H2.
  rewrite inject_Z_plus in H2. change (inject_Z 1) with 1 in H2.
  destruct (nearest_even_floor m) as [[-> H]|[-> H]];
    rewrite ?inject_Z_plus; change (inject_Z 1) with 1; split; lra.
Qed.

Lemma nearest_even_proper (m m' : Q) : m == m' → nearest_even m = nearest_even m'.
Proof.
  intros H. unfold nearest_even. rewrite (Qfloor_comp _ _ H).
  assert (E : (m - inject_Z (Qfloor m') ?= 1 # 2) = (m' - inject_Z (Qfloor m') ?= 1 # 2))
    by (apply Qcompare_comp; [by rewrite H|reflexivity]).
  by rewrite E.
Qed.

Lemma nearest_even_inject (z : Z) : nearest_even (inject_Z z) = z.
Proof.
  unfold nearest_even. rewrite Qfloor_Z.
  destruct (Qcompare_spec (inject_Z z - inject_Z z) (1 # 2)) as [H|H|H];
    [lra|done|lra].
Qed.

Lemma nearest_even_mono (m m' : Q) :
  m <= m' → (nearest_even m <= nearest_even m')%Z.
Proof.
  intros Hm. pose proof (Qfloor_resp_le _ _ Hm) as Hf.
  destruct (Z.eq_dec (Qfloor m) (Qfloor m')) as [E|E].
  - unfold nearest_even. rewrite <- E.
    destruct (Qcompare_spec (m - inject_Z (Qfloor m)) (1 # 2)) as [H|H|H];
      destruct (Qcompare_spec (m' - inject_Z (Qfloor m)) (1 # 2)) as [H'|H'|H'];
      try destruct (Z.even (Qfloor m)); try lia; lra.
  - destruct (nearest_even_floor m) as [[-> _]|[-> _]];
      destruct (nearest_even_floor m') as [[-> _]|[-> _]]; lia.
Qed.

Lemma round_positive_eq (q : Q) :
  round_positive q
  == inject_Z (nearest_even (q / pow2 (ulp_exponent q))) * pow2 (ulp_exponent q).
Proof. apply Qred_correct. Qed.

Lemma scaled_eq (q : Q) (k : Z) : q / pow2 k * pow2 k == q.
Proof. pose proof (pow2_pos k). field. lra. Qed.

Lemma round_positive_le_pow2 (q : Q) (j : Z) :
  (0 <= j)%Z → q <= pow2 (ulp_exponent q + j) →
  round_positive q <= pow2 (ulp_exponent q + j).
Proof.
  intros Hj Hq. rewrite round_positive_eq.
  set (k := ulp_exponent q) in *. pose proof (pow2_pos k) as Hk.
  rewrite Z.add_comm, pow2_add. apply Qmult_le_compat_r; [|lra].
  rewrite <- (pow2_inject j Hj), <- Zle_Qle.
  rewrite <- (nearest_even_inject (2 ^ j)). apply nearest_even_mono.
  rewrite (pow2_inject j Hj). apply Qle_shift_div_r; [done|].
  by rewrite <- pow2_add, Z.add_comm.
Qed.

Lemma round_positive_ge_pow2 (q : Q) (j : Z) :
  (0 <= j)%Z → pow2 (ulp_exponent q + j) <= q →
  pow2 (ulp_exponent q + j) <= round_positive q.
Proof.
  intros Hj Hq. rewrite round_positive_eq.
  set (k := ulp_exponent q) in *. pose proof (pow2_pos k) as Hk.
  rewrite Z.add_comm, pow2_add. apply Qmult_le_compat_r; [|lra].
  rewrite <- (pow2_inject j Hj), <- Zle_Qle.
  rewrite <- (nearest_even_inject (2 ^ j)) at 1. apply nearest_even_mono.
  rewrite (pow2_inject j Hj). apply Qle_shift_div_l; [done|].
  by rewrite <- pow2_add, Z.add_comm.
Qed.

Lemma ulp_exponent_mono (x y : Q) :
  0 < x → x <= y → (ulp_exponent x <= ulp_exponent y)%Z.
Proof.
  intros Hx Hxy. pose proof (ilog2_mono x y Hx Hxy). unfold ulp_exponent. lia.
Qed.

Lemma round_positive_mono (x y : Q) :
  0 < x → x <= y → round_positive x <= round_positive y.
Proof.
  intros Hx Hxy.
  assert (Hy : 0 < y) by lra.
  pose proof (ulp_exponent_mono x y Hx Hxy) as Hk.
  destruct (Z.eq_dec (ulp_exponent x) (ulp_exponent y)) as [E|E].
  - rewrite !round_positive_eq, E.
    pose proof (pow2_pos (ulp_exponent y)) as Hp.
    apply Qmult_le_compat_r; [|lra].
    rewrite <- Zle_Qle. apply nearest_even_mono.
    apply Qmult_le_compat_r; [done|]. apply Qinv_le_0_compat. lra.
  - destruct (ilog2_spec x Hx) as [_ Hx2]. destruct (ilog2_spec y Hy) as [Hy1 _].
    assert (Hky : ulp_exponent y = (ilog2 y - 52)%Z) by (unfold ulp_exponent in *; lia).
    assert (Hkx : (ilog2 x - 52 <= ulp_exponent x)%Z) by (unfold ulp_exponent; lia).
    apply Qle_trans with (pow2 (ulp_exponent x + 53)).
    + apply round_positive_le_pow2; [lia|].
      apply Qle_trans with (pow2 (ilog2 x + 1)); [lra|]. apply pow2_le. lia.
    + apply Qle_trans with (pow2 (ulp_exponent y + 52)); [apply pow2_le; lia|].
      apply round_positive_ge_pow2; [lia|].
      by replace (ulp_exponent y + 52)%Z with (ilog2 y) by lia.
Qed.

Lemma round_positive_nonneg (q : Q) : 0 < q → 0 <= round_positive q.
Proof.
  intros Hq. rewrite round_positive_eq.
  pose proof (pow2_pos (ulp_exponent q)) as Hp.
  apply Qmult_le_0_compat; [|lra].
  change 0 with (inject_Z 0). rewrite <- Zle_Qle.
  rewrite <- (nearest_even_inject 0) at 1. apply nearest_even_mono.
  apply Qle_shift_div_l; [done|]. change (inject_Z 0) with 0. lra.
Qed.

(** The distance to a number that is not subnormal is at most [2^-53] of
    that number. *)
Lemma round_positive_error (q : Q) :
  pow2 (-1022) <= q →
  q - q * (1 # 9007199254740992) <= round_positive q
  ∧ round_positive q <= q + q * (1 # 9007199254740992).
Proof.
  intros Hmin.
  assert (Hq : 0 < q) by (pose proof (pow2_pos (-1022)); lra).
  destruct (ilog2_spec q Hq) as [H1 H2].
  assert (He : (-1022 < ilog2 q + 1)%Z) by (apply pow2_lt_inv; lra).
  assert (Hk : ulp_exponent q = (ilog2 q - 52)%Z) by (unfold ulp_exponent; lia).
  rewrite round_positive_eq.
  pose proof (scaled_eq q (ulp_exponent q)) as Hm.
  destruct (nearest_even_bounds (q / pow2 (ulp_exponent q))) as [Hl Hu].
  set (m := q / pow2 (ulp_exponent q)) in *.
  set (N := inject_Z (nearest_even m)) in *.
  pose proof (pow2_pos (ulp_exponent q)) as HP.
  assert (HPq : pow2 (ulp_exponent q) * 4503599627370496 <= q).
  { apply Qle_trans with (pow2 (ilog2 q)); [|done].
    replace (ilog2 q) with (ulp_exponent q + 52)%Z by lia.
    rewrite pow2_add. apply Qle_lteq. right. reflexivity. }
  set (P := pow2 (ulp_exponent q)) in *.
  apply (Qmult_le_compat_r _ _ P) in Hl; [|lra].
  apply (Qmult_le_compat_r _ _ P) in Hu; [|lra].
  split; lra.
Qed.

Lemma round_of_positive (q : Q) : 0 < q → round q = round_positive q.
Proof.
  intros Hq. unfold round. destruct (Qcompare_spec q 0) as [H|H|H]; [lra|lra|done].
Qed.

Lemma round_of_zero (q : Q) : q == 0 → round q = 0.
Proof.
  intros Hq. unfold round. destruct (Qcompare_spec q 0) as [H|H|H]; [done|lra|lra].
Qed.

Lemma round_positive_proper (x y : Q) :
  0 < x → x == y → round_positive x = round_positive y.
Proof.
  intros Hx Hxy. unfold round_positive, ulp_exponent.
  rewrite (ilog2_proper x y Hx Hxy).
  set (k := Z.max (ilog2 y - 52) (-1074)).
  rewrite (nearest_even_proper (x / pow2 k) (y / pow2 k)) by (by rewrite Hxy).
  reflexivity.
Qed.

Lemma round_proper (x y : Q) : 0 <= x → x == y → round x = round y.
Proof.
  intros Hx Hxy. destruct (Qle_lt_or_eq _ _ Hx) as [H|H].
  - rewrite !round_of_positive by lra. by apply round_positive_proper.
  - rewrite !round_of_zero; [done|lra|lra].
Qed.

Lemma round_nonneg (q : Q) : 0 <= q → 0 <= round q.
Proof.
  intros Hq. destruct (Qle_lt_or_eq _ _ Hq) as [H|H].
  - rewrite round_of_positive by done. by apply round_positive_nonneg.
  - rewrite round_of_zero; [lra|lra].
Qed.

(** Rounding keeps the order. *)
Lemma round_mono (x y : Q) : 0 <= x → x <= y → round x <= round y.
Proof.
  intros Hx Hxy. destruct (Qle_lt_or_eq _ _ Hx) as [H|H].
  - rewrite !round_of_positive by lra. by apply round_positive_mono.
  - rewrite (round_of_zero x) by lra. apply round_nonneg. lra.
Qed.

Lemma round_error (q : Q) :
  pow2 (-1022) <= q →
  q - q * (1 # 9007199254740992) <= round q
  ∧ round q <= q + q * (1 # 9007199254740992).
Proof.
  intros Hmin. rewrite round_of_positive; [by apply round_positive_error|].
  pose proof (pow2_pos (-1022)). lra.
Qed.

Local Abbreviation u := (1 # 9007199254740992).

Lemma inject_nat_pos (n : nat) : (0 < n)%nat → 0 < inject_Z (Z.of_nat n).
Proof. intros Hn. change 0 with (inject_Z 0). rewrite <- Zlt_Qlt. lia. Qed.

Lemma ratio_mul (m n : nat) :
  (0 < n)%nat → ratio m n * inject_Z (Z.of_nat n) == inject_Z (Z.of_nat m).
Proof.
  intros Hn. pose proof (inject_nat_pos n Hn). unfold ratio. field. lra.
Qed.

Lemma ratio_bounds (m n : nat) :
  (0 < n)%nat → (m ≤ n)%nat → 0 <= ratio m n ∧ ratio m n <= 1.
Proof.
  intros Hn Hm. pose proof (inject_nat_pos n Hn) as HN.
  unfold ratio. split.
  - apply Qle_shift_div_l; [done|]. rewrite Qmult_0_l.
    change 0 with (inject_Z 0). rewrite <- Zle_Qle. lia.
  - apply Qle_shift_div_r; [done|]. rewrite Qmult_1_l, <- Zle_Qle. lia.
Qed.

Lemma ratio_mono (m1 m2 n : nat) :
  (0 < n)%nat → (m1 ≤ m2)%nat → ratio m1 n <= ratio m2 n.
Proof.
  intros Hn Hm. pose proof (inject_nat_pos n Hn) as HN. unfold ratio.
  apply Qmult_le_compat_r; [rewrite <- Zle_Qle; lia|].
  apply Qinv_le_0_compat. lra.
Qed.

(** The quotient of two lengths is not subnormal. *)
Lemma ratio_ge_pow2 (m n : nat) (k : Z) :
  (0 < m)%nat → (0 < n)%nat → (0 <= k)%Z → (Z.of_nat n <= 2 ^ k)%Z →
  pow2 (- k) <= ratio m n.
Proof.
  intros Hm Hn Hk Hnk. pose proof (inject_nat_pos n Hn) as HN.
  unfold ratio. apply Qle_shift_div_l; [done|].
  apply Qle_trans with (pow2 (- k) * pow2 k).
  - apply Qmult_le_l; [apply pow2_pos|].
    rewrite <- (pow2_inject k Hk), <- Zle_Qle. done.
  - rewrite <- pow2_add. replace (- k + k)%Z with 0%Z by lia.
    change (pow2 0) with (inject_Z 1). rewrite <- Zle_Qle. lia.
Qed.

Lemma percentage_bounds_64 (m n : nat) :
  (0 < n)%nat → (m ≤ n)%nat →
  0 <= Binary64.percentage m n ∧ Binary64.percentage m n <= 100.
Proof.
  intros Hn Hm. destruct (ratio_bounds m n Hn Hm) as [H0 H1].
  unfold Binary64.percentage, mul, int_div. fold (ratio m n).
  pose proof (round_nonneg _ H0) as Ha0.
  pose proof (round_mono _ _ H0 H1) as Ha1.
  change (round 1) with 1 in Ha1.
  split; [apply round_nonneg; lra|].
  change 100 with (round 100) at 2. apply round_mono; lra.
Qed.

Lemma percentage_mono_64 (m1 m2 n : nat) :
  (0 < n)%nat → (m1 ≤ m2)%nat →
  Binary64.percentage m1 n <= Binary64.percentage m2 n.
Proof.
  intros Hn Hm. pose proof (ratio_mono m1 m2 n Hn Hm) as Hr.
  assert (H0 : 0 <= ratio m1 n).
  { unfold ratio. pose proof (inject_nat_pos n Hn).
    apply Qle_shift_div_l; [done|]. rewrite Qmult_0_l.
    change 0 with (inject_Z 0). rewrite <- Zle_Qle. lia. }
  unfold Binary64.percentage, mul, int_div. fold (ratio m1 n) (ratio m2 n).
  pose proof (round_nonneg _ H0) as Ha0.
  pose proof (round_mono _ _ H0 Hr) as Ha.
  apply round_mono; lra.
Qed.

Lemma percentage_full_64 (n : nat) : (0 < n)%nat → Binary64.percentage n n = 100.
Proof.
  intros Hn. unfold Binary64.percentage, mul, int_div. fold (ratio n n).
  assert (H1 : ratio n n == 1).
  { unfold ratio. field. pose proof (inject_nat_pos n Hn). lra. }
  rewrite (round_proper (ratio n n) 1) by lra. reflexivity.
Qed.

Lemma percentage_none_64 (n : nat) : (0 < n)%nat → Binary64.percentage 0 n = 0.
Proof.
  intros Hn. unfold Binary64.percentage, mul, int_div. fold (ratio 0 n).
  assert (H1 : ratio 0 n == 0).
  { unfold ratio. simpl. field. pose proof (inject_nat_pos n Hn). lra. }
  rewrite (round_proper (ratio 0 n) 0) by lra. reflexivity.
Qed.

(** Two roundings: the quotient, then its product with 100. *)
Lemma percentage_error_sharp (x : Q) :
  pow2 (-1022) <= x →
  x * 100 * ((1 - u) * (1 - u)) <= mul (round x) 100
  ∧ mul (round x) 100 <= x * 100 * ((1 + u) * (1 + u)).
Proof.
  intros Hx. pose proof (pow2_pos (-1022)) as Hp.
  destruct (round_error x Hx) as [Hl Hu].
  unfold mul. destruct (round_error (round x * 100)) as [Hl' Hu']; [lra|].
  split; lra.
Qed.

(** The percentage in doubles is within [2^-51] of the exact one. *)
Lemma percentage_error_64 (m n : nat) :
  (0 < n)%nat → (Z.of_nat n <= 2 ^ 1022)%Z →
  ratio m n * 100 - ratio m n * 100 * (1 # 2251799813685248)
    <= Binary64.percentage m n
  ∧ Binary64.percentage m n
    <= ratio m n * 100 + ratio m n * 100 * (1 # 2251799813685248).
Proof.
  intros Hn Hmax. destruct m as [|m].
  - rewrite (percentage_none_64 n Hn).
    assert (H0 : ratio 0 n == 0).
    { unfold ratio. simpl. field. pose proof (inject_nat_pos n Hn). lra. }
    rewrite H0. split; lra.
  - assert (Hx : pow2 (-1022) <= ratio (S m) n)
      by (apply (ratio_ge_pow2 _ _ 1022); [lia|done|lia|done]).
    pose proof (pow2_pos (-1022)) as Hp.
    destruct (percentage_error_sharp _ Hx) as [Hl Hu].
    unfold Binary64.percentage, int_div. fold (ratio (S m) n).
    split; lra.
Qed.

(** Below [2^50] job skills a greater score gives a greater percentage. *)
Lemma percentage_strict_64 (m1 m2 n : nat) :
  (m1 < m2)%nat → (m2 ≤ n)%nat → (Z.of_nat n <= 2 ^ 50)%Z →
  Binary64.percentage m1 n < Binary64.percentage m2 n.
Proof.
  intros Hm Hmn Hmax.
  assert (Hn : (0 < n)%nat) by lia.
  pose proof (inject_nat_pos n Hn) as HN.
  pose proof (pow2_pos (-1022)) as Hp.
  assert (Hp50 : pow2 (-1022) <= pow2 (-50)) by (apply pow2_le; lia).
  change (pow2 (-50)) with (1 # 1125899906842624) in Hp50.
  assert (Hx2 : pow2 (-50) <= ratio m2 n)
    by (apply (ratio_ge_pow2 _ _ 50); [lia|done|lia|done]).
  change (pow2 (-50)) with (1 # 1125899906842624) in Hx2.
  destruct (percentage_error_sharp (ratio m2 n)) as [Hl2 _]; [lra|].
  unfold Binary64.percentage, int_div. fold (ratio m1 n) (ratio m2 n).
  destruct m1 as [|m1].
  - assert (H0 : ratio 0 n == 0) by (unfold ratio; simpl; field; lra).
    rewrite (round_proper (ratio 0 n) 0) by lra.
    change (mul (round 0) 100) with 0. lra.
  - assert (Hx1 : pow2 (-50) <= ratio (S m1) n)
      by (apply (ratio_ge_pow2 _ _ 50); [lia|done|lia|done]).
    change (pow2 (-50)) with (1 # 1125899906842624) in Hx1.
    destruct (percentage_error_sharp (ratio (S m1) n)) as [_ Hu1]; [lra|].
    destruct (ratio_bounds (S m1) n Hn) as [_ H1]; [lia|].
    assert (Hgap : (1 # 1125899906842624) <= ratio m2 n - ratio (S m1) n).
    { pose proof (ratio_mul (S m1) n Hn) as E1. pose proof (ratio_mul m2 n Hn) as E2.
      assert (HM : inject_Z (Z.of_nat (S m1)) + 1 <= inject_Z (Z.of_nat m2)).
      { change 1 with (inject_Z 1). rewrite <- inject_Z_plus, <- Zle_Qle. lia. }
      assert (HN50 : inject_Z (Z.of_nat n) <= 1125899906842624).
      { change 1125899906842624 with (inject_Z (2 ^ 50)). by rewrite <- Zle_Qle. }
      set (d := ratio m2 n - ratio (S m1) n).
      assert (Hd : 1 <= d * inject_Z (Z.of_nat n)) by (unfold d; lra).
      assert (Hd0 : 0 <= d).
      { unfold d. pose proof (ratio_mono (S m1) m2 n Hn ltac:(lia)). lra. }
      assert (Hle : d * inject_Z (Z.of_nat n) <= d * 1125899906842624).
      { rewrite (Qmult_comm d), (Qmult_comm d). by apply Qmult_le_compat_r. }
      lra. }
    lra.
Qed.

End Binary64Facts.

(** Some doubles, as CPython prints them: 0.1; (1 / 3) * 100, which is
    33.33333333333333; (7 / 100) * 100, which is 7.000000000000001;
    (11 / 20) * 100, which is 55.00000000000001; (3 / 5) * 100, which is
    60.0; and 100 / 3, which is 33.333333333333336.  Of two doubles as
    near, the even one: 2^53 + 1 gives 2^53 and 2^53 + 3 gives 2^53 + 4.
    Among the subnormal numbers, 2^-1075 gives 0 and 3 * 2^-1075 gives
    2 * 2^-1074. *)
Example binary64_values :
  Binary64.int_div 1 10 = (3602879701896397 # 36028797018963968)%Q
  ∧ Binary64.percentage 1 3 = (2345624805922133 # 70368744177664)%Q
  ∧ Binary64.percentage 7 100 = (7881299347898369 # 1125899906842624)%Q
  ∧ Binary64.percentage 11 20 = (7740561859543041 # 140737488355328)%Q
  ∧ Binary64.percentage 3 5 = 60%Q
  ∧ Binary64.int_div 100 3 = (4691249611844267 # 140737488355328)%Q
  ∧ Binary64.round 9007199254740993 = 9007199254740992%Q
  ∧ Binary64.round 9007199254740995 = 9007199254740996%Q
  ∧ Binary64.round (Binary64.pow2 (-1075)) = 0%Q
  ∧ (Binary64.round (3 * Binary64.pow2 (-1075)) == 2 * Binary64.pow2 (-1074))%Q.
Proof. vm_compute. by repeat split. Qed.

(** ** The ranking in doubles *)

Lemma elem_of_rank_candidates_run (job_skills : list string)
    (candidate_data : list Candidate) (c : Candidate) :
  c ∈ Runtime.rank_candidates job_skills candidate_data
  ↔ ∃ c0, c0 ∈ candidate_data
          ∧ c = Runtime.score_candidate (list_to_set job_skills) c0.
Proof.
  unfold Runtime.rank_candidates.
  rewrite sort_reverse_perm, !list_elem_of_In, in_map_iff.
  split; intros (c0 & H1 & H2); exists c0.
  - by rewrite list_elem_of_In.
  - by rewrite <- list_elem_of_In.
Qed.

(** The distance of the percentage in doubles to the exact one. *)
Lemma percentage_close (m n : nat) :
  (0 < n)%nat → (Z.of_nat n ≤ 2 ^ 1022)%Z →
  let exact := (100 * inject_Z (Z.of_nat m) / inject_Z (Z.of_nat n))%Q in
  (exact - exact * Binary64.pow2 (-51) <= Binary64.percentage m n)%Q
  ∧ (Binary64.percentage m n <= exact + exact * Binary64.pow2 (-51))%Q.
Proof.
  intros Hn Hmax exact.
  destruct (percentage_error_64 m n Hn Hmax) as [Hl Hu].
  assert (E : (exact == ratio m n * 100)%Q).
  { unfold exact, ratio. field. pose proof (inject_nat_pos n Hn). lra. }
  change (Binary64.pow2 (-51)) with (1 # 2251799813685248)%Q.
  rewrite E. by split.
Qed.

(** C2, as the code has it.  [rank_candidates] keeps every candidate, and
    in its result each candidate's [match_score] is the number of job
    skills among the candidate's skills.  Its [match_percentage] is 0 when
    there is no job skill, and otherwise the double
    [(match_score / len(job_skills_set)) * 100]: the quotient rounded to the
    nearest double, times 100, rounded again.  That double is 0 for a score
    of 0 and 100 for the score of all job skills, and differs from
    [100 * match_score / |job skills|] by at most [2^-51] of it, as long as
    the quotient is not subnormal: with at most [2^1022] job skills. *)
Theorem rank_candidates_score_and_double
    (job_skills : list string) (candidate_data : list Candidate) :
  let job_skills_set : gset string := list_to_set job_skills in
  (∀ c0, c0 ∈ candidate_data →
     ∃ c, c ∈ Runtime.rank_candidates job_skills candidate_data
          ∧ profile c = profile c0)
  ∧ (∀ c, c ∈ Runtime.rank_candidates job_skills candidate_data →
       let score := size (job_skills_set ∩ list_to_set (skills c)) in
       let exact :=
         (100 * inject_Z (Z.of_nat score)
          / inject_Z (Z.of_nat (size job_skills_set)))%Q in
       match_score c = Some score
       ∧ ∃ p, match_percentage c = Some p
           ∧ ((0 < size job_skills_set)%nat →
              p = Binary64.mul (Binary64.int_div score (size job_skills_set)) 100
              ∧ (score = 0%nat → p = 0%Q)
              ∧ (score = size job_skills_set → p = 100%Q)
              ∧ ((Z.of_nat (size job_skills_set) ≤ 2 ^ 1022)%Z →
                 (exact - exact * Binary64.pow2 (-51) <= p)%Q
                 ∧ (p <= exact + exact * Binary64.pow2 (-51))%Q))
           ∧ (size job_skills_set = 0%nat → p = 0%Q)).
Proof.
  intros J. split.
  - intros c0 Hc0. exists (Runtime.score_candidate J c0). split; [|done].
    apply elem_of_rank_candidates_run. by exists c0.
  - intros c Hc. apply elem_of_rank_candidates_run in Hc as (c0 & _ & ->).
    simpl. split; [done|]. fold J.
    destruct (decide (J = ∅)) as [HJ|HJ].
    + exists 0%Q. split; [done|]. split; [|done].
      rewrite HJ, size_empty. lia.
    + eexists. split; [reflexivity|]. split.
      * intros Hpos. split; [done|].
        fold (Binary64.percentage (size (J ∩ list_to_set (skills c0))) (size J)).
        split; [|split].
        -- intros ->. by apply percentage_none_64.
        -- intros ->. by apply percentage_full_64.
        -- intros Hmax. by apply percentage_close.
      * intros H0. apply size_pos_nonempty in HJ. lia.
Qed.

Definition three_skills : list string := ["Python"; "Sql"; "Git"].
Definition candidate_D := example_candidate "D" ["Python"; "Excel"].

(** C2, as the specification words it, fails: for a candidate with one of
    three job skills the code stores the double 33.33333333333333, which is
    [2345624805922133 / 2^46]: it is not [100 * 1 / 3], and it is not the
    double nearest to [100 * 1 / 3] either, which is what [100 * 1 / 3]
    gives in doubles. *)
Lemma rank_candidates_percentage_is_rounded :
  map (fun c => (match_score c, match_percentage c))
      (Runtime.rank_candidates three_skills [candidate_D])
  = [(Some 1%nat, Some (2345624805922133 # 70368744177664)%Q)]
  ∧ ¬ ((2345624805922133 # 70368744177664) == 100 * 1 / 3)%Q
  ∧ Binary64.int_div (100 * 1) 3
    ≠ (2345624805922133 # 70368744177664)%Q.
Proof.
  split; [vm_compute; reflexivity|]. split.
  - intros H. vm_compute in H. discriminate.
  - vm_compute. discriminate.
Qed.

(** ** The lexical scorer in doubles *)

Lemma calculate_score_run_eq (resume jd : string) :
  Runtime.calculate_score resume jd
  = if decide (word_tokens jd = ∅) then 0%Q
    else Binary64.percentage (size (word_tokens resume ∩ word_tokens jd))
                             (size (word_tokens jd)).
Proof. reflexivity. Qed.

(** C5, as the code has it.  [calculate_score] puts both texts in lower
    case and takes as tokens the maximal runs of the word characters of
    [re] (the alphanumeric characters, among them letters and digits
    outside ASCII, and the underscore); on texts of ASCII characters these
    are the runs of [[A-Za-z0-9_]].  It returns 0 when the job description
    has no token, and otherwise the double
    [(|resume tokens ∩ jd tokens| / |jd tokens|) * 100]: the quotient
    rounded to the nearest double, times 100, rounded again, which differs
    from [100 * |resume tokens ∩ jd tokens| / |jd tokens|] by at most
    [2^-51] of it, as long as the quotient is not subnormal: with at most
    [2^1022] tokens.  The texts are those of the model, of characters up to
    U+00FF. *)
Theorem calculate_score_word_overlap_double (resume jd : string) :
  let resume_tokens := word_tokens resume in
  let jd_tokens := word_tokens jd in
  let exact := overlap_percentage resume_tokens jd_tokens in
  (∀ s w, w ∈ PyStr.findall_word s ↔ maximal_run PyStr.is_word w s)
  ∧ (jd_tokens = ∅ → Runtime.calculate_score resume jd = 0%Q)
  ∧ (jd_tokens ≠ ∅ →
     Runtime.calculate_score resume jd
     = Binary64.mul
         (Binary64.int_div (size (resume_tokens ∩ jd_tokens)) (size jd_tokens)) 100
     ∧ ((Z.of_nat (size jd_tokens) ≤ 2 ^ 1022)%Z →
        (exact - exact * Binary64.pow2 (-51) <= Runtime.calculate_score resume jd)%Q
        ∧ (Runtime.calculate_score resume jd <= exact + exact * Binary64.pow2 (-51))%Q))
  ∧ (PyStr.all_chars PyStr.is_ascii resume = true →
     PyStr.all_chars PyStr.is_ascii jd = true →
     resume_tokens = ascii_tokens resume ∧ jd_tokens = ascii_tokens jd).
Proof.
  intros R J exact. split; [intros s w; apply elem_of_runs|].
  rewrite calculate_score_run_eq. fold R J.
  split; [|split].
  - intros E. by destruct (decide (J = ∅)).
  - intros E. destruct (decide (J = ∅)) as [|_]; [done|]. split; [done|].
    intros Hmax.
    destruct (percentage_close (size (R ∩ J)) (size J)) as [Hl Hu];
      [by apply size_pos_nonempty|done|].
    unfold exact, overlap_percentage, len_Q.
    destruct (decide (J = ∅)) as [|_]; [done|]. by split.
  - intros Hr Hj. split; by apply word_tokens_ascii.
Qed.

(** C5, as the specification words it, fails twice.  With the resume "caf"
    and the job description "caf" followed by U+00E9, a letter, the job
    description has the one token of four letters and the score is 0, where
    the runs of [[A-Za-z0-9_]] give the token "caf" and a score of 100.
    And for two of six tokens the code returns the double
    33.33333333333333, which is not [100 * 2 / 6]. *)
Lemma calculate_score_claim_fails :
  Runtime.calculate_score "caf" cafe = 0%Q
  ∧ (overlap_percentage (ascii_tokens "caf") (ascii_tokens cafe) == 100)%Q
  ∧ Runtime.calculate_score "Python and SQL experience"
                            "Looking for Python and Java skills"
    = (2345624805922133 # 70368744177664)%Q
  ∧ (overlap_percentage (ascii_tokens "Python and SQL experience")
                        (ascii_tokens "Looking for Python and Java skills")
     == 100 * 2 / 6)%Q
  ∧ ¬ ((2345624805922133 # 70368744177664) == 100 * 2 / 6)%Q.
Proof.
  split; [vm_compute; reflexivity|]. split; [by apply Qeq_bool_iff|].
  split; [vm_compute; reflexivity|]. split; [by apply Qeq_bool_iff|].
  intros H. vm_compute in H. discriminate.
Qed.

(** ** The extractors as calls *)

Section PipelineFacts.

Variable make_doc : string → Doc.
Variable ner : Doc → list Span.
Variable title : string → string.
Variable refuses : string → option exception.

(** When [nlp(text)] returns, the extractors return what they give on the
    document; when it raises, they raise. *)
Lemma extractors_return (text : string) :
  refuses text = None →
  (∀ patterns,
     Runtime.refined_extract_skills make_doc title refuses text patterns
     = Returns (refined_extract_skills make_doc title text patterns))
  ∧ Runtime.detailed_extract_experience make_doc ner refuses text
    = Returns (detailed_extract_experience make_doc ner text)
  ∧ Runtime.detailed_extract_education make_doc ner refuses text
    = Returns (detailed_extract_education make_doc ner text)
  ∧ ∀ file_name,
      Runtime.candidate_details make_doc ner title refuses file_name text
      = Returns (candidate_details make_doc ner title file_name text).
Proof.
  intros H.
  unfold Runtime.candidate_details, Runtime.refined_extract_skills,
    Runtime.detailed_extract_experience, Runtime.detailed_extract_education,
    Runtime.nlp.
  rewrite H. done.
Qed.

Lemma extractors_raise (text : string) (e : exception) :
  refuses text = Some e →
  (∀ patterns,
     Runtime.refined_extract_skills make_doc title refuses text patterns = Raises e)
  ∧ Runtime.detailed_extract_experience make_doc ner refuses text = Raises e
  ∧ Runtime.detailed_extract_education make_doc ner refuses text = Raises e
  ∧ ∀ file_name,
      Runtime.candidate_details make_doc ner title refuses file_name text = Raises e.
Proof.
  intros H.
  unfold Runtime.candidate_details, Runtime.refined_extract_skills,
    Runtime.detailed_extract_experience, Runtime.detailed_extract_education,
    Runtime.nlp.
  rewrite H. done.
Qed.

End PipelineFacts.

(** C6, as the code has it.  The extractors have no handler of their own.
    For a text on which the call [nlp(text)] returns, a field for which
    nothing qualifies is its one sentinel; with a tokenizer that finds no
    token in the empty text, a recognizer that finds no entity among no
    tokens and a pipeline that takes the empty text, the profile of the
    empty text has no skill and the three sentinels.  For a text on which
    [nlp(text)] raises, the skill matcher, the experience, the education and
    the profile raise that exception: none gives a sentinel.  The projects,
    which do not call the pipeline, are the sentinel whenever the pattern
    has no match. *)
Theorem extraction_sentinels_unless_nlp_raises
    (make_doc : string → Doc) (ner : Doc → list Span) (title : string → string)
    (refuses : string → option exception) :
  make_doc "" = [] →
  ner [] = [] →
  refuses "" = None →
  (∀ file_name,
     Runtime.candidate_details make_doc ner title refuses file_name ""
     = Returns
         {| name := file_name;
            skills := [];
            experience := ["Could not automatically extract experience."];
            education := ["Could not automatically extract education."];
            projects := ["No projects section found."];
            match_score := None;
            match_percentage := None |})
  ∧ (∀ text,
       refuses text = None →
       (∀ ent, ent ∈ ner (make_doc text) → label_ ent ≠ "ORG") →
       Runtime.detailed_extract_experience make_doc ner refuses text
       = Returns ["Could not automatically extract experience."])
  ∧ (∀ text,
       refuses text = None →
       (∀ ent, ent ∈ ner (make_doc text) →
               is_education (make_doc text) ent = false) →
       Runtime.detailed_extract_education make_doc ner refuses text
       = Returns ["Could not automatically extract education."])
  ∧ (∀ text,
       ProjectsRegex.findall text = [] →
       detailed_extract_projects text = ["No projects section found."])
  ∧ (∀ text e,
       refuses text = Some e →
       Runtime.refined_extract_skills make_doc title refuses text
         (skill_patterns make_doc) = Raises e
       ∧ Runtime.detailed_extract_experience make_doc ner refuses text = Raises e
       ∧ Runtime.detailed_extract_education make_doc ner refuses text = Raises e
       ∧ ∀ file_name,
           Runtime.candidate_details make_doc ner title refuses file_name text
           = Raises e).
Proof.
  intros Hdoc Hner Hempty.
  destruct (extraction_falls_back_to_sentinels make_doc ner title Hdoc Hner)
    as (Hprofile & Hexp & Hedu & Hproj).
  split; [|split; [|split; [|split; [done|]]]].
  - intros file_name.
    destruct (extractors_return make_doc ner title refuses "" Hempty) as (_ & _ & _ & ->).
    by rewrite Hprofile.
  - intros text Hret Hnone.
    destruct (extractors_return make_doc ner title refuses text Hret) as (_ & -> & _).
    by rewrite Hexp.
  - intros text Hret Hnone.
    destruct (extractors_return make_doc ner title refuses text Hret) as (_ & _ & -> & _).
    by rewrite Hedu.
  - intros text e Hraise.
    destruct (extractors_raise make_doc ner title refuses text e Hraise)
      as (Hs & He & Hd & Hc).
    by rewrite Hs, He, Hd.
Qed.

Lemma extraction_sentinels_unless_nlp_raises_witness :
  (∀ file_name,
     Runtime.candidate_details SimpleNLP.words_doc SimpleNLP.capitalised_after_at
       SimpleNLP.title refuses_long file_name ""
     = Returns
         {| name := file_name;
            skills := [];
            experience := ["Could not automatically extract experience."];
            education := ["Could not automatically extract education."];
            projects := ["No projects section found."];
            match_score := None;
            match_percentage := None |})
  ∧ (∀ text,
       refuses_long text = None →
       (∀ ent, ent ∈ SimpleNLP.capitalised_after_at (SimpleNLP.words_doc text) →
               label_ ent ≠ "ORG") →
       Runtime.detailed_extract_experience SimpleNLP.words_doc
         SimpleNLP.capitalised_after_at refuses_long text
       = Returns ["Could not automatically extract experience."])
  ∧ (∀ text,
       refuses_long text = None →
       (∀ ent, ent ∈ SimpleNLP.capitalised_after_at (SimpleNLP.words_doc text) →
               is_education (SimpleNLP.words_doc text) ent = false) →
       Runtime.detailed_extract_education SimpleNLP.words_doc
         SimpleNLP.capitalised_after_at refuses_long text
       = Returns ["Could not automatically extract education."])
  ∧ (∀ text,
       ProjectsRegex.findall text = [] →
       detailed_extract_projects text = ["No projects section found."])
  ∧ (∀ text e,
       refuses_long text = Some e →
       Runtime.refined_extract_skills SimpleNLP.words_doc SimpleNLP.title
         refuses_long text (skill_patterns SimpleNLP.words_doc) = Raises e
       ∧ Runtime.detailed_extract_experience SimpleNLP.words_doc
           SimpleNLP.capitalised_after_at refuses_long text = Raises e
       ∧ Runtime.detailed_extract_education SimpleNLP.words_doc
           SimpleNLP.capitalised_after_at refuses_long text = Raises e
       ∧ ∀ file_name,
           Runtime.candidate_details SimpleNLP.words_doc
             SimpleNLP.capitalised_after_at SimpleNLP.title refuses_long
             file_name text
           = Raises e).
Proof.
  apply (extraction_sentinels_unless_nlp_raises
           SimpleNLP.words_doc SimpleNLP.capitalised_after_at SimpleNLP.title
           refuses_long);
    reflexivity.
Defined.

(** C6, as the specification words it, fails: on a text of 1000001
    characters, which the pipeline refuses, the experience, the education
    and the profile raise; no sentinel is returned. *)
Lemma extraction_raises_on_long_text :
  N.of_nat (String.length long_text) = 1000001%N
  ∧ Runtime.detailed_extract_experience SimpleNLP.words_doc
      SimpleNLP.capitalised_after_at refuses_long long_text
    = Raises OtherException
  ∧ Runtime.detailed_extract_experience SimpleNLP.words_doc
      SimpleNLP.capitalised_after_at refuses_long long_text
    ≠ Returns ["Could not automatically extract experience."]
  ∧ Runtime.detailed_extract_education SimpleNLP.words_doc
      SimpleNLP.capitalised_after_at refuses_long long_text
    ≠ Returns ["Could not automatically extract education."]
  ∧ Runtime.candidate_details SimpleNLP.words_doc SimpleNLP.capitalised_after_at
      SimpleNLP.title refuses_long "resume.pdf" long_text
    = Raises OtherException.
Proof.
  assert (H : refuses_long long_text = Some OtherException)
    by (vm_compute; reflexivity).
  destruct (extractors_raise SimpleNLP.words_doc SimpleNLP.capitalised_after_at
              SimpleNLP.title refuses_long long_text OtherException H)
    as (_ & He & Hd & Hc).
  rewrite He, Hd, Hc.
  split; [vm_compute; reflexivity|]. by repeat split.
Qed.

(** ** The session as it runs *)


(** The state of a run whose analysis was ended by an exception: the
    history is emptied and the analysis marked as done, with the context
    and the ranking of the state before. *)
Definition interrupted (s : SessionState) : SessionState :=
  {| analysis_done := true; chat_history := [];
     qa_context := qa_context s; ranked_candidates := ranked_candidates s |}.

Section RuntimeScriptFacts.

Variable make_doc : string → Doc.
Variable ner : Doc → list Span.
Variable title : string → string.
Variable refuses : string → option exception.
Variable list_models : string → listing.
Variable generate_content : string → string → string → outcome string.
Variable displays : list Candidate → bool.

Local Abbreviation analyze_files := (Runtime.analyze make_doc ner title refuses).
Local Abbreviation analysis := (Runtime.analysis_step make_doc ner title refuses).
Local Abbreviation run_script :=
  (Runtime.run make_doc ner title refuses list_models generate_content displays).

Lemma analysis_step_started (s : SessionState) (w : Widgets) (jd : UploadedFile.t) :
  analyze_button w = true → job_description_file w = Some jd → resume_files w ≠ [] →
  analysis s w
  = match analyze_files jd (resume_files w) with
    | Returns result =>
        ({| analysis_done := true; chat_history := [];
            qa_context := Some result.2; ranked_candidates := Some result.1 |},
         None)
    | Raises e => (interrupted s, Some e)
    end.
Proof.
  intros Hb Hjd Hfiles. unfold Runtime.analysis_step. rewrite Hb, Hjd.
  by destruct (resume_files w).
Qed.

Lemma analysis_step_idle (s : SessionState) (w : Widgets) :
  ¬ analysis_starts w → analysis s w = (s, None).
Proof.
  intros H. unfold Runtime.analysis_step.
  destruct (analyze_button w) eqn:Hb; [|done].
  destruct (job_description_file w) as [jd|] eqn:Hjd; [|done].
  destruct (resume_files w) eqn:Hfiles; [done|].
  exfalso. apply H. unfold analysis_starts. rewrite Hb, Hjd, Hfiles. by repeat split.
Qed.










(** X27.  An analysis that completes forgets the session: the state the run
    leaves holds its results and is the same whatever the state before, and
    the history is empty when no question comes with the click.  An
    analysis ended by an exception leaves the history empty and the
    analysis marked as done, with the context and the ranking of the state
    before: those of an earlier analysis, or none. *)
Theorem run_analysis_resets (s : SessionState) (w : Widgets) (jd : UploadedFile.t) :
  analysis_starts w →
  job_description_file w = Some jd →
  (∀ result,
     analyze_files jd (resume_files w) = Returns result →
     (∀ s', run_script s w = run_script s' w)
     ∧ analysis_done (run_script s w) = true
     ∧ qa_context (run_script s w) = Some result.2
     ∧ ranked_candidates (run_script s w) = Some result.1
     ∧ (user_question w = None → chat_history (run_script s w) = []))
  ∧ (∀ e,
       analyze_files jd (resume_files w) = Raises e →
       run_script s w = interrupted s).
Proof.
  intros (Hb & _ & Hfiles) Hjd.
  unfold Runtime.run.
  rewrite (analysis_step_started s w jd Hb Hjd Hfiles).
  split; [|by intros e ->].
  intros result E. rewrite E. split.
  { intros s'. by rewrite (analysis_step_started s' w jd Hb Hjd Hfiles), E. }
  simpl. destruct (displays result.1); [|done].
  destruct (configured_key w) as [key|]; [|done].
  unfold chat_step. by destruct (user_question w) as [[|c q]|].
Qed.

End RuntimeScriptFacts.

(** A click on "Analyze Candidates", on a job description and one resume
    with the given text: no question comes with it. *)
Definition click (resume_text : string) : Widgets :=
  {| job_description_file := Some (pdf_upload "jd.pdf" "We need Python and SQL");
     resume_files := [pdf_upload "ann.pdf" resume_text];
     analyze_button := true;
     GEMINI_API_KEY := Some "key";
     user_question := None |}.

Definition example_runtime_run : SessionState → Widgets → SessionState :=
  Runtime.run SimpleNLP.words_doc SimpleNLP.capitalised_after_at SimpleNLP.title
    refuses_long example_listing example_generate (fun _ => true).

Lemma run_analysis_resets_witness :
  let analyzed :=
    Runtime.analyze SimpleNLP.words_doc SimpleNLP.capitalised_after_at
      SimpleNLP.title refuses_long
      (pdf_upload "jd.pdf" "We need Python and SQL")
      (resume_files (click "I use Python daily")) in
  let after := example_runtime_run new_session (click "I use Python daily") in
  (∀ result,
     analyzed = Returns result →
     (∀ s', after = example_runtime_run s' (click "I use Python daily"))
     ∧ analysis_done after = true
     ∧ qa_context after = Some result.2
     ∧ ranked_candidates after = Some result.1
     ∧ (user_question (click "I use Python daily") = None → chat_history after = []))
  ∧ (∀ e, analyzed = Raises e → after = interrupted new_session).
Proof.
  apply (run_analysis_resets SimpleNLP.words_doc SimpleNLP.capitalised_after_at
           SimpleNLP.title refuses_long example_listing example_generate
           (fun _ => true) new_session (click "I use Python daily")).
  - split; [reflexivity|]. split; [by eexists|discriminate].
  - reflexivity.
Defined.

(** An analysis of a resume that the pipeline refuses: in a new session it
    leaves the analysis marked as done with no ranking and no context, and
    after an analysis that completed it leaves the ranking of that one. *)
Example interrupted_analysis :
  let first := example_runtime_run new_session (click long_text) in
  let analyzed := example_runtime_run new_session (click "I use Python daily") in
  let second := example_runtime_run analyzed (click long_text) in
  (analysis_done first, qa_context first, ranked_candidates first)
  = (true, None, None)
  ∧ analysis_done second = true
  ∧ map name (default [] (ranked_candidates second)) = ["ann.pdf"]
  ∧ ranked_candidates second = ranked_candidates analyzed
  ∧ qa_context second = qa_context analyzed.
Proof. vm_compute. by repeat split. Qed.

(** ** The exact reading and the doubles *)

Section Rescored.
Context {A : Type}.
Variable key : A → Q.
Variable g : A → A.

Lemma insert_desc_rescored (x : A) (l : list A) :
  (∀ y, y ∈ l → Qlt_bool (key (g x)) (key (g y)) = Qlt_bool (key x) (key y)) →
  insert_desc key (g x) (map g l) = map g (insert_desc key x l).
Proof.
  induction l as [|y l IH]; intros H; [done|]. simpl.
  rewrite (H y) by left. destruct (Qlt_bool (key x) (key y)); [|done].
  simpl. f_equal. apply IH. intros z Hz. apply H. by right.
Qed.

Lemma sort_reverse_rescored (l : list A) :
  (∀ x y, x ∈ l → y ∈ l →
          Qlt_bool (key (g x)) (key (g y)) = Qlt_bool (key x) (key y)) →
  sort_reverse key (map g l) = map g (sort_reverse key l).
Proof.
  induction l as [|x l IH]; intros H; [done|]. simpl.
  rewrite IH by (intros y z Hy Hz; apply H; by right).
  apply insert_desc_rescored. intros y Hy. apply H; [by left|].
  right. by rewrite <- (sort_reverse_perm key l).
Qed.

End Rescored.

Lemma Qlt_bool_agree (a b c d : Q) :
  ((a < b)%Q ↔ (c < d)%Q) → Qlt_bool a b = Qlt_bool c d.
Proof.
  intros H. destruct (Qlt_bool c d) eqn:E.
  - apply Qlt_bool_true. apply H. by apply Qlt_bool_true.
  - destruct (Qlt_bool a b) eqn:E'; [|done].
    apply Qlt_bool_true, H, Qlt_bool_true in E'. congruence.
Qed.

Lemma percentage_order_64 (m1 m2 n : nat) :
  (m1 ≤ n)%nat → (m2 ≤ n)%nat → (0 < n)%nat → (Z.of_nat n ≤ 2 ^ 50)%Z →
  (Binary64.percentage m1 n < Binary64.percentage m2 n)%Q ↔ (m1 < m2)%nat.
Proof.
  intros H1 H2 Hn Hmax. split.
  - intros Hlt. destruct (Nat.lt_ge_cases m1 m2) as [|Hge]; [done|].
    pose proof (percentage_mono_64 m2 m1 n Hn Hge). lra.
  - intros Hlt. by apply percentage_strict_64.
Qed.

Lemma score_candidate_run_key (J : gset string) (c : Candidate) :
  percentage_key (Runtime.score_candidate J c)
  = if decide (J = ∅) then 0%Q
    else Binary64.percentage (size (J ∩ list_to_set (skills c))) (size J).
Proof. unfold percentage_key. simpl. by destruct (decide (J = ∅)). Qed.

(** X28.  With at most [2^50] job skills the ranking in doubles is the
    ranking in exact arithmetic: the candidates come out in the same order,
    with the same scores, and with their percentages in doubles.  Rounding
    neither merges nor swaps two percentages. *)
Theorem rank_candidates_order_in_doubles
    (job_skills : list string) (candidate_data : list Candidate) :
  (Z.of_nat (size (list_to_set job_skills : gset string)) ≤ 2 ^ 50)%Z →
  Runtime.rank_candidates job_skills candidate_data
  = map (Runtime.score_candidate (list_to_set job_skills))
        (rank_candidates job_skills candidate_data).
Proof.
  intros Hmax. unfold Runtime.rank_candidates, rank_candidates.
  set (J := list_to_set job_skills : gset string) in *.
  rewrite <- sort_reverse_rescored.
  - f_equal. rewrite map_map. by apply map_ext.
  - intros x y Hx Hy.
    apply list_elem_of_In, in_map_iff in Hx as (c1 & <- & _).
    apply list_elem_of_In, in_map_iff in Hy as (c2 & <- & _).
    change (Runtime.score_candidate J (score_candidate J c1))
      with (Runtime.score_candidate J c1).
    change (Runtime.score_candidate J (score_candidate J c2))
      with (Runtime.score_candidate J c2).
    rewrite !score_candidate_run_key, !score_candidate_key.
    destruct (decide (J = ∅)) as [E|E]; [done|].
    pose proof (size_pos_nonempty J E) as Hpos.
    apply Qlt_bool_agree.
    rewrite percentage_order_64, percentage_lt; try done;
      apply subseteq_size, intersection_subseteq_l.
Qed.

Lemma rank_candidates_order_in_doubles_witness :
  Runtime.rank_candidates example_job [candidate_A; candidate_B; candidate_C]
  = map (Runtime.score_candidate (list_to_set example_job))
        (rank_candidates example_job [candidate_A; candidate_B; candidate_C]).
Proof.
  apply rank_candidates_order_in_doubles. vm_compute. discriminate.
Defined.

Lemma percentage_full_iff_64 (m n : nat) :
  (m ≤ n)%nat → (0 < n)%nat → (Z.of_nat n ≤ 2 ^ 50)%Z →
  Binary64.percentage m n = 100%Q ↔ m = n.
Proof.
  intros Hm Hn Hmax. split; [|intros ->; by apply percentage_full_64].
  intros H. destruct (Nat.eq_dec m n) as [|Hne]; [done|]. exfalso.
  assert (Hlt : (Binary64.percentage m n < Binary64.percentage n n)%Q)
    by (apply percentage_strict_64; [lia|done|done]).
  rewrite H, (percentage_full_64 n Hn) in Hlt. by apply Qlt_irrefl in Hlt.
Qed.

Lemma percentage_none_iff_64 (m n : nat) :
  (m ≤ n)%nat → (0 < n)%nat → (Z.of_nat n ≤ 2 ^ 50)%Z →
  Binary64.percentage m n = 0%Q ↔ m = 0%nat.
Proof.
  intros Hm Hn Hmax. split; [|intros ->; by apply percentage_none_64].
  intros H. destruct (Nat.eq_dec m 0) as [|Hne]; [done|]. exfalso.
  assert (Hlt : (Binary64.percentage 0 n < Binary64.percentage m n)%Q)
    by (apply percentage_strict_64; [lia|done|done]).
  rewrite H, (percentage_none_64 n Hn) in Hlt. by apply Qlt_irrefl in Hlt.
Qed.

(** X29.  The score in doubles lies between 0 and 100 and is never lower
    for a resume whose exact score is not lower.  With at most [2^50] words
    in the job description two resumes compare in doubles as their exact
    scores do, and the score in doubles is 100, or 0, exactly when the
    exact score is. *)
Theorem calculate_score_in_doubles (resume resume' jd : string) :
  (0 <= Runtime.calculate_score resume jd)%Q
  ∧ (Runtime.calculate_score resume jd <= 100)%Q
  ∧ ((calculate_score resume jd <= calculate_score resume' jd)%Q →
     (Runtime.calculate_score resume jd <= Runtime.calculate_score resume' jd)%Q)
  ∧ ((Z.of_nat (size (word_tokens jd)) ≤ 2 ^ 50)%Z →
     ((Runtime.calculate_score resume jd < Runtime.calculate_score resume' jd)%Q
      ↔ (calculate_score resume jd < calculate_score resume' jd)%Q)
     ∧ (Runtime.calculate_score resume jd = 100%Q
        ↔ (calculate_score resume jd == 100)%Q)
     ∧ (Runtime.calculate_score resume jd = 0%Q
        ↔ (calculate_score resume jd == 0)%Q)).
Proof.
  rewrite !calculate_score_run_eq, !calculate_score_percentage.
  set (J := word_tokens jd).
  set (k := size (word_tokens resume ∩ J)). set (k' := size (word_tokens resume' ∩ J)).
  assert (Hk : (k ≤ size J)%nat) by apply subseteq_size, intersection_subseteq_r.
  assert (Hk' : (k' ≤ size J)%nat) by apply subseteq_size, intersection_subseteq_r.
  destruct (decide (J = ∅)) as [E|E].
  - split; [done|]. split; [done|]. split; [done|]. intros _.
    split; [done|]. split; [|done].
    split; [discriminate|]. intros H. unfold Qeq in H. simpl in H. lia.
  - pose proof (size_pos_nonempty J E) as Hpos.
    destruct (percentage_bounds_64 k (size J) Hpos Hk) as [H0 H100].
    split; [done|]. split; [done|]. split.
    + rewrite (percentage_le _ _ _ Hpos). by apply percentage_mono_64.
    + intros Hmax. split; [|split].
      * by rewrite percentage_order_64, percentage_lt.
      * by rewrite percentage_full_iff_64, percentage_full.
      * by rewrite percentage_none_iff_64, percentage_zero.
Qed.

(** ** The analysis as it runs *)

Section RuntimeAnalysisFacts.

Variable make_doc : string → Doc.
Variable ner : Doc → list Span.
Variable title : string → string.
Variable refuses : string → option exception.

Lemma resume_candidates_run (resume_files : list UploadedFile.t) :
  match Runtime.resume_candidates make_doc ner title refuses resume_files with
  | Returns candidate_data =>
      candidate_data = resume_candidates make_doc ner title resume_files
      ∧ Forall (fun resume_file => refuses (read_upload resume_file).1 = None)
               (readable resume_files)
  | Raises e =>
      ∃ resume_file, resume_file ∈ readable resume_files
                     ∧ refuses (read_upload resume_file).1 = Some e
  end.
Proof.
  unfold readable. induction resume_files as [|f fs IH]; [done|].
  simpl. destruct (decide ((read_upload f).1 = EmptyString)) as [E|E].
  - by rewrite filter_cons_False by (by intros ?).
  - rewrite filter_cons_True by done.
    destruct (refuses (read_upload f).1) as [e|] eqn:Hf.
    + destruct (extractors_raise make_doc ner title refuses _ _ Hf) as (_ & _ & _ & ->).
      exists f. split; [by left|done].
    + destruct (extractors_return make_doc ner title refuses _ Hf) as (_ & _ & _ & ->).
      simpl.
      destruct (Runtime.resume_candidates make_doc ner title refuses fs) as [cs|e].
      * destruct IH as [-> IH]. split; [done|]. by apply Forall_cons.
      * destruct IH as (f' & Hf' & He). exists f'. split; [by right|done].
Qed.

(** X30.  The analysis completes exactly when the pipeline refuses neither
    the text of the job description nor that of a resume that has text: it
    then gives the candidates of the resumes with text, ranked in doubles,
    and the context of the chat.  Otherwise it is ended by an exception
    that the pipeline raised on one of these texts. *)
Theorem analyze_completes_or_raises
    (job_description_file : UploadedFile.t) (resume_files : list UploadedFile.t) :
  let jd_content := (read_upload job_description_file).1 in
  let analyzed :=
    Runtime.analyze make_doc ner title refuses job_description_file resume_files in
  ((∃ result, analyzed = Returns result)
   ↔ refuses jd_content = None
     ∧ Forall (fun resume_file => refuses (read_upload resume_file).1 = None)
              (readable resume_files))
  ∧ (∀ result, analyzed = Returns result →
       result
       = (Runtime.rank_candidates
            (refined_extract_skills make_doc title jd_content (skill_patterns make_doc))
            (resume_candidates make_doc ner title resume_files),
          (analyze make_doc ner title job_description_file resume_files).2))
  ∧ (∀ e, analyzed = Raises e →
          refuses jd_content = Some e
          ∨ ∃ resume_file, resume_file ∈ readable resume_files
                           ∧ refuses (read_upload resume_file).1 = Some e).
Proof.
  intros jd_content analyzed. unfold analyzed, Runtime.analyze. fold jd_content.
  pose proof (resume_candidates_run resume_files) as Hfiles.
  destruct (refuses jd_content) as [e'|] eqn:Hjd.
  - destruct (extractors_raise make_doc ner title refuses _ _ Hjd) as (-> & _).
    split; [split; [by intros [? ?]|by intros [? _]]|].
    split; [done|]. intros e [= ->]. by left.
  - destruct (extractors_return make_doc ner title refuses _ Hjd) as (-> & _).
    simpl.
    destruct (Runtime.resume_candidates make_doc ner title refuses resume_files)
      as [cs|e'].
    + destruct Hfiles as [-> Hnone].
      split; [split; [done|by eexists]|]. split; [|done]. by intros result [= <-].
    + destruct Hfiles as (f & Hf & He).
      split.
      * split; [by intros [? ?]|]. intros [_ Hnone]. exfalso.
        rewrite Forall_forall in Hnone. specialize (Hnone f Hf). congruence.
      * split; [done|]. intros e [= ->]. right. by exists f.
Qed.

End RuntimeAnalysisFacts.
